(** * The rotary selector of [src/app/zoom-experience.tsx]

    A shallow embedding of the interaction engine of the [ZoomExperience]
    component: the ring rotation and its easing, the pointer gestures, the
    selected-index projections, the tick synchroniser, the playback-rate
    mapping, the audio initialisation and the fade state machine.

    JavaScript numbers are modelled as real numbers: [Math.floor],
    [Math.round], [%], [Math.abs], [Math.min] and [Math.sqrt] are the exact
    operations on [R], so rounding of IEEE doubles is outside the model.
    Integer-valued numbers (indices, counts) are kept in [Z]. *)

From Stdlib Require Import Reals Lra Lia ZArith List String Bool Psatz.
From Stdlib Require Import Ascii.
Import ListNotations.

Open Scope R_scope.

(** ** JavaScript numeric primitives over the reals *)

Module JsNum.

(** [Math.floor] *)
Definition js_floor (x : R) : Z := Int_part x.

(** [Math.round]: the nearest integer, halves going up. *)
Definition js_round (x : R) : Z := Int_part (x + / 2).

(** Truncation toward zero, the quotient of the [%] operator. *)
Definition js_trunc (x : R) : Z :=
  if Rle_dec 0 x then Int_part x else (- Int_part (- x))%Z.

(** [x % y]: the remainder takes the sign of the dividend. *)
Definition js_rem (x y : R) : R := x - y * IZR (js_trunc (x / y)).

(** Comparisons as booleans. *)
Definition ltb (x y : R) : bool := if Rlt_dec x y then true else false.
Definition gtb (x y : R) : bool := ltb y x.
Definition eqb (x y : R) : bool := if Req_dec_T x y then true else false.

(** Division and remainder that report a zero divisor: JavaScript yields
    [NaN] or an infinity there, which no real number stands for. *)
Definition div_checked (x y : R) : option R :=
  if Req_dec_T y 0 then None else Some (x / y).

Definition zrem_checked (a n : Z) : option Z :=
  if Z.eqb n 0 then None else Some (Z.rem a n).

(** The idiom [((x % m) + m) % m] is the mathematical residue of [x]
    modulo [m]: [x] minus [m] times the floor of [x / m]. *)
Definition wrap (x m : R) : R := js_rem (js_rem x m + m) m.

End JsNum.

(** ** Constants of the component *)

Definition FADE_TO_BLACK_DURATION_MS : Z := 400.
Definition HOLD_DURATION_MS : Z := 200.
Definition FADE_OUT_DURATION_MS : Z := 800.
Definition ROTATION_EASING : R := 12 / 100.
Definition SNAP_THRESHOLD : R := 1 / 10.
Definition CLICKS_PER_FULL_CIRCLE : Z := 24.
Definition MIN_PLAYBACK_RATE : R := 1 / 2.
Definition MAX_PLAYBACK_RATE : R := 2.
Definition MIDDLE_PLAYBACK_RATE : R := 1.
Definition QUADRATIC_A : R := 1.
Definition QUADRATIC_B : R := 1 / 2.

(** ** Data model *)

Record ImageSet := mkImageSet { name : string; images : list string }.

Inductive FadePhase :=
| Idle | Loading | FadingToBlack | Holding | FadingOut.

Definition FadePhase_eqb (a b : FadePhase) : bool :=
  match a, b with
  | Idle, Idle | Loading, Loading | FadingToBlack, FadingToBlack
  | Holding, Holding | FadingOut, FadingOut => true
  | _, _ => false
  end.

(** The record kept in [clickStartRef]. *)
Record ClickStart := mkClickStart { cs_x : R; cs_y : R; cs_index : Z }.

(** A string is truthy when it is not empty. *)
Definition truthy (s : string) : bool :=
  match s with EmptyString => false | _ => true end.

(** The component state read by the rotation, gesture and fade logic: the
    [useState] cells and the refs, and a few ghost fields that record what
    the runtime holds (armed timers, effects that are due, promises in
    flight, the number of [playTick] calls). *)
Record State := mkState {
  activeSet : string;
  pendingSet : option string;
  fadePhase : FadePhase;
  highlightSet : string;
  revealReady : bool;
  isMobile : bool;
  audioStarted : bool;
  ringRotation : R;
  targetRotation : R;
  isDragging : bool;
  isHovered : bool;
  isSelectedCircleHovered : bool;
  showRingAfterStart : bool;
  dragStartRef : option R; (* the [lastAngle] of the gesture in progress *)
  dragStartIndexRef : option Z;
  clickStartRef : option ClickStart;
  lastClickIndexRef : option Z;
  audioStartTimeoutRef : bool; (* the hide-ring timer is armed *)
  tickCalls : nat; (* ghost: calls of [playTick] so far *)
  phaseTimerArmed : bool; (* ghost: the fade effect's timer is armed *)
  loadingEffectDue : bool; (* ghost: the loading effect has not yet run *)
  preloadsInFlight : nat; (* ghost: preload promises not yet resolved *)
  highlightEffectDue : bool (* ghost: the highlight effect is due *)
}.

Definition set_activeSet (v : string) (s : State) : State :=
  mkState v (pendingSet s) (fadePhase s) (highlightSet s) (revealReady s)
    (isMobile s) (audioStarted s) (ringRotation s) (targetRotation s)
    (isDragging s) (isHovered s) (isSelectedCircleHovered s)
    (showRingAfterStart s) (dragStartRef s) (dragStartIndexRef s)
    (clickStartRef s) (lastClickIndexRef s) (audioStartTimeoutRef s)
    (tickCalls s) (phaseTimerArmed s) (loadingEffectDue s) (preloadsInFlight s)
    (highlightEffectDue s).

Definition set_pendingSet (v : option string) (s : State) : State :=
  mkState (activeSet s) v (fadePhase s) (highlightSet s) (revealReady s)
    (isMobile s) (audioStarted s) (ringRotation s) (targetRotation s)
    (isDragging s) (isHovered s) (isSelectedCircleHovered s)
    (showRingAfterStart s) (dragStartRef s) (dragStartIndexRef s)
    (clickStartRef s) (lastClickIndexRef s) (audioStartTimeoutRef s)
    (tickCalls s) (phaseTimerArmed s) (loadingEffectDue s) (preloadsInFlight s)
    (highlightEffectDue s).

Definition set_fadePhase (v : FadePhase) (s : State) : State :=
  mkState (activeSet s) (pendingSet s) v (highlightSet s) (revealReady s)
    (isMobile s) (audioStarted s) (ringRotation s) (targetRotation s)
    (isDragging s) (isHovered s) (isSelectedCircleHovered s)
    (showRingAfterStart s) (dragStartRef s) (dragStartIndexRef s)
    (clickStartRef s) (lastClickIndexRef s) (audioStartTimeoutRef s)
    (tickCalls s) (phaseTimerArmed s) (loadingEffectDue s) (preloadsInFlight s)
    (highlightEffectDue s).

Definition set_highlightSet (v : string) (s : State) : State :=
  mkState (activeSet s) (pendingSet s) (fadePhase s) v (revealReady s)
    (isMobile s) (audioStarted s) (ringRotation s) (targetRotation s)
    (isDragging s) (isHovered s) (isSelectedCircleHovered s)
    (showRingAfterStart s) (dragStartRef s) (dragStartIndexRef s)
    (clickStartRef s) (lastClickIndexRef s) (audioStartTimeoutRef s)
    (tickCalls s) (phaseTimerArmed s) (loadingEffectDue s) (preloadsInFlight s)
    (highlightEffectDue s).

Definition set_revealReady (v : bool) (s : State) : State :=
  mkState (activeSet s) (pendingSet s) (fadePhase s) (highlightSet s) v
    (isMobile s) (audioStarted s) (ringRotation s) (targetRotation s)
    (isDragging s) (isHovered s) (isSelectedCircleHovered s)
    (showRingAfterStart s) (dragStartRef s) (dragStartIndexRef s)
    (clickStartRef s) (lastClickIndexRef s) (audioStartTimeoutRef s)
    (tickCalls s) (phaseTimerArmed s) (loadingEffectDue s) (preloadsInFlight s)
    (highlightEffectDue s).

Definition set_isMobile (v : bool) (s : State) : State :=
  mkState (activeSet s) (pendingSet s) (fadePhase s) (highlightSet s)
    (revealReady s) v (audioStarted s) (ringRotation s) (targetRotation s)
    (isDragging s) (isHovered s) (isSelectedCircleHovered s)
    (showRingAfterStart s) (dragStartRef s) (dragStartIndexRef s)
    (clickStartRef s) (lastClickIndexRef s) (audioStartTimeoutRef s)
    (tickCalls s) (phaseTimerArmed s) (loadingEffectDue s) (preloadsInFlight s)
    (highlightEffectDue s).

Definition set_audioStarted (v : bool) (s : State) : State :=
  mkState (activeSet s) (pendingSet s) (fadePhase s) (highlightSet s)
    (revealReady s) (isMobile s) v (ringRotation s) (targetRotation s)
    (isDragging s) (isHovered s) (isSelectedCircleHovered s)
    (showRingAfterStart s) (dragStartRef s) (dragStartIndexRef s)
    (clickStartRef s) (lastClickIndexRef s) (audioStartTimeoutRef s)
    (tickCalls s) (phaseTimerArmed s) (loadingEffectDue s) (preloadsInFlight s)
    (highlightEffectDue s).

Definition set_ringRotation (v : R) (s : State) : State :=
  mkState (activeSet s) (pendingSet s) (fadePhase s) (highlightSet s)
    (revealReady s) (isMobile s) (audioStarted s) v (targetRotation s)
    (isDragging s) (isHovered s) (isSelectedCircleHovered s)
    (showRingAfterStart s) (dragStartRef s) (dragStartIndexRef s)
    (clickStartRef s) (lastClickIndexRef s) (audioStartTimeoutRef s)
    (tickCalls s) (phaseTimerArmed s) (loadingEffectDue s) (preloadsInFlight s)
    (highlightEffectDue s).

Definition set_targetRotation (v : R) (s : State) : State :=
  mkState (activeSet s) (pendingSet s) (fadePhase s) (highlightSet s)
    (revealReady s) (isMobile s) (audioStarted s) (ringRotation s) v
    (isDragging s) (isHovered s) (isSelectedCircleHovered s)
    (showRingAfterStart s) (dragStartRef s) (dragStartIndexRef s)
    (clickStartRef s) (lastClickIndexRef s) (audioStartTimeoutRef s)
    (tickCalls s) (phaseTimerArmed s) (loadingEffectDue s) (preloadsInFlight s)
    (highlightEffectDue s).

Definition set_isDragging (v : bool) (s : State) : State :=
  mkState (activeSet s) (pendingSet s) (fadePhase s) (highlightSet s)
    (revealReady s) (isMobile s) (audioStarted s) (ringRotation s)
    (targetRotation s) v (isHovered s) (isSelectedCircleHovered s)
    (showRingAfterStart s) (dragStartRef s) (dragStartIndexRef s)
    (clickStartRef s) (lastClickIndexRef s) (audioStartTimeoutRef s)
    (tickCalls s) (phaseTimerArmed s) (loadingEffectDue s) (preloadsInFlight s)
    (highlightEffectDue s).

Definition set_isHovered (v : bool) (s : State) : State :=
  mkState (activeSet s) (pendingSet s) (fadePhase s) (highlightSet s)
    (revealReady s) (isMobile s) (audioStarted s) (ringRotation s)
    (targetRotation s) (isDragging s) v (isSelectedCircleHovered s)
    (showRingAfterStart s) (dragStartRef s) (dragStartIndexRef s)
    (clickStartRef s) (lastClickIndexRef s) (audioStartTimeoutRef s)
    (tickCalls s) (phaseTimerArmed s) (loadingEffectDue s) (preloadsInFlight s)
    (highlightEffectDue s).

Definition set_isSelectedCircleHovered (v : bool) (s : State) : State :=
  mkState (activeSet s) (pendingSet s) (fadePhase s) (highlightSet s)
    (revealReady s) (isMobile s) (audioStarted s) (ringRotation s)
    (targetRotation s) (isDragging s) (isHovered s) v (showRingAfterStart s)
    (dragStartRef s) (dragStartIndexRef s) (clickStartRef s)
    (lastClickIndexRef s) (audioStartTimeoutRef s) (tickCalls s)
    (phaseTimerArmed s) (loadingEffectDue s) (preloadsInFlight s)
    (highlightEffectDue s).

Definition set_showRingAfterStart (v : bool) (s : State) : State :=
  mkState (activeSet s) (pendingSet s) (fadePhase s) (highlightSet s)
    (revealReady s) (isMobile s) (audioStarted s) (ringRotation s)
    (targetRotation s) (isDragging s) (isHovered s)
    (isSelectedCircleHovered s) v (dragStartRef s) (dragStartIndexRef s)
    (clickStartRef s) (lastClickIndexRef s) (audioStartTimeoutRef s)
    (tickCalls s) (phaseTimerArmed s) (loadingEffectDue s) (preloadsInFlight s)
    (highlightEffectDue s).

Definition set_dragStartRef (v : option R) (s : State) : State :=
  mkState (activeSet s) (pendingSet s) (fadePhase s) (highlightSet s)
    (revealReady s) (isMobile s) (audioStarted s) (ringRotation s)
    (targetRotation s) (isDragging s) (isHovered s)
    (isSelectedCircleHovered s) (showRingAfterStart s) v (dragStartIndexRef s)
    (clickStartRef s) (lastClickIndexRef s) (audioStartTimeoutRef s)
    (tickCalls s) (phaseTimerArmed s) (loadingEffectDue s) (preloadsInFlight s)
    (highlightEffectDue s).

Definition set_dragStartIndexRef (v : option Z) (s : State) : State :=
  mkState (activeSet s) (pendingSet s) (fadePhase s) (highlightSet s)
    (revealReady s) (isMobile s) (audioStarted s) (ringRotation s)
    (targetRotation s) (isDragging s) (isHovered s)
    (isSelectedCircleHovered s) (showRingAfterStart s) (dragStartRef s) v
    (clickStartRef s) (lastClickIndexRef s) (audioStartTimeoutRef s)
    (tickCalls s) (phaseTimerArmed s) (loadingEffectDue s) (preloadsInFlight s)
    (highlightEffectDue s).

Definition set_clickStartRef (v : option ClickStart) (s : State) : State :=
  mkState (activeSet s) (pendingSet s) (fadePhase s) (highlightSet s)
    (revealReady s) (isMobile s) (audioStarted s) (ringRotation s)
    (targetRotation s) (isDragging s) (isHovered s)
    (isSelectedCircleHovered s) (showRingAfterStart s) (dragStartRef s)
    (dragStartIndexRef s) v (lastClickIndexRef s) (audioStartTimeoutRef s)
    (tickCalls s) (phaseTimerArmed s) (loadingEffectDue s) (preloadsInFlight s)
    (highlightEffectDue s).

Definition set_lastClickIndexRef (v : option Z) (s : State) : State :=
  mkState (activeSet s) (pendingSet s) (fadePhase s) (highlightSet s)
    (revealReady s) (isMobile s) (audioStarted s) (ringRotation s)
    (targetRotation s) (isDragging s) (isHovered s)
    (isSelectedCircleHovered s) (showRingAfterStart s) (dragStartRef s)
    (dragStartIndexRef s) (clickStartRef s) v (audioStartTimeoutRef s)
    (tickCalls s) (phaseTimerArmed s) (loadingEffectDue s) (preloadsInFlight s)
    (highlightEffectDue s).

Definition set_audioStartTimeoutRef (v : bool) (s : State) : State :=
  mkState (activeSet s) (pendingSet s) (fadePhase s) (highlightSet s)
    (revealReady s) (isMobile s) (audioStarted s) (ringRotation s)
    (targetRotation s) (isDragging s) (isHovered s)
    (isSelectedCircleHovered s) (showRingAfterStart s) (dragStartRef s)
    (dragStartIndexRef s) (clickStartRef s) (lastClickIndexRef s) v
    (tickCalls s) (phaseTimerArmed s) (loadingEffectDue s) (preloadsInFlight s)
    (highlightEffectDue s).

Definition set_tickCalls (v : nat) (s : State) : State :=
  mkState (activeSet s) (pendingSet s) (fadePhase s) (highlightSet s)
    (revealReady s) (isMobile s) (audioStarted s) (ringRotation s)
    (targetRotation s) (isDragging s) (isHovered s)
    (isSelectedCircleHovered s) (showRingAfterStart s) (dragStartRef s)
    (dragStartIndexRef s) (clickStartRef s) (lastClickIndexRef s)
    (audioStartTimeoutRef s) v (phaseTimerArmed s) (loadingEffectDue s)
    (preloadsInFlight s) (highlightEffectDue s).

Definition set_phaseTimerArmed (v : bool) (s : State) : State :=
  mkState (activeSet s) (pendingSet s) (fadePhase s) (highlightSet s)
    (revealReady s) (isMobile s) (audioStarted s) (ringRotation s)
    (targetRotation s) (isDragging s) (isHovered s)
    (isSelectedCircleHovered s) (showRingAfterStart s) (dragStartRef s)
    (dragStartIndexRef s) (clickStartRef s) (lastClickIndexRef s)
    (audioStartTimeoutRef s) (tickCalls s) v (loadingEffectDue s)
    (preloadsInFlight s) (highlightEffectDue s).

Definition set_loadingEffectDue (v : bool) (s : State) : State :=
  mkState (activeSet s) (pendingSet s) (fadePhase s) (highlightSet s)
    (revealReady s) (isMobile s) (audioStarted s) (ringRotation s)
    (targetRotation s) (isDragging s) (isHovered s)
    (isSelectedCircleHovered s) (showRingAfterStart s) (dragStartRef s)
    (dragStartIndexRef s) (clickStartRef s) (lastClickIndexRef s)
    (audioStartTimeoutRef s) (tickCalls s) (phaseTimerArmed s) v
    (preloadsInFlight s) (highlightEffectDue s).

Definition set_preloadsInFlight (v : nat) (s : State) : State :=
  mkState (activeSet s) (pendingSet s) (fadePhase s) (highlightSet s)
    (revealReady s) (isMobile s) (audioStarted s) (ringRotation s)
    (targetRotation s) (isDragging s) (isHovered s)
    (isSelectedCircleHovered s) (showRingAfterStart s) (dragStartRef s)
    (dragStartIndexRef s) (clickStartRef s) (lastClickIndexRef s)
    (audioStartTimeoutRef s) (tickCalls s) (phaseTimerArmed s)
    (loadingEffectDue s)
    v (highlightEffectDue s).

Definition set_highlightEffectDue (v : bool) (s : State) : State :=
  mkState (activeSet s) (pendingSet s) (fadePhase s) (highlightSet s)
    (revealReady s) (isMobile s) (audioStarted s) (ringRotation s)
    (targetRotation s) (isDragging s) (isHovered s)
    (isSelectedCircleHovered s) (showRingAfterStart s) (dragStartRef s)
    (dragStartIndexRef s) (clickStartRef s) (lastClickIndexRef s)
    (audioStartTimeoutRef s) (tickCalls s) (phaseTimerArmed s)
    (loadingEffectDue s)
    (preloadsInFlight s) v.

(** [Array.prototype.findIndex]: the first position whose element satisfies
    [p], counted from [i], or [-1]. *)
Fixpoint findIndex_from {A : Type} (p : A -> bool) (l : list A) (i : Z) : Z :=
  match l with
  | [] => (-1)%Z
  | x :: l' => if p x then i else findIndex_from p l' (i + 1)%Z
  end.

(** [Math.atan2 (y, x)] on the reals. *)
Definition atan2 (y x : R) : R :=
  if Rlt_dec 0 x then atan (y / x)
  else if Rlt_dec x 0 then
    if Rle_dec 0 y then atan (y / x) + PI else atan (y / x) - PI
  else if Rlt_dec 0 y then PI / 2
  else if Rlt_dec y 0 then - (PI / 2)
  else 0.

(** Sequencing of computations whose numeric result may fail to be finite. *)
Notation "x <- m ;; k" :=
  (match m with Some x => k | None => None end)
  (at level 61, m at next level, right associativity).

(** Strict equality of two numbers where [None] stands for [NaN], which is
    equal to nothing. *)
Definition strict_eq (a b : option Z) : bool :=
  match a, b with
  | Some x, Some y => Z.eqb x y
  | _, _ => false
  end.

(** ** The audio engine *)

Module Audio.

(** Values of the browser, known by the address they came from. *)
Inductive Response := mkResponse (url : string).
Inductive ArrayBuffer := mkArrayBuffer (url : string).
Inductive AudioBuffer := mkAudioBuffer (url : string).

Inductive ContextState := Suspended | Running | Closed.

(** What the browser answers: [None] is a thrown exception or a rejected
    promise. *)
Record Env := mkEnv {
  newAudioContext : option ContextState;
  fetch : string -> option Response;
  arrayBuffer : Response -> option ArrayBuffer;
  decodeAudioData : ArrayBuffer -> option AudioBuffer;
  resume : option unit
}.

(** The looping voice of the background music. *)
Record Voice := mkVoice {
  voice_buffer : AudioBuffer;
  voice_loop : bool;
  playbackRate : R
}.

Record ZoomRange := mkZoomRange { range_min : R; range_max : R }.

Record AudioState := mkAudioState {
  audioContextRef : option ContextState;
  tickBufferRef : option AudioBuffer;
  bgMusicBufferRef : option AudioBuffer;
  bgMusicRef : option Voice;
  bgMusicGainRef : option R;
  isMutedRef : bool;
  zoomRangeRef : option ZoomRange;
  audioReady : bool;
  audioStarted : bool
}.

Definition set_audioContextRef (v : option ContextState)
    (s : AudioState) : AudioState :=
  mkAudioState v (tickBufferRef s) (bgMusicBufferRef s) (bgMusicRef s)
    (bgMusicGainRef s) (isMutedRef s) (zoomRangeRef s) (audioReady s)
    (audioStarted s).

Definition set_tickBufferRef (v : option AudioBuffer)
    (s : AudioState) : AudioState :=
  mkAudioState (audioContextRef s) v (bgMusicBufferRef s) (bgMusicRef s)
    (bgMusicGainRef s) (isMutedRef s) (zoomRangeRef s) (audioReady s)
    (audioStarted s).

Definition set_bgMusicBufferRef (v : option AudioBuffer)
    (s : AudioState) : AudioState :=
  mkAudioState (audioContextRef s) (tickBufferRef s) v (bgMusicRef s)
    (bgMusicGainRef s) (isMutedRef s) (zoomRangeRef s) (audioReady s)
    (audioStarted s).

Definition set_bgMusicRef (v : option Voice) (s : AudioState) : AudioState :=
  mkAudioState (audioContextRef s) (tickBufferRef s) (bgMusicBufferRef s) v
    (bgMusicGainRef s) (isMutedRef s) (zoomRangeRef s) (audioReady s)
    (audioStarted s).

Definition set_bgMusicGainRef (v : option R) (s : AudioState) : AudioState :=
  mkAudioState (audioContextRef s) (tickBufferRef s) (bgMusicBufferRef s)
    (bgMusicRef s) v (isMutedRef s) (zoomRangeRef s) (audioReady s)
    (audioStarted s).

Definition set_isMutedRef (v : bool) (s : AudioState) : AudioState :=
  mkAudioState (audioContextRef s) (tickBufferRef s) (bgMusicBufferRef s)
    (bgMusicRef s) (bgMusicGainRef s) v (zoomRangeRef s) (audioReady s)
    (audioStarted s).

Definition set_zoomRangeRef (v : option ZoomRange)
    (s : AudioState) : AudioState :=
  mkAudioState (audioContextRef s) (tickBufferRef s) (bgMusicBufferRef s)
    (bgMusicRef s) (bgMusicGainRef s) (isMutedRef s) v (audioReady s)
    (audioStarted s).

Definition set_audioReady (v : bool) (s : AudioState) : AudioState :=
  mkAudioState (audioContextRef s) (tickBufferRef s) (bgMusicBufferRef s)
    (bgMusicRef s) (bgMusicGainRef s) (isMutedRef s) (zoomRangeRef s) v
    (audioStarted s).

Definition set_audioStarted (v : bool) (s : AudioState) : AudioState :=
  mkAudioState (audioContextRef s) (tickBufferRef s) (bgMusicBufferRef s)
    (bgMusicRef s) (bgMusicGainRef s) (isMutedRef s) (zoomRangeRef s)
    (audioReady s) v.

(** Code that mutates the refs and may throw: the state reached, and the
    value unless an exception is on its way. *)
Definition Exec (A : Type) : Type := AudioState -> AudioState * option A.

Definition ret {A} (a : A) : Exec A := fun s => (s, Some a).

Definition bind {A B} (m : Exec A) (k : A -> Exec B) : Exec B :=
  fun s =>
    match m s with
    | (s1, Some a) => k a s1
    | (s1, None) => (s1, None)
    end.

Notation "x <~ m ;; k" := (bind m (fun x => k))
  (at level 61, m at next level, right associativity).
Notation "m ;;; k" := (bind m (fun _ => k))
  (at level 61, right associativity).

(** [await] of a promise of the environment; a rejection throws. *)
Definition await {A} (outcome : option A) : Exec A := fun s => (s, outcome).

Definition update (f : AudioState -> AudioState) : Exec unit :=
  fun s => (f s, Some tt).

Definition read {A} (f : AudioState -> A) : Exec A := fun s => (s, Some (f s)).

(** [try m catch handler] *)
Definition try_catch (m : Exec unit) (handler : Exec unit) : Exec unit :=
  fun s =>
    match m s with
    | (s1, Some a) => (s1, Some a)
    | (s1, None) => handler s1
    end.

Definition is_some {A} (o : option A) : bool :=
  match o with Some _ => true | None => false end.

Definition getBgMusicVolume (isMobile : bool) : R :=
  if isMobile then 5 / 100 else 25 / 100.

Definition initializeAudio (env : Env) : Exec unit :=
  ready <~ read audioReady ;;
  if ready then ret tt
  else
    try_catch
      ( (* the audio context, suspended until a user gesture *)
        (ctx <~ read audioContextRef ;;
         if is_some ctx then ret tt
         else
           st <~ await (newAudioContext env) ;;
           update (set_audioContextRef (Some st))) ;;;
        (* the tick sound *)
        (tick <~ read tickBufferRef ;;
         ctx <~ read audioContextRef ;;
         if negb (is_some tick) && is_some ctx then
           response <~ await (fetch env "/tick.mp3") ;;
           data <~ await (arrayBuffer env response) ;;
           decoded <~ await (decodeAudioData env data) ;;
           update (set_tickBufferRef (Some decoded))
         else ret tt) ;;;
        (* the background music *)
        (music <~ read bgMusicBufferRef ;;
         ctx <~ read audioContextRef ;;
         if negb (is_some music) && is_some ctx then
           try_catch
             (response <~ await (fetch env "/bg.mp3") ;;
              data <~ await (arrayBuffer env response) ;;
              decoded <~ await (decodeAudioData env data) ;;
              update (set_bgMusicBufferRef (Some decoded)))
             (ret tt)
         else ret tt) ;;;
        update (set_audioReady true) )
      (update (set_audioReady true)).

(** The gain node and the looping voice that [startAudio] and [toggleMute]
    create. *)
Definition createMusicVoice (isMobile : bool) (buf : AudioBuffer)
    : Exec unit :=
  update (set_bgMusicGainRef (Some (getBgMusicVolume isMobile))) ;;;
  update (set_bgMusicRef (Some (mkVoice buf true MIDDLE_PLAYBACK_RATE))).

(** [startAudio]; the request for the motion permission, which touches no
    audio state, is left out. *)
Definition startAudio (env : Env) (isMobile : bool) : Exec unit :=
  started <~ read audioStarted ;;
  if started then ret tt
  else
    try_catch
      ( (ctx <~ read audioContextRef ;;
         match ctx with
         | Some Suspended =>
             await (resume env) ;;;
             update (set_audioContextRef (Some Running)) ;;;
             gain <~ read bgMusicGainRef ;;
             muted <~ read isMutedRef ;;
             if is_some gain && negb muted
             then update (set_bgMusicGainRef
                            (Some (getBgMusicVolume isMobile)))
             else ret tt
         | _ => ret tt
         end) ;;;
        (muted <~ read isMutedRef ;;
         ctx <~ read audioContextRef ;;
         buf <~ read bgMusicBufferRef ;;
         voice <~ read bgMusicRef ;;
         match buf with
         | Some b =>
             if negb muted && is_some ctx && negb (is_some voice)
             then createMusicVoice isMobile b
             else ret tt
         | None => ret tt
         end) ;;;
        update (set_audioStarted true) )
      (ret tt).

Definition toggleMute (isMobile : bool) : Exec unit :=
  prev <~ read isMutedRef ;;
  let newMuted := negb prev in
  update (set_isMutedRef newMuted) ;;;
  (gain <~ read bgMusicGainRef ;;
   if is_some gain
   then update (set_bgMusicGainRef
                  (Some (if newMuted then 0 else getBgMusicVolume isMobile)))
   else ret tt) ;;;
  (voice <~ read bgMusicRef ;;
   ctx <~ read audioContextRef ;;
   buf <~ read bgMusicBufferRef ;;
   match buf with
   | Some b =>
       if negb (newMuted || is_some voice) && is_some ctx
       then createMusicVoice isMobile b
       else ret tt
   | None => ret tt
   end).

(** The zoom exponent brought into the declared range. *)
Definition normalizeZoom (zoomExponent : R) (zoomRange : ZoomRange) : R :=
  if JsNum.eqb (range_max zoomRange) (range_min zoomRange) then 5 / 10
  else (zoomExponent - range_min zoomRange)
       / (range_max zoomRange - range_min zoomRange).

(** The quadratic from the normalised zoom to the playback rate. *)
Definition rateOf (normalized : R) : R :=
  QUADRATIC_A * normalized * normalized + QUADRATIC_B * normalized
  + MIN_PLAYBACK_RATE.

Definition updatePlaybackRate (zoomExponent : R) (zoomRange : ZoomRange)
    : Exec unit :=
  update (set_zoomRangeRef (Some zoomRange)) ;;;
  voice <~ read bgMusicRef ;;
  muted <~ read isMutedRef ;;
  match voice with
  | Some v =>
      if muted then ret tt
      else
        let normalized := normalizeZoom zoomExponent zoomRange in
        let playbackRate := rateOf normalized in
        update (set_bgMusicRef
                  (Some (mkVoice (voice_buffer v) (voice_loop v)
                           playbackRate)))
  | None => ret tt
  end.

(** The state an operation leaves. *)
Definition run (m : Exec unit) (s : AudioState) : AudioState := fst (m s).

(** The refs and flags when the component mounts. *)
Definition mounted : AudioState :=
  {| audioContextRef := None;
     tickBufferRef := None;
     bgMusicBufferRef := None;
     bgMusicRef := None;
     bgMusicGainRef := None;
     isMutedRef := false;
     zoomRangeRef := None;
     audioReady := false;
     audioStarted := false |}.

(** [try ... catch] around code that yields a value. *)
Definition try_catch_value {A} (m handler : Exec A) : Exec A :=
  fun s =>
    match m s with
    | (s1, Some a) => (s1, Some a)
    | (s1, None) => handler s1
    end.

(** [playTick]; the value tells whether a buffer source was started, at
    full volume, on the tick buffer. *)
Definition playTick (env : Env) (isMobile : bool) : Exec bool :=
  ctx <~ read audioContextRef ;;
  tick <~ read tickBufferRef ;;
  muted <~ read isMutedRef ;;
  match ctx, tick with
  | Some st, Some _ =>
      if muted then ret false
      else
        try_catch_value
          ( (match st with
             | Suspended =>
                 await (resume env) ;;;
                 update (set_audioContextRef (Some Running)) ;;;
                 gain <~ read bgMusicGainRef ;;
                 stillMuted <~ read isMutedRef ;;
                 if is_some gain && negb stillMuted
                 then update (set_bgMusicGainRef
                                (Some (getBgMusicVolume isMobile)))
                 else ret tt
             | _ => ret tt
             end) ;;;
            now <~ read audioContextRef ;;
            match now with
            | Some Running => ret true
            | _ => ret false
            end )
          (ret false)
  | _, _ => ret false
  end.

(** The cleanup on unmount: the voice is stopped and the context closed. *)
Definition unmount : Exec unit :=
  (voice <~ read bgMusicRef ;;
   if is_some voice then update (set_bgMusicRef None) else ret tt) ;;;
  (ctx <~ read audioContextRef ;;
   if is_some ctx then update (set_audioContextRef None) else ret tt).

(** What the requests for one asset yield: the response, its bytes, the
    decoded buffer, or nothing when one of the three fails. *)
Definition loaded (env : Env) (url : string) : option AudioBuffer :=
  match fetch env url with
  | Some response =>
      match arrayBuffer env response with
      | Some data => decodeAudioData env data
      | None => None
      end
  | None => None
  end.

(** The operations on the engine, each with the browser it meets. *)
Inductive Op :=
| OpInitialize (env : Env)
| OpStart (env : Env)
| OpToggleMute
| OpUpdateRate (zoomExponent : R) (zoomRange : ZoomRange)
| OpPlayTick (env : Env).

Definition perform (isMobile : bool) (op : Op) (s : AudioState)
    : AudioState :=
  match op with
  | OpInitialize env => run (initializeAudio env) s
  | OpStart env => run (startAudio env isMobile) s
  | OpToggleMute => run (toggleMute isMobile) s
  | OpUpdateRate z range => run (updatePlaybackRate z range) s
  | OpPlayTick env => fst (playTick env isMobile s)
  end.

(** The states of the engine between mount and unmount. *)
Inductive arises (isMobile : bool) : AudioState -> Prop :=
| arises_mounted : arises isMobile mounted
| arises_perform op s :
    arises isMobile s -> arises isMobile (perform isMobile op s).

(** What holds of the engine in all these states. *)
Definition engineInv (isMobile : bool) (s : AudioState) : Prop :=
  (forall g, bgMusicGainRef s = Some g ->
     g = if isMutedRef s then 0 else getBgMusicVolume isMobile)
  /\ (forall v, bgMusicRef s = Some v ->
        bgMusicBufferRef s = Some (voice_buffer v)
        /\ voice_loop v = true
        /\ bgMusicGainRef s <> None
        /\ audioContextRef s <> None)
  /\ (tickBufferRef s <> None -> audioContextRef s <> None)
  /\ (bgMusicBufferRef s <> None -> audioContextRef s <> None).

End Audio.

(** ** The component *)

Section Component.

Import JsNum.

(** The props of the component, and the centre of the ring's bounding box
    ([None] while [ringRef] is not attached). *)
Variable imageSets : list ImageSet.
Variable initialSet : option string.
Variable ringCenter : option (R * R).

Definition itemCount : Z := Z.of_nat (List.length imageSets).

(** [imageSets[i]], which is [undefined] outside the array. *)
Definition item_at (i : Z) : option ImageSet :=
  if (i <? 0)%Z then None else nth_error imageSets (Z.to_nat i).

Definition resolveInitialSet : string :=
  let first :=
    match nth_error imageSets 0 with
    | Some set => name set
    | None => EmptyString
    end in
  match initialSet with
  | Some init =>
      if truthy init then
        match find (fun set => String.eqb (name set) init) imageSets with
        | Some m => name m
        | None => first
        end
      else first
  | None => first
  end.

Definition initialIndex : Z :=
  let idx :=
    findIndex_from (fun set => String.eqb (name set) resolveInitialSet)
      imageSets 0 in
  if (0 <=? idx)%Z then idx else 0%Z.

Definition anglePerItem : R :=
  if (0 <? itemCount)%Z then 2 * PI / IZR itemCount else 0.

Definition anglePerClick : R := 2 * PI / IZR CLICKS_PER_FULL_CIRCLE.

(** *** Tick synchroniser *)

(** The click index of a rotation, as [checkAndPlayTick] computes it. *)
Definition clickIndexOf (rotation : R) : Z :=
  let offsetRotation := rotation - PI / 2 in
  let normalizedRotation := wrap offsetRotation (2 * PI) in
  js_floor (normalizedRotation / anglePerClick).

(** [playTick] is counted, not played: whether a sound comes out depends on
    the audio context, the buffer and the mute flag. *)
Definition playTick (s : State) : State := set_tickCalls (S (tickCalls s)) s.

Definition checkAndPlayTick (rotation : R) (s : State) : State :=
  let currentClickIndex := clickIndexOf rotation in
  let s1 :=
    match lastClickIndexRef s with
    | Some prevIndex =>
        if Z.eqb currentClickIndex prevIndex then s else playTick s
    | None => s
    end in
  set_lastClickIndexRef (Some currentClickIndex) s1.

(** *** Selected index *)

(** The body shared by [selectedIndex] and [finalSelectedIndex]: the index
    of the item at the bottom for a rotation. *)
Definition indexAtBottom (rotation : R) : option Z :=
  if (itemCount =? 0)%Z then Some 0%Z
  else
    let normalizedRotation := wrap rotation (2 * PI) in
    q <- div_checked normalizedRotation anglePerItem ;;
    let rawIndex := js_round q in
    r <- zrem_checked rawIndex itemCount ;;
    zrem_checked (r + itemCount) itemCount.

Definition selectedIndex (s : State) : option Z :=
  indexAtBottom (ringRotation s).

Definition finalSelectedIndex (s : State) : option Z :=
  indexAtBottom (targetRotation s).

(** *** Rotation: easing and snapping *)

(** One frame of the animation loop. *)
Definition animate (s : State) : State :=
  let prev := ringRotation s in
  let diff := targetRotation s - prev in
  let newRotation :=
    if ltb (Rabs diff) (1 / 1000) then targetRotation s
    else prev + diff * ROTATION_EASING in
  checkAndPlayTick newRotation (set_ringRotation newRotation s).

(** The multiple of [anglePerItem] nearest to a rotation. *)
Definition nearestItemAngle (rotation : R) : option R :=
  q <- div_checked rotation anglePerItem ;;
  let nearestIndex := js_round q in
  Some (IZR nearestIndex * anglePerItem).

(** The effect that snaps the target while no drag is in progress. *)
Definition effSnap (s : State) : State :=
  if negb (isDragging s) && (0 <? itemCount)%Z then
    match nearestItemAngle (targetRotation s) with
    | Some snappedRotation =>
        if gtb (Rabs (targetRotation s - snappedRotation))
               (SNAP_THRESHOLD * anglePerItem)
        then set_targetRotation snappedRotation s
        else s
    | None => s
    end
  else s.

Definition getPointerAngle (clientX clientY : R) : R :=
  match ringCenter with
  | None => 0
  | Some (centerX, centerY) => atan2 (clientY - centerY) (clientX - centerX)
  end.

(** *** Dial visibility *)

Definition isDialVisible (s : State) : bool :=
  isHovered s || isSelectedCircleHovered s || showRingAfterStart s.

Definition hideRingAfterDelay (s : State) : State :=
  if negb (FadePhase_eqb (fadePhase s) Idle) then s
  else set_audioStartTimeoutRef true s.

(** The callback of the hide timer; the [fadePhase] it tests is the one of
    the render that armed it, which was [Idle]. *)
Definition hideTimerFire (s : State) : State :=
  set_audioStartTimeoutRef false (set_showRingAfterStart false s).

(** [hoverTimeoutRef] is cleared here too, but nothing ever arms it. *)
Definition handleDialEnter (s : State) : State :=
  set_audioStartTimeoutRef false s.

Definition handlePointerEnter (s : State) : State :=
  set_isHovered true (set_showRingAfterStart true (handleDialEnter s)).

Definition handlePointerLeave (s : State) : State :=
  if negb (isDragging s) then hideRingAfterDelay (set_isHovered false s)
  else s.

Definition handleSelectedCircleEnter (s : State) : State :=
  set_isSelectedCircleHovered true
    (set_showRingAfterStart true (handleDialEnter s)).

Definition handleSelectedCircleLeave (s : State) : State :=
  if negb (isDragging s) then
    hideRingAfterDelay (set_isSelectedCircleHovered false s)
  else s.

(** *** Gestures *)

Definition handlePointerDown (clientX clientY : R) (isSelectedButton : bool)
    (buttonIndex : option Z) (s : State) : option State :=
  if negb (audioStarted s) || negb (FadePhase_eqb (fadePhase s) Idle)
  then Some s
  else if negb isSelectedButton && negb (isDialVisible s) then Some s
  else
    let s1 :=
      if isSelectedButton
      then set_isHovered true (set_showRingAfterStart true s)
      else s in
    let s2 :=
      match buttonIndex with
      | Some index =>
          set_clickStartRef (Some (mkClickStart clientX clientY index)) s1
      | None => s1
      end in
    let s3 := set_isDragging true s2 in
    let lastAngle := getPointerAngle clientX clientY in
    let s4 := set_dragStartRef (Some lastAngle) s3 in
    (* the index is read from the render that created the handler *)
    index <- selectedIndex s ;;
    Some (set_dragStartIndexRef (Some index) s4).

(** The distance of the pointer from where the gesture started. *)
Definition displacement (start : ClickStart) (clientX clientY : R) : R :=
  let dx := clientX - cs_x start in
  let dy := clientY - cs_y start in
  sqrt (dx * dx + dy * dy).

Definition handlePointerMove (clientX clientY : R) (s : State) : State :=
  match isDragging s, dragStartRef s with
  | true, Some lastAngle =>
      let s1 :=
        match clickStartRef s with
        | Some start =>
            let distance := displacement start clientX clientY in
            if gtb distance 5 then set_clickStartRef None s else s
        | None => s
        end in
      let currentAngle := getPointerAngle clientX clientY in
      let delta := currentAngle - lastAngle in
      let delta := if gtb delta PI then delta - 2 * PI else delta in
      let delta := if ltb delta (- PI) then delta + 2 * PI else delta in
      let s2 := set_dragStartRef (Some currentAngle) s1 in
      set_targetRotation (targetRotation s - delta) s2
  | _, _ => s
  end.

(** The shortest way round from the current target to the angle of the
    clicked item. *)
Definition shortestPath (target : R) (clickedIndex : Z) : R :=
  let targetRotationForIndex := IZR clickedIndex * anglePerItem in
  let currentNormalized := wrap target (2 * PI) in
  let targetNormalized := wrap targetRotationForIndex (2 * PI) in
  let diff := targetNormalized - currentNormalized in
  if gtb diff PI then diff - 2 * PI
  else if ltb diff (- PI) then diff + 2 * PI
  else diff.

(** The rotation applied by a click: the shortest way, and the positive
    half turn when the shortest way is a half turn. *)
Definition clickDiff (target : R) (clickedIndex : Z) : R :=
  let diff := shortestPath target clickedIndex in
  if ltb (Rabs (Rabs diff - PI)) (1 / 1000) then PI else diff.

Definition handlePointerUp (s : State) : option State :=
  if negb (isDragging s) then Some s
  else
    s1 <-
      match clickStartRef s, isDialVisible s with
      | Some start, true =>
          let finalTarget :=
            targetRotation s + clickDiff (targetRotation s) (cs_index start) in
          Some (set_clickStartRef None (set_targetRotation finalTarget s))
      | _, _ =>
          snappedRotation <- nearestItemAngle (targetRotation s) ;;
          Some (set_targetRotation snappedRotation s)
      end ;;
    Some (set_clickStartRef None
            (set_dragStartRef None (set_isDragging false s1))).

Definition handleWheel (deltaY : R) (s : State) : State :=
  if negb (audioStarted s) || negb (FadePhase_eqb (fadePhase s) Idle) then s
  else set_targetRotation (targetRotation s + deltaY * (3 / 1000)) s.

(** *** Fade state machine *)

(** [setFadePhase]: a change of the phase re-renders, and the cleanup of the
    fade effect clears the timer it had armed. *)
Definition setFadePhase (p : FadePhase) (s : State) : State :=
  if FadePhase_eqb (fadePhase s) p then s
  else set_phaseTimerArmed false (set_fadePhase p s).

(** [setPendingSet], a dependency of the fade effect as well. *)
Definition setPendingSet (p : option string) (s : State) : State :=
  set_phaseTimerArmed false (set_pendingSet p s).

(** [setActiveSet]: a change makes the highlight effect due. *)
Definition setActiveSet (n : string) (s : State) : State :=
  if String.eqb n (activeSet s) then s
  else set_highlightEffectDue true (set_activeSet n s).

Definition startTransition (target : string) (s : State) : State :=
  if negb (FadePhase_eqb (fadePhase s) Idle) || String.eqb target (activeSet s)
  then s
  else
    set_loadingEffectDue true
      (setFadePhase Loading
         (set_revealReady false
            (set_highlightSet target (setPendingSet (Some target) s)))).

Definition rotationSettleThreshold (s : State) : R :=
  if isMobile s then 2 / 100 else 1 / 100.

Definition isRotationSettled (s : State) : bool :=
  let diff := Rabs (targetRotation s - ringRotation s) in
  let normalizedDiff := Rmin diff (2 * PI - diff) in
  ltb normalizedDiff (rotationSettleThreshold s).

(** [((i % length) + length) % length] *)
Definition normalizeIndex (i : Z) : option Z :=
  r <- zrem_checked i itemCount ;;
  zrem_checked (r + itemCount) itemCount.

(** The effect that triggers a transition when the selected item changes. *)
Definition effTransition (s : State) : State :=
  if isDragging s then s
  else
    match dragStartIndexRef s with
    | Some startIndex =>
        if negb (isRotationSettled s) then s
        else
          let normalizedStartIndex := normalizeIndex startIndex in
          let normalizedFinalIndex :=
            i <- finalSelectedIndex s ;; normalizeIndex i in
          if strict_eq normalizedStartIndex normalizedFinalIndex
          then set_dragStartIndexRef None s
          else
            match (i <- finalSelectedIndex s ;; item_at i) with
            | Some selectedSet =>
                if negb (String.eqb (name selectedSet) (highlightSet s))
                then
                  startTransition (name selectedSet)
                    (set_dragStartIndexRef None s)
                else s
            | None => s
            end
    | None =>
        match (i <- selectedIndex s ;; item_at i) with
        | Some selectedSet =>
            if negb (String.eqb (name selectedSet) (highlightSet s))
            then startTransition (name selectedSet) s
            else s
        | None => s
        end
    end.

(** The effect on [fadePhase] and [pendingSet]: it swaps the sets on
    entering [Holding] and arms the timer of the phase. *)
Definition effFade (s : State) : State :=
  match fadePhase s with
  | FadingToBlack => set_phaseTimerArmed true s
  | Holding =>
      let s1 :=
        match pendingSet s with
        | Some p =>
            if truthy p then setPendingSet None (setActiveSet p s) else s
        | None => s
        end in
      set_phaseTimerArmed true s1
  | FadingOut => set_phaseTimerArmed true s
  | _ => set_phaseTimerArmed false s
  end.

(** The callback of the timer armed by [effFade]. *)
Definition fadeTimerFire (s : State) : State :=
  match fadePhase s with
  | FadingToBlack => setFadePhase Holding s
  | Holding => setFadePhase FadingOut s
  | FadingOut => set_revealReady false (setFadePhase Idle s)
  | _ => s
  end.

(** The effect of the loading phase: it hides the dial and starts the
    preload of the pending set. *)
Definition effLoading (s : State) : State :=
  let s0 := set_loadingEffectDue false s in
  match fadePhase s, pendingSet s with
  | Loading, Some p =>
      if truthy p then
        set_preloadsInFlight (S (preloadsInFlight s))
          (set_audioStartTimeoutRef false
             (set_showRingAfterStart false
                (set_isSelectedCircleHovered false
                   (set_isHovered false s0))))
      else s0
  | _, _ => s0
  end.

(** The continuation of a preload promise. *)
Definition preloadDone (s : State) : State :=
  setFadePhase FadingToBlack
    (set_revealReady true
       (set_preloadsInFlight (Nat.pred (preloadsInFlight s)) s)).

(** The effect that resets the component when the active set is not among
    the image sets. *)
Definition effActiveExists (s : State) : State :=
  if (itemCount =? 0)%Z then s
  else if existsb (fun set => String.eqb (name set) (activeSet s)) imageSets
  then s
  else setFadePhase Idle (setActiveSet resolveInitialSet s).

(** The effect that follows [activeSet] with the highlight. *)
Definition effHighlight (s : State) : State :=
  set_highlightEffectDue false (set_highlightSet (activeSet s) s).

(** *** Events and steps

    The component is run as a transition system.  An event is a pointer or
    wheel handler, a frame of the animation loop, a timer callback, the
    continuation of a preload, or one run of an effect; each runs to its end
    on the state the last render committed.  The props do not change.  An
    effect whose body depends on when it runs is due only after one of its
    dependencies changed (ghost flags); the others may run at any time. *)

Inductive Event :=
| PointerDown (clientX clientY : R) (index : Z)
| PointerMove (clientX clientY : R)
| PointerUp
| Wheel (deltaY : R)
| DialEnter
| DialLeave
| SelectedCircleEnter
| SelectedCircleLeave
| ItemEnter (index : Z)
| HideTimer
| AudioStarted
| Frame
| EffSnap
| EffTransition
| EffFade
| FadeTimer
| EffLoading
| PreloadDone
| EffActiveExists
| EffHighlight.

(** The render attaches [onPointerDown] to an item only while it is
    draggable. *)
Definition isAtBottom (index : Z) (s : State) : bool :=
  strict_eq (Some index) (selectedIndex s).

Definition groupVisible (s : State) : bool :=
  audioStarted s && FadePhase_eqb (fadePhase s) Idle && isDialVisible s.

Definition isDraggable (index : Z) (s : State) : bool :=
  if audioStarted s && FadePhase_eqb (fadePhase s) Idle then
    isAtBottom index s
    || (groupVisible s
        && ((audioStarted s && isAtBottom index s) || groupVisible s))
  else false.

(** When an event can occur: the handler is attached by the current render,
    the timer is armed, the effect is due, the promise is in flight. *)
Definition enabled (e : Event) (s : State) : bool :=
  match e with
  | PointerDown _ _ index =>
      (0 <=? index)%Z && (index <? itemCount)%Z && isDraggable index s
  | PointerMove _ _ | PointerUp => true
  | Wheel _ => groupVisible s
  | DialEnter | DialLeave => audioStarted s
  | SelectedCircleEnter | SelectedCircleLeave =>
      audioStarted s && FadePhase_eqb (fadePhase s) Idle
  | ItemEnter index =>
      audioStarted s && isAtBottom index s
      && FadePhase_eqb (fadePhase s) Idle
  | HideTimer => audioStartTimeoutRef s
  | AudioStarted => negb (audioStarted s)
  | Frame | EffSnap | EffTransition | EffFade | EffActiveExists => true
  | FadeTimer => phaseTimerArmed s
  | EffLoading => loadingEffectDue s
  | PreloadDone => (0 <? preloadsInFlight s)%nat
  | EffHighlight => highlightEffectDue s
  end.

Definition handle (e : Event) (s : State) : option State :=
  match e with
  | PointerDown x y index =>
      handlePointerDown x y (isAtBottom index s) (Some index) s
  | PointerMove x y => Some (handlePointerMove x y s)
  | PointerUp => handlePointerUp s
  | Wheel deltaY => Some (handleWheel deltaY s)
  | DialEnter => Some (handleDialEnter s)
  | DialLeave => Some (handlePointerLeave s)
  | SelectedCircleEnter => Some (handleSelectedCircleEnter s)
  | SelectedCircleLeave => Some (handleSelectedCircleLeave s)
  | ItemEnter _ => Some (handlePointerEnter s)
  | HideTimer => Some (hideTimerFire s)
  | AudioStarted => Some (set_audioStarted true s)
  | Frame => Some (animate s)
  | EffSnap => Some (effSnap s)
  | EffTransition => Some (effTransition s)
  | EffFade => Some (effFade s)
  | FadeTimer => Some (fadeTimerFire s)
  | EffLoading => Some (effLoading s)
  | PreloadDone => Some (preloadDone s)
  | EffActiveExists => Some (effActiveExists s)
  | EffHighlight => Some (effHighlight s)
  end.

Inductive step (s s' : State) : Prop :=
| step_event (e : Event) :
    enabled e s = true -> handle e s = Some s' -> step s s'.

(** The state once the component is mounted and its initialising effects
    have run, on a device that is or is not a mobile one. *)
Definition initialState (mobile : bool) : State :=
  let initialRotation := IZR initialIndex * anglePerItem in
  {| activeSet := resolveInitialSet;
     pendingSet := None;
     fadePhase := Idle;
     highlightSet := resolveInitialSet;
     revealReady := false;
     isMobile := mobile;
     audioStarted := false;
     ringRotation := initialRotation;
     targetRotation := initialRotation;
     isDragging := false;
     isHovered := false;
     isSelectedCircleHovered := false;
     showRingAfterStart := false;
     dragStartRef := None;
     dragStartIndexRef := None;
     clickStartRef := None;
     lastClickIndexRef := Some (clickIndexOf initialRotation);
     audioStartTimeoutRef := false;
     tickCalls := 0;
     phaseTimerArmed := false;
     loadingEffectDue := false;
     preloadsInFlight := 0;
     highlightEffectDue := false |}.

Inductive reachable : State -> Prop :=
| reachable_init mobile : reachable (initialState mobile)
| reachable_step s s' : reachable s -> step s s' -> reachable s'.


(** The pointer moves of one gesture, in order. *)
Definition feedMoves (moves : list (R * R)) (s : State) : State :=
  fold_left (fun acc m => handlePointerMove (fst m) (snd m) acc) moves s.




Fixpoint falls (a : R) (rotations : list R) : Prop :=
  match rotations with
  | [] => True
  | r :: rest => r <= a /\ falls r rest
  end.



(** *** Views and invariants of the fade machine *)

(** What the fade machine reads and writes. *)
Definition fadeView (s : State)
    : FadePhase * option string * string * nat * bool * bool :=
  (fadePhase s, pendingSet s, activeSet s, preloadsInFlight s,
   loadingEffectDue s, phaseTimerArmed s).

(** The events of the fade machine itself. *)
Definition fadeEvent (e : Event) : bool :=
  match e with
  | EffTransition | EffFade | FadeTimer | EffLoading | PreloadDone
  | EffActiveExists => true
  | _ => false
  end.

(** A name carried by one of the image sets. *)
Definition isItemName (n : string) : Prop :=
  existsb (fun set => String.eqb (name set) n) imageSets = true.

(** What holds of the fade machine in every phase. *)
Definition fadeInv (s : State) : Prop :=
  ((0 < itemCount)%Z -> isItemName (activeSet s))
  /\ match fadePhase s with
     | Idle =>
         pendingSet s = None /\ preloadsInFlight s = 0%nat
         /\ loadingEffectDue s = false /\ phaseTimerArmed s = false
     | Loading =>
         (exists p, pendingSet s = Some p /\ isItemName p
                    /\ (preloadsInFlight s = 1%nat -> truthy p = true))
         /\ phaseTimerArmed s = false
         /\ ((loadingEffectDue s = true /\ preloadsInFlight s = 0%nat)
             \/ (loadingEffectDue s = false
                 /\ (preloadsInFlight s <= 1)%nat))
     | FadingToBlack =>
         (exists p, pendingSet s = Some p /\ isItemName p
                    /\ truthy p = true)
         /\ preloadsInFlight s = 0%nat /\ loadingEffectDue s = false
     | Holding =>
         ((exists p, pendingSet s = Some p /\ isItemName p
                     /\ truthy p = true /\ phaseTimerArmed s = false)
          \/ pendingSet s = None)
         /\ preloadsInFlight s = 0%nat /\ loadingEffectDue s = false
     | FadingOut =>
         pendingSet s = None /\ preloadsInFlight s = 0%nat
         /\ loadingEffectDue s = false
     end.

(** One step of the fade machine: nothing of it changes, or a transition
    starts, or the preload ends, or a timer moves to the next phase, or the
    pending set becomes the active set during [Holding]. *)
Inductive fadeMove (s s' : State) : Prop :=
| fm_none :
    fadePhase s' = fadePhase s -> pendingSet s' = pendingSet s ->
    activeSet s' = activeSet s -> fadeMove s s'
| fm_start target :
    fadePhase s = Idle -> fadePhase s' = Loading ->
    pendingSet s = None -> pendingSet s' = Some target ->
    target <> activeSet s -> activeSet s' = activeSet s -> fadeMove s s'
| fm_loaded :
    fadePhase s = Loading -> fadePhase s' = FadingToBlack ->
    pendingSet s' = pendingSet s -> activeSet s' = activeSet s ->
    fadeMove s s'
| fm_timer :
    (fadePhase s = FadingToBlack /\ fadePhase s' = Holding
     \/ fadePhase s = Holding /\ fadePhase s' = FadingOut
     \/ fadePhase s = FadingOut /\ fadePhase s' = Idle) ->
    pendingSet s' = pendingSet s -> activeSet s' = activeSet s ->
    fadeMove s s'
| fm_swap p :
    fadePhase s = Holding -> fadePhase s' = Holding ->
    pendingSet s = Some p -> pendingSet s' = None -> activeSet s' = p ->
    fadeMove s s'.

(** A run of the component: the states reached, step after step. *)
Fixpoint isRun (s : State) (run : list State) : Prop :=
  match run with
  | [] => True
  | s' :: rest => step s s' /\ isRun s' rest
  end.

Fixpoint lastOf (s : State) (run : list State) : State :=
  match run with
  | [] => s
  | s' :: rest => lastOf s' rest
  end.




(** *** Layout of the ring *)

Definition BUTTON_RADIUS : R := 30.
Definition INNER_RADIUS : R := 65.
Definition BUTTON_CIRCLE_RADIUS : R := INNER_RADIUS + BUTTON_RADIUS.

(** Where the render puts item [index] in the ring container. *)
Definition itemAngle (index : Z) : R := IZR index * anglePerItem + PI / 2.

Definition itemX (index : Z) : R :=
  cos (itemAngle index) * BUTTON_CIRCLE_RADIUS.

Definition itemY (index : Z) : R :=
  sin (itemAngle index) * BUTTON_CIRCLE_RADIUS.

(** The CSS transform [rotate(theta rad)] about the centre, the [y] axis
    pointing down. *)
Definition cssRotate (theta : R) (p : R * R) : R * R :=
  (fst p * cos theta - snd p * sin theta,
   fst p * sin theta + snd p * cos theta).

(** Where item [index] is drawn, from the centre of the ring: the container
    is rotated by [- ringRotation]. *)
Definition itemOnScreen (index : Z) (s : State) : R * R :=
  cssRotate (- ringRotation s) (itemX index, itemY index).

(** The slot of the selected item, at the bottom of the ring. *)
Definition slotPosition : R * R := (0, BUTTON_CIRCLE_RADIUS).

(** *** The canvas *)

Definition activeImages (s : State) : list string :=
  if (itemCount =? 0)%Z then []
  else
    match find (fun set => String.eqb (name set) (activeSet s)) imageSets with
    | Some selected => images selected
    | None =>
        match nth_error imageSets 0 with
        | Some first => images first
        | None => []
        end
    end.

Definition getCanvasOpacity (s : State) : R :=
  match fadePhase s with
  | Idle | Loading => 1
  | FadingToBlack => 0
  | Holding => 0
  | FadingOut => 1
  end.

Definition getTransitionDuration (s : State) : Z :=
  match fadePhase s with
  | FadingToBlack => FADE_TO_BLACK_DURATION_MS
  | Holding => 0
  | FadingOut => FADE_OUT_DURATION_MS
  | _ => 0
  end.

(** *** More views and invariants *)

(** The dial is out of the way: hidden, with no hide timer pending. *)
Definition dialQuiet (s : State) : Prop :=
  isDialVisible s = false /\ audioStartTimeoutRef s = false.

(** What holds of the dial while a transition runs. *)
Definition dialInv (s : State) : Prop :=
  (fadePhase s <> Idle -> isDragging s = false)
  /\ match fadePhase s with
     | Idle => True
     | Loading => preloadsInFlight s = 1%nat -> dialQuiet s
     | _ => dialQuiet s
     end.

(** Once the loading effect has run on a set with a name, its preload is in
    flight. *)
Definition loadInv (s : State) : Prop :=
  fadePhase s = Loading ->
  loadingEffectDue s = false ->
  forall p, pendingSet s = Some p -> truthy p = true ->
  preloadsInFlight s = 1%nat.

(** The events that one transition takes from the loading phase back to
    idle when nothing else happens in between. *)
Definition transitionEvents : list Event :=
  [EffLoading; PreloadDone; EffFade; FadeTimer; EffFade; FadeTimer; EffFade;
   FadeTimer].

(** The states a list of events leads through, as long as each event is
    enabled and handled. *)
Fixpoint runEvents (events : list Event) (s : State) : option (list State) :=
  match events with
  | [] => Some []
  | e :: rest =>
      if enabled e s then
        s' <- handle e s ;;
        run <- runEvents rest s' ;;
        Some (s' :: run)
      else None
  end.

(** A wheel event that carries the target one item angle ahead of where
    the next frame, [ROTATION_EASING] of the way, will put the ring. *)
Definition wheelOneItem : R := anglePerItem / ROTATION_EASING / (3 / 1000).

(** The component started, the slot hovered and the wheel turned by
    [wheelOneItem], after one frame and one run of the transition effect. *)
Definition spunOneItem (mobile : bool) : State :=
  effTransition
    (animate
       (handleWheel wheelOneItem
          (handleSelectedCircleEnter
             (set_audioStarted true (initialState mobile))))).

(** The angles of the pointer over the moves of a gesture. *)
Definition lastAngleOf (a0 : R) (moves : list (R * R)) : R :=
  fold_left (fun _ m => getPointerAngle (fst m) (snd m)) moves a0.

End Component.

(** ** The device motion listener *)

Module Motion.

Inductive PermissionState :=
| Checking | NeedsPermission | Granted | Denied | Unavailable.

(** The smoothed tilt kept by the motion listener, and the three states it
    feeds. *)
Record MotionState := mkMotionState {
  smoothedDegrees : option R;
  rawOrientation : option R;
  orientation : option Z;
  permissionState : PermissionState
}.

Definition smoothingFactor : R := 5 / 100.

(** The state once the effect that installs the listener has run. *)
Definition mounted (hasPermissionAPI mobile : bool) : MotionState :=
  {| smoothedDegrees := None;
     rawOrientation := None;
     orientation := None;
     permissionState :=
       if hasPermissionAPI && mobile then NeedsPermission else Granted |}.

(** [handleMotion]; the reading is [event.accelerationIncludingGravity],
    which may be null and whose [x] and [y] may be null. *)
Definition handleMotion (hasPermissionAPI : bool)
    (accel : option (option R * option R)) (s : MotionState) : MotionState :=
  match accel with
  | Some (Some x, Some y) =>
      let radians := atan2 x (- y) in
      let degrees := radians * (180 / PI) in
      let smoothed :=
        match smoothedDegrees s with
        | None => degrees
        | Some previous =>
            previous * (1 - smoothingFactor) + degrees * smoothingFactor
        end in
      let rotationClamped := Rmax (- 90) (Rmin 90 smoothed) in
      let clamped := Rmax (- 60) (Rmin 60 smoothed) in
      {| smoothedDegrees := Some smoothed;
         rawOrientation := Some rotationClamped;
         orientation := Some (JsNum.js_round clamped);
         permissionState :=
           if hasPermissionAPI then Granted else permissionState s |}
  | _ => s
  end.

(** The readings of successive [devicemotion] events. *)
Definition feedMotion (hasPermissionAPI : bool)
    (readings : list (option (option R * option R))) (s : MotionState)
    : MotionState :=
  fold_left (fun acc accel => handleMotion hasPermissionAPI accel acc)
    readings s.

(** What holds of the three values after any readings. *)
Definition motionInv (s : MotionState) : Prop :=
  match smoothedDegrees s with
  | None => rawOrientation s = None /\ orientation s = None
  | Some smoothed =>
      - 180 <= smoothed <= 180
      /\ rawOrientation s = Some (Rmax (- 90) (Rmin 90 smoothed))
      /\ orientation s
         = Some (JsNum.js_round (Rmax (- 60) (Rmin 60 smoothed)))
  end.

End Motion.

(** ** The loading overlay and the two pages of its intro

    The overlay is modelled on its own: its state, the timeouts it sets
    and clears, and the events that reach it. *)

Module Intro.

Inductive IntroFade := FadeIdle | FadeOut | FadeIn.
Inductive AnimFade := AnimIn | AnimOut.

(** The callbacks handed to [window.setTimeout]. *)
Inductive Timer := ButtonDelay | StageTransition | FadeDone | MinLoading.

Definition Timer_eqb (a b : Timer) : bool :=
  match a, b with
  | ButtonDelay, ButtonDelay | StageTransition, StageTransition
  | FadeDone, FadeDone | MinLoading, MinLoading => true
  | _, _ => false
  end.

(** The state of the loading overlay and its two intro pages, with the
    timeouts that are pending, each under the id [setTimeout] gave it. *)
Record IntroState := mkIntroState {
  introStage : nat;
  introFade : IntroFade;
  animFade : AnimFade;
  buttonReady : bool;
  isInitialLoading : bool;
  minLoadingTimePassed : bool;
  dotCount : Z;
  audioReady : bool;
  audioStarted : bool;
  introButtonTimeoutRef : option nat;
  introTransitionTimeoutRef : option nat;
  timers : list (nat * Timer);
  nextTimerId : nat
}.

(** [window.setTimeout]: the callback is queued under a fresh id. *)
Definition setTimeout (callback : Timer) (s : IntroState)
    : nat * IntroState :=
  let id := nextTimerId s in
  (id,
   mkIntroState (introStage s) (introFade s) (animFade s) (buttonReady s)
     (isInitialLoading s) (minLoadingTimePassed s) (dotCount s)
     (audioReady s) (audioStarted s) (introButtonTimeoutRef s)
     (introTransitionTimeoutRef s) (timers s ++ [(id, callback)]) (S id)).

Definition withoutTimer (id : nat) (l : list (nat * Timer))
    : list (nat * Timer) :=
  filter (fun t => negb (Nat.eqb (fst t) id)) l.

(** [window.clearTimeout] *)
Definition clearTimeout (id : nat) (s : IntroState) : IntroState :=
  mkIntroState (introStage s) (introFade s) (animFade s) (buttonReady s)
    (isInitialLoading s) (minLoadingTimePassed s) (dotCount s)
    (audioReady s) (audioStarted s) (introButtonTimeoutRef s)
    (introTransitionTimeoutRef s) (withoutTimer id (timers s))
    (nextTimerId s).

Definition handleNextStage (s : IntroState) : IntroState :=
  if Nat.eqb (introStage s) 1 then s
  else
    let s1 :=
      match introButtonTimeoutRef s with
      | Some id => clearTimeout id s
      | None => s
      end in
    let (id, s2) := setTimeout StageTransition s1 in
    mkIntroState (introStage s2) FadeOut AnimOut false
      (isInitialLoading s2) (minLoadingTimePassed s2) (dotCount s2)
      (audioReady s2) (audioStarted s2) None (Some id) (timers s2)
      (nextTimerId s2).

(** What a timeout does when it fires. *)
Definition runTimer (callback : Timer) (s : IntroState) : IntroState :=
  match callback with
  | ButtonDelay =>
      mkIntroState (introStage s) (introFade s) (animFade s) true
        (isInitialLoading s) (minLoadingTimePassed s) (dotCount s)
        (audioReady s) (audioStarted s) (introButtonTimeoutRef s)
        (introTransitionTimeoutRef s) (timers s) (nextTimerId s)
  | StageTransition =>
      let (button, s1) := setTimeout ButtonDelay s in
      let (_, s2) := setTimeout FadeDone s1 in
      mkIntroState 1 FadeIn AnimIn (buttonReady s2)
        (isInitialLoading s2) (minLoadingTimePassed s2) (dotCount s2)
        (audioReady s2) (audioStarted s2) (Some button)
        (introTransitionTimeoutRef s2) (timers s2) (nextTimerId s2)
  | FadeDone =>
      mkIntroState (introStage s) FadeIdle (animFade s) (buttonReady s)
        (isInitialLoading s) (minLoadingTimePassed s) (dotCount s)
        (audioReady s) (audioStarted s) (introButtonTimeoutRef s)
        (introTransitionTimeoutRef s) (timers s) (nextTimerId s)
  | MinLoading =>
      mkIntroState (introStage s) (introFade s) (animFade s) (buttonReady s)
        (isInitialLoading s) true (dotCount s)
        (audioReady s) (audioStarted s) (introButtonTimeoutRef s)
        (introTransitionTimeoutRef s) (timers s) (nextTimerId s)
  end.

(** The step of the loading dots: 1, 2, 3, 1, ... *)
Definition nextDotCount (prev : Z) : Z :=
  if (3 <=? prev)%Z then 1%Z else (prev + 1)%Z.

Definition pendingTimer (id : nat) (s : IntroState) : option Timer :=
  match find (fun t => Nat.eqb (fst t) id) (timers s) with
  | Some t => Some (snd t)
  | None => None
  end.

(** The overlay is there until everything is loaded and the experience
    entered. *)
Definition stillLoading (s : IntroState) : bool :=
  isInitialLoading s || negb (minLoadingTimePassed s) || negb (audioReady s).

Definition overlayShown (s : IntroState) : bool :=
  stillLoading s || negb (audioStarted s).

Definition overlayOpacity (s : IntroState) : R :=
  if stillLoading s then 1 else if audioStarted s then 0 else 1.

Inductive Event :=
| TimerFire (id : nat)
| NextClick
| EnterClick (startAudioSucceeds : bool)
| CanvasReady
| AudioReady
| DotTick.

(** When an event can occur: the timeout is pending, the button is rendered
    with its handler, the interval of the dots is running. *)
Definition enabled (e : Event) (s : IntroState) : bool :=
  match e with
  | TimerFire id =>
      match pendingTimer id s with Some _ => true | None => false end
  | NextClick =>
      overlayShown s && Nat.eqb (introStage s) 0 && buttonReady s
  | EnterClick _ =>
      overlayShown s && negb (Nat.eqb (introStage s) 0)
      && negb (stillLoading s) && negb (audioStarted s) && buttonReady s
  | CanvasReady | AudioReady => true
  | DotTick => isInitialLoading s || negb (minLoadingTimePassed s)
  end.

Definition handle (e : Event) (s : IntroState) : IntroState :=
  match e with
  | TimerFire id =>
      match pendingTimer id s with
      | Some callback => runTimer callback (clearTimeout id s)
      | None => s
      end
  | NextClick => handleNextStage s
  | EnterClick ok =>
      if ok then
        mkIntroState (introStage s) (introFade s) (animFade s)
          (buttonReady s) (isInitialLoading s) (minLoadingTimePassed s)
          (dotCount s) (audioReady s) true (introButtonTimeoutRef s)
          (introTransitionTimeoutRef s) (timers s) (nextTimerId s)
      else s
  | CanvasReady =>
      mkIntroState (introStage s) (introFade s) (animFade s)
        (buttonReady s) false (minLoadingTimePassed s)
        (dotCount s) (audioReady s) (audioStarted s)
        (introButtonTimeoutRef s) (introTransitionTimeoutRef s) (timers s)
        (nextTimerId s)
  | AudioReady =>
      mkIntroState (introStage s) (introFade s) (animFade s)
        (buttonReady s) (isInitialLoading s) (minLoadingTimePassed s)
        (dotCount s) true (audioStarted s)
        (introButtonTimeoutRef s) (introTransitionTimeoutRef s) (timers s)
        (nextTimerId s)
  | DotTick =>
      mkIntroState (introStage s) (introFade s) (animFade s)
        (buttonReady s) (isInitialLoading s) (minLoadingTimePassed s)
        (nextDotCount (dotCount s)) (audioReady s) (audioStarted s)
        (introButtonTimeoutRef s) (introTransitionTimeoutRef s) (timers s)
        (nextTimerId s)
  end.

(** The overlay once the effects of the mount have run: the minimum
    loading time and the first button delay are pending. *)
Definition mounted : IntroState :=
  {| introStage := 0;
     introFade := FadeIdle;
     animFade := AnimIn;
     buttonReady := false;
     isInitialLoading := true;
     minLoadingTimePassed := false;
     dotCount := 1;
     audioReady := false;
     audioStarted := false;
     introButtonTimeoutRef := Some 2%nat;
     introTransitionTimeoutRef := None;
     timers := [(1%nat, MinLoading); (2%nat, ButtonDelay)];
     nextTimerId := 3 |}.

Inductive arises : IntroState -> Prop :=
| arises_mounted : arises mounted
| arises_step e s : arises s -> enabled e s = true -> arises (handle e s).

(** The pending timeouts of one kind. *)
Definition countOf (callback : Timer) (l : list (nat * Timer)) : nat :=
  List.length (filter (fun t => Timer_eqb (snd t) callback) l).

Definition pendingCount (callback : Timer) (s : IntroState) : nat :=
  countOf callback (timers s).

Definition introInv (s : IntroState) : Prop :=
  (introStage s <= 1)%nat
  /\ (1 <= dotCount s <= 3)%Z
  /\ (audioStarted s = true ->
      introStage s = 1%nat /\ isInitialLoading s = false
      /\ minLoadingTimePassed s = true /\ audioReady s = true)
  /\ (pendingCount ButtonDelay s <= 1)%nat
  /\ (pendingCount StageTransition s <= 1)%nat
  /\ (buttonReady s = true ->
      pendingCount ButtonDelay s = 0%nat
      /\ pendingCount StageTransition s = 0%nat)
  /\ (pendingCount StageTransition s = 1%nat ->
      introStage s = 0%nat /\ pendingCount ButtonDelay s = 0%nat
      /\ introFade s = FadeOut /\ animFade s = AnimOut)
  /\ (pendingCount FadeDone s <> 0%nat -> introStage s = 1%nat).

(** Every pending timeout has an id of its own, given out before. *)
Definition timersInv (s : IntroState) : Prop :=
  NoDup (map fst (timers s))
  /\ Forall (fun t => (fst t < nextTimerId s)%nat) (timers s).

Fixpoint ticks (k : nat) (s : IntroState) : IntroState :=
  match k with
  | O => s
  | S k' => handle DotTick (ticks k' s)
  end.

End Intro.

(** ** The labels of the items *)

Import ListNotations.

Module Label.

(** A name is held as its UTF-8 bytes; both regular expressions of
    [formatLabel] have no [u] or [i] flag and match ASCII characters
    only, so a byte of a longer character is kept as it is and counts, as
    the character does, as not of a word. *)

(** The class [[-_]]. *)
Definition isSeparator (c : ascii) : bool :=
  Ascii.eqb c "-"%char || Ascii.eqb c "_"%char.

Definition isLower (c : ascii) : bool :=
  Nat.leb 97 (nat_of_ascii c) && Nat.leb (nat_of_ascii c) 122.

(** The class [\w]: [[A-Za-z0-9_]]. *)
Definition isWordChar (c : ascii) : bool :=
  isLower c
  || Nat.leb 65 (nat_of_ascii c) && Nat.leb (nat_of_ascii c) 90
  || Nat.leb 48 (nat_of_ascii c) && Nat.leb (nat_of_ascii c) 57
  || Ascii.eqb c "_"%char.

(** [char.toUpperCase()] on one character of a word. *)
Definition toUpperCase (c : ascii) : ascii :=
  if isLower c then ascii_of_nat (nat_of_ascii c - 32) else c.

(** [.replace(/[-_]+/g, " ")]: every maximal run of separators becomes
    one space; [inRun] tells that the run has begun. *)
Fixpoint replaceSeparators (inRun : bool) (s : string) : string :=
  match s with
  | EmptyString => EmptyString
  | String c rest =>
      if isSeparator c then
        if inRun then replaceSeparators true rest
        else String " "%char (replaceSeparators true rest)
      else String c (replaceSeparators false rest)
  end.

(** [.replace(/\b\w/g, (char) => char.toUpperCase())]: a character of a
    word that follows none is at a word boundary. *)
Fixpoint capitalize (afterWord : bool) (s : string) : string :=
  match s with
  | EmptyString => EmptyString
  | String c rest =>
      String (if isWordChar c && negb afterWord then toUpperCase c else c)
        (capitalize (isWordChar c) rest)
  end.

Definition formatLabel (name : string) : string :=
  capitalize false (replaceSeparators false name).

(** No two separators next to each other. *)
Fixpoint singleSeparators (afterSeparator : bool) (s : string) : bool :=
  match s with
  | EmptyString => true
  | String c rest =>
      negb (isSeparator c && afterSeparator)
      && singleSeparators (isSeparator c) rest
  end.

End Label.

(** ** Concrete inputs

    The browsers, item sets and states on which the properties are
    exercised. *)

(** A browser in which every request succeeds. *)
Definition envAllGood : Audio.Env :=
  {| Audio.newAudioContext := Some Audio.Suspended;
     Audio.fetch := fun url => Some (Audio.mkResponse url);
     Audio.arrayBuffer :=
       fun response =>
         match response with
         | Audio.mkResponse url => Some (Audio.mkArrayBuffer url)
         end;
     Audio.decodeAudioData :=
       fun data =>
         match data with
         | Audio.mkArrayBuffer url => Some (Audio.mkAudioBuffer url)
         end;
     Audio.resume := Some tt |}.

(** A browser in which the request for the tick sound is rejected. *)
Definition envTickFails : Audio.Env :=
  {| Audio.newAudioContext := Some Audio.Suspended;
     Audio.fetch :=
       fun url =>
         if String.eqb url "/tick.mp3" then None
         else Some (Audio.mkResponse url);
     Audio.arrayBuffer := Audio.arrayBuffer envAllGood;
     Audio.decodeAudioData := Audio.decodeAudioData envAllGood;
     Audio.resume := Some tt |}.

(** A browser in which the background music cannot be decoded. *)
Definition envMusicFails : Audio.Env :=
  {| Audio.newAudioContext := Some Audio.Suspended;
     Audio.fetch := Audio.fetch envAllGood;
     Audio.arrayBuffer := Audio.arrayBuffer envAllGood;
     Audio.decodeAudioData :=
       fun data =>
         match data with
         | Audio.mkArrayBuffer url =>
             if String.eqb url "/bg.mp3" then None
             else Some (Audio.mkAudioBuffer url)
         end;
     Audio.resume := Some tt |}.

(** The audio engine once initialised and started on a desktop browser. *)
Definition audioPlaying : Audio.AudioState :=
  Audio.run (Audio.startAudio envAllGood false)
    (Audio.run (Audio.initializeAudio envAllGood) Audio.mounted).



(** Six sets, as in the dial of the introduction. *)
Definition demoSets : list ImageSet :=
  [ mkImageSet "streets" ["/streets/0.jpg"%string; "/streets/1.jpg"%string];
    mkImageSet "animals" ["/animals/0.jpg"%string];
    mkImageSet "faces" ["/faces/0.jpg"%string];
    mkImageSet "forest" ["/forest/0.jpg"%string];
    mkImageSet "ocean" ["/ocean/0.jpg"%string];
    mkImageSet "city" ["/city/0.jpg"%string] ].

(** The component mounted on a desktop browser, no initial set named. *)
Definition demoMounted : State := initialState demoSets None false.

(** The component once the audio has started. *)
Definition demoStarted : State := set_audioStarted true demoMounted.





(** A press on item 3, half a turn from the selected item 0, at the origin
    of the page and with the dial visible. *)
Definition demoPressed : State :=
  set_dragStartIndexRef (Some 0%Z)
    (set_dragStartRef (Some 0)
       (set_isDragging true
          (set_clickStartRef (Some (mkClickStart 0 0 3))
             (set_isHovered true (set_showRingAfterStart true demoStarted))))).

(** The same press with the dial hidden in the meantime. *)
Definition demoPressedHidden : State :=
  set_isHovered false (set_showRingAfterStart false demoPressed).


(** Two sets, the second one without a name. *)
Definition namelessSets : list ImageSet :=
  [ mkImageSet "day" ["/day/0.jpg"%string];
    mkImageSet EmptyString ["/night/0.jpg"%string] ].

(** The six-set component one wheel turn after the start, in the loading
    phase towards its second set. *)
Definition demoLoading : State := spunOneItem demoSets None false.

(** The same for the two sets, towards the set without a name. *)
Definition namelessLoading : State := spunOneItem namelessSets None false.

(** The six-set component at the start of the holding phase. *)
Definition demoHolding : State :=
  fadeTimerFire (effFade (preloadDone (effLoading demoLoading))).

(** The tilt filter at rest on zero degrees. *)
Definition motionLevel : Motion.MotionState :=
  Motion.mkMotionState (Some 0) (Some 0) (Some 0%Z) Motion.Granted.

(** The overlay after a click on Next, while the first page fades out. *)
Definition introLeaving : Intro.IntroState :=
  Intro.handle Intro.NextClick
    (Intro.handle (Intro.TimerFire 2) Intro.mounted).

(** The overlay once everything is loaded, the second page shown and the
    experience entered. *)
Definition introEntered : Intro.IntroState :=
  Intro.handle (Intro.EnterClick true)
    (Intro.handle (Intro.TimerFire 4)
       (Intro.handle (Intro.TimerFire 3)
          (Intro.handle Intro.AudioReady
             (Intro.handle Intro.CanvasReady
                (Intro.handle (Intro.TimerFire 1) introLeaving))))).

(** What happens to the engine after the unmount in the example: the mute
    button and a start. *)
Definition opsAfterUnmount : list Audio.Op :=
  [Audio.OpToggleMute; Audio.OpStart envAllGood].

(** * Properties *)

(** ** JavaScript numeric primitives *)

Module JsNumFacts.

Import JsNum.

Lemma ltb_true x y : ltb x y = true <-> x < y.
Proof. unfold ltb; destruct (Rlt_dec x y); split; intros; try easy. Qed.

Lemma ltb_false x y : ltb x y = false <-> y <= x.
Proof.
  unfold ltb; destruct (Rlt_dec x y); split; intros; try easy; lra.
Qed.

Lemma eqb_true x y : eqb x y = true <-> x = y.
Proof. unfold eqb; destruct (Req_dec_T x y); split; intros; easy. Qed.

Lemma floor_bounds x : IZR (js_floor x) <= x < IZR (js_floor x) + 1.
Proof.
  unfold js_floor. destruct (base_Int_part x) as [H1 H2]. lra.
Qed.

Lemma floor_unique x z : IZR z <= x < IZR z + 1 -> js_floor x = z.
Proof.
  intros [H1 H2]. unfold js_floor. symmetry.
  apply Int_part_spec. lra.
Qed.

Lemma floor_IZR z : js_floor (IZR z) = z.
Proof. apply floor_unique. lra. Qed.

Lemma floor_add_IZR x k : js_floor (x + IZR k) = (js_floor x + k)%Z.
Proof.
  apply floor_unique. rewrite plus_IZR.
  pose proof (floor_bounds x). lra.
Qed.



Lemma trunc_nonneg x : 0 <= x -> js_trunc x = js_floor x.
Proof. intros H. unfold js_trunc. destruct (Rle_dec 0 x); easy. Qed.

Lemma trunc_neg x : x < 0 -> js_trunc x = (- js_floor (- x))%Z.
Proof.
  intros H. unfold js_trunc. destruct (Rle_dec 0 x); [lra | easy].
Qed.

(** Bounds on a quotient by a positive divisor, from bounds on the
    dividend. *)
Lemma div_lower a x y : 0 < y -> a * y <= x -> a <= x / y.
Proof.
  intros Hy H. apply (Rmult_le_reg_r y); [lra|].
  unfold Rdiv. rewrite Rmult_assoc, Rinv_l by lra. lra.
Qed.

Lemma div_upper b x y : 0 < y -> x < b * y -> x / y < b.
Proof.
  intros Hy H. apply (Rmult_lt_reg_r y); [lra|].
  unfold Rdiv. rewrite Rmult_assoc, Rinv_l by lra. lra.
Qed.

Lemma div_lower_strict a x y : 0 < y -> a * y < x -> a < x / y.
Proof.
  intros Hy H. apply (Rmult_lt_reg_r y); [lra|].
  unfold Rdiv. rewrite Rmult_assoc, Rinv_l by lra. lra.
Qed.


Lemma div_mul_cancel x y : y <> 0 -> y * (x / y) = x.
Proof. intros Hy. field. exact Hy. Qed.

(** The remainder of a value already inside [[0, y)] is the value. *)
Lemma rem_small x y : 0 <= x < y -> js_rem x y = x.
Proof.
  intros [H0 H1]. unfold js_rem.
  assert (Hy : 0 < y) by lra.
  assert (Hq0 : 0 <= x / y) by (apply div_lower; lra).
  assert (Hq1 : x / y < 1) by (apply div_upper; lra).
  rewrite trunc_nonneg by lra.
  rewrite (floor_unique (x / y) 0) by (simpl; lra). simpl. lra.
Qed.

(** The remainder of a value inside [(-y, 0]] is the value as well. *)
Lemma rem_small_neg x y : - y < x <= 0 -> js_rem x y = x.
Proof.
  intros [H0 H1]. unfold js_rem.
  assert (Hy : 0 < y) by lra.
  destruct (Req_dec_T x 0) as [->|Hx].
  - unfold Rdiv. rewrite Rmult_0_l, trunc_nonneg by lra.
    rewrite (floor_unique 0 0) by (simpl; lra). simpl. lra.
  - assert (Hq0 : x / y < 0) by (apply div_upper; lra).
    assert (Hq1 : -1 < x / y) by (apply div_lower_strict; lra).
    rewrite trunc_neg by lra.
    rewrite (floor_unique (- (x / y)) 0) by (simpl; lra). simpl. lra.
Qed.

(** The remainder in terms of the floor of the quotient: for a positive
    divisor it stays within one divisor of zero, on the dividend's side. *)
Lemma rem_nonneg x y :
  0 < y -> 0 <= x -> js_rem x y = x - y * IZR (js_floor (x / y)).
Proof.
  intros Hy Hx. unfold js_rem.
  rewrite trunc_nonneg; [reflexivity|]. apply div_lower; lra.
Qed.

Lemma rem_range_nonneg x y : 0 < y -> 0 <= x -> 0 <= js_rem x y < y.
Proof.
  intros Hy Hx. rewrite rem_nonneg by assumption.
  pose proof (floor_bounds (x / y)) as [H1 H2].
  pose proof (div_mul_cancel x y ltac:(lra)) as Hc.
  split; nra.
Qed.

Lemma rem_range_neg x y : 0 < y -> x < 0 -> - y < js_rem x y <= 0.
Proof.
  intros Hy Hx. unfold js_rem.
  assert (Hq : x / y < 0) by (apply div_upper; lra).
  rewrite trunc_neg by assumption. rewrite opp_IZR.
  pose proof (floor_bounds (- (x / y))) as [H1 H2].
  pose proof (div_mul_cancel x y ltac:(lra)) as Hc.
  split; nra.
Qed.

Lemma wrap_floor x m : 0 < m -> wrap x m = x - m * IZR (js_floor (x / m)).
Proof.
  intros Hm. unfold wrap.
  pose proof (div_mul_cancel x m ltac:(lra)) as Hc.
  destruct (Rle_dec 0 x) as [Hx|Hx].
  - pose proof (rem_range_nonneg x m Hm Hx) as Hr.
    rewrite (rem_nonneg x m Hm Hx) in Hr |- *.
    set (r := x - m * IZR (js_floor (x / m))) in *.
    unfold js_rem.
    assert (Hq : 1 <= (r + m) / m < 2).
    { split; [apply div_lower | apply div_upper]; lra. }
    rewrite trunc_nonneg by lra.
    rewrite (floor_unique ((r + m) / m) 1) by (simpl; lra).
    simpl. lra.
  - assert (Hx' : x < 0) by lra.
    pose proof (rem_range_neg x m Hm Hx') as Hr.
    assert (Hq : x / m < 0) by (apply div_upper; lra).
    unfold js_rem in Hr. unfold js_rem at 2.
    rewrite trunc_neg in * by assumption. rewrite opp_IZR in *.
    set (c := js_floor (- (x / m))) in *.
    pose proof (floor_bounds (- (x / m))) as [Hc1 Hc2]. fold c in Hc1, Hc2.
    set (r := x - m * - IZR c) in *.
    destruct (Req_dec_T r 0) as [Hr0|Hr0].
    + (* [x] is a multiple of [m] *)
      rewrite Hr0, Rplus_0_l. unfold js_rem.
      replace (m / m) with 1 by (field; lra).
      rewrite trunc_nonneg by lra.
      rewrite (floor_unique 1 1) by lra.
      assert (Hxm : x / m = IZR (- c)).
      { rewrite opp_IZR. unfold r in Hr0. apply (Rmult_eq_reg_l m); [|lra].
        rewrite Hc. lra. }
      rewrite Hxm, floor_IZR. rewrite <- Hxm. simpl. lra.
    + rewrite rem_small by lra.
      assert (Hfl : js_floor (x / m) = (- c - 1)%Z).
      { apply floor_unique. rewrite minus_IZR, opp_IZR. unfold r in *.
        split.
        - apply div_lower; [lra|]. simpl. nra.
        - apply div_upper; [lra|]. simpl. nra. }
      rewrite Hfl, minus_IZR, opp_IZR. unfold r. simpl. lra.
Qed.

Lemma wrap_range x m : 0 < m -> 0 <= wrap x m < m.
Proof.
  intros Hm. rewrite wrap_floor by assumption.
  pose proof (floor_bounds (x / m)) as [H1 H2].
  pose proof (div_mul_cancel x m ltac:(lra)) as Hc.
  split; nra.
Qed.

(** Adding whole turns does not move the residue. *)
Lemma wrap_add_turns x m k : 0 < m -> wrap (x + IZR k * m) m = wrap x m.
Proof.
  intros Hm. rewrite !wrap_floor by assumption.
  replace ((x + IZR k * m) / m) with (x / m + IZR k) by (field; lra).
  rewrite floor_add_IZR, plus_IZR. lra.
Qed.

(** [Math.round] picks the integer within a half, halves going up. *)
Lemma round_bounds t :
  IZR (js_round t) - 1 / 2 <= t < IZR (js_round t) + 1 / 2.
Proof.
  unfold js_round. pose proof (floor_bounds (t + / 2)) as H.
  unfold js_floor in H. lra.
Qed.

Lemma round_unique t z : IZR z - 1 / 2 <= t < IZR z + 1 / 2 -> js_round t = z.
Proof.
  intros H. unfold js_round. apply (floor_unique (t + / 2) z). lra.
Qed.

Lemma round_IZR z : js_round (IZR z) = z.
Proof. apply round_unique. lra. Qed.

Lemma round_add_IZR t k : js_round (t + IZR k) = (js_round t + k)%Z.
Proof.
  apply round_unique. rewrite plus_IZR.
  pose proof (round_bounds t). lra.
Qed.

(** No integer is nearer than the rounded one. *)
Lemma round_nearest t n : Rabs (IZR (js_round t) - t) <= Rabs (IZR n - t).
Proof.
  pose proof (round_bounds t) as Hb.
  destruct (Z.eq_dec n (js_round t)) as [->|Hne]; [lra|].
  assert (Hcase : (n <= js_round t - 1)%Z \/ (js_round t + 1 <= n)%Z) by lia.
  destruct Hcase as [H|H]; apply IZR_le in H;
    [rewrite minus_IZR in H | rewrite plus_IZR in H];
    unfold Rabs; repeat destruct Rcase_abs; lra.
Qed.

End JsNumFacts.

(** ** The component *)

Section ComponentFacts.

Import JsNum JsNumFacts.

Variable imageSets : list ImageSet.
Variable initialSet : option string.
Variable ringCenter : option (R * R).

(** The definitions of the component at these props. *)
Local Abbreviation itemCount := (itemCount imageSets).
Local Abbreviation item_at := (item_at imageSets).
Local Abbreviation resolveInitialSet :=
  (resolveInitialSet imageSets initialSet).
Local Abbreviation initialIndex := (initialIndex imageSets initialSet).
Local Abbreviation anglePerItem := (anglePerItem imageSets).
Local Abbreviation indexAtBottom := (indexAtBottom imageSets).
Local Abbreviation selectedIndex := (selectedIndex imageSets).
Local Abbreviation finalSelectedIndex := (finalSelectedIndex imageSets).
Local Abbreviation nearestItemAngle := (nearestItemAngle imageSets).
Local Abbreviation effSnap := (effSnap imageSets).
Local Abbreviation getPointerAngle := (getPointerAngle ringCenter).
Local Abbreviation handlePointerDown :=
  (handlePointerDown imageSets ringCenter).
Local Abbreviation handlePointerMove := (handlePointerMove ringCenter).
Local Abbreviation shortestPath := (shortestPath imageSets).
Local Abbreviation clickDiff := (clickDiff imageSets).
Local Abbreviation handlePointerUp := (handlePointerUp imageSets).
Local Abbreviation normalizeIndex := (normalizeIndex imageSets).
Local Abbreviation effTransition := (effTransition imageSets).
Local Abbreviation effActiveExists := (effActiveExists imageSets initialSet).
Local Abbreviation isAtBottom := (isAtBottom imageSets).
Local Abbreviation isDraggable := (isDraggable imageSets).
Local Abbreviation enabled := (enabled imageSets).
Local Abbreviation handle := (handle imageSets initialSet ringCenter).
Local Abbreviation step := (step imageSets initialSet ringCenter).
Local Abbreviation initialState := (initialState imageSets initialSet).
Local Abbreviation reachable := (reachable imageSets initialSet ringCenter).
Local Abbreviation feedMoves := (feedMoves ringCenter).
Local Abbreviation isItemName := (isItemName imageSets).
Local Abbreviation fadeInv := (fadeInv imageSets).
Local Abbreviation isRun := (isRun imageSets initialSet ringCenter).
Local Abbreviation itemAngle := (itemAngle imageSets).
Local Abbreviation itemX := (itemX imageSets).
Local Abbreviation itemY := (itemY imageSets).
Local Abbreviation itemOnScreen := (itemOnScreen imageSets).
Local Abbreviation activeImages := (activeImages imageSets).
Local Abbreviation runEvents := (runEvents imageSets initialSet ringCenter).
Local Abbreviation lastAngleOf := (lastAngleOf ringCenter).
Local Abbreviation wheelOneItem := (wheelOneItem imageSets).
Local Abbreviation spunOneItem := (spunOneItem imageSets initialSet).

(** Case analysis on the tests a handler makes. *)
Ltac split_cases :=
  repeat match goal with
    | |- context [if ?b then _ else _] => destruct b eqn:?
    | |- context [match ?x with _ => _ end] => destruct x eqn:?
    end.

Lemma FadePhase_eqb_spec a b : reflect (a = b) (FadePhase_eqb a b).
Proof. destruct a, b; simpl; constructor; congruence. Qed.

(** *** Angles *)

Lemma two_PI_pos : 0 < 2 * PI.
Proof. pose proof PI_RGT_0. lra. Qed.









(** *** Tick synchroniser *)

Lemma checkAndPlayTick_last r s :
  lastClickIndexRef (checkAndPlayTick r s) = Some (clickIndexOf r).
Proof. reflexivity. Qed.

Lemma checkAndPlayTick_calls r s prev :
  lastClickIndexRef s = Some prev ->
  tickCalls (checkAndPlayTick r s)
  = (tickCalls s + (if Z.eqb (clickIndexOf r) prev then 0 else 1))%nat.
Proof.
  intros Hlast. unfold checkAndPlayTick. rewrite Hlast.
  destruct (Z.eqb (clickIndexOf r) prev); simpl; lia.
Qed.




(** *** Easing *)

Lemma checkAndPlayTick_rotations r s :
  ringRotation (checkAndPlayTick r s) = ringRotation s
  /\ targetRotation (checkAndPlayTick r s) = targetRotation s.
Proof.
  unfold checkAndPlayTick.
  destruct (lastClickIndexRef s) as [prev|];
    [destruct (Z.eqb (clickIndexOf r) prev)|]; split; reflexivity.
Qed.

Lemma animate_targetRotation s : targetRotation (animate s) = targetRotation s.
Proof.
  unfold animate. now rewrite (proj2 (checkAndPlayTick_rotations _ _)).
Qed.

Lemma animate_ringRotation s :
  ringRotation (animate s)
  = if ltb (Rabs (targetRotation s - ringRotation s)) (1 / 1000)
    then targetRotation s
    else ringRotation s
         + (targetRotation s - ringRotation s) * ROTATION_EASING.
Proof.
  unfold animate. now rewrite (proj1 (checkAndPlayTick_rotations _ _)).
Qed.

Lemma iter_animate_targetRotation k s :
  targetRotation (Nat.iter k animate s) = targetRotation s.
Proof.
  induction k as [|k IH]; [reflexivity|].
  change (Nat.iter (S k) animate s) with (animate (Nat.iter k animate s)).
  rewrite animate_targetRotation. exact IH.
Qed.

(** After [k] frames the ring is on the target, or its distance to the
    target has shrunk by the factor [88 / 100] at every frame. *)
Lemma iter_animate_distance k s :
  ringRotation (Nat.iter k animate s) = targetRotation s
  \/ Rabs (targetRotation s - ringRotation (Nat.iter k animate s))
     = (88 / 100) ^ k * Rabs (targetRotation s - ringRotation s).
Proof.
  induction k as [|k IH].
  - right. simpl. lra.
  - change (Nat.iter (S k) animate s) with (animate (Nat.iter k animate s)).
    rewrite animate_ringRotation, iter_animate_targetRotation.
    set (c := ringRotation (Nat.iter k animate s)) in *.
    set (t := targetRotation s) in *.
    destruct (ltb (Rabs (t - c)) (1 / 1000)) eqn:Hsnap; [now left|].
    destruct IH as [IH|IH].
    + exfalso. apply ltb_false in Hsnap. rewrite IH in Hsnap.
      replace (t - t) with 0 in Hsnap by lra. rewrite Rabs_R0 in Hsnap. lra.
    + right. unfold ROTATION_EASING.
      replace (t - (c + (t - c) * (12 / 100))) with ((88 / 100) * (t - c))
        by lra.
      rewrite Rabs_mult, IH, (Rabs_pos_eq (88 / 100)) by lra. simpl. lra.
Qed.

Lemma easing_some_bound (d : R) : exists k, (88 / 100) ^ k * Rabs d < 1 / 1000.
Proof.
  assert (Hlt : Rabs (88 / 100) < 1) by (rewrite Rabs_pos_eq; lra).
  pose proof (Rabs_pos d) as Hd.
  assert (Hy : 0 < 1 / 1000 / (Rabs d + 1)).
  { apply Rdiv_lt_0_compat; lra. }
  destruct (pow_lt_1_zero (88 / 100) Hlt _ Hy) as [N HN].
  exists N. specialize (HN N (Nat.le_refl N)).
  rewrite Rabs_pos_eq in HN by (apply pow_le; lra).
  apply (Rmult_lt_compat_r (Rabs d + 1)) in HN; [|lra].
  unfold Rdiv in HN at 2. rewrite Rmult_assoc, Rinv_l, Rmult_1_r in HN by lra.
  assert (Hp : 0 <= (88 / 100) ^ N) by (apply pow_le; lra).
  nra.
Qed.

(** C5: one frame puts the ring on the target when it is closer than
    [0.001], and otherwise moves it by [0.12] of the difference; the distance
    to the target never grows; with the target fixed the ring is on the
    target after [k + 1] frames as soon as [0.88 ^ k] times the initial
    distance is below [0.001], and there is such a [k] for every start. *)
Theorem C5_easing_converges (s : State) :
  let c := ringRotation s in
  let t := targetRotation s in
  let c' := ringRotation (animate s) in
  (Rabs (t - c) < 1 / 1000 -> c' = t)
  /\ (1 / 1000 <= Rabs (t - c) -> c' = c + (t - c) * (12 / 100))
  /\ Rabs (t - c') <= Rabs (t - c)
  /\ targetRotation (animate s) = t
  /\ (forall k, (88 / 100) ^ k * Rabs (t - c) < 1 / 1000 ->
        ringRotation (Nat.iter (S k) animate s) = t)
  /\ (exists k, ringRotation (Nat.iter (S k) animate s) = t).
Proof.
  intros c t c'.
  assert (Hstep : c' = if ltb (Rabs (t - c)) (1 / 1000) then t
                       else c + (t - c) * (12 / 100))
    by (unfold c'; rewrite animate_ringRotation; reflexivity).
  assert (Hreach : forall k, (88 / 100) ^ k * Rabs (t - c) < 1 / 1000 ->
                     ringRotation (Nat.iter (S k) animate s) = t).
  { intros k Hk.
    change (Nat.iter (S k) animate s) with (animate (Nat.iter k animate s)).
    rewrite animate_ringRotation, iter_animate_targetRotation. fold t.
    destruct (iter_animate_distance k s) as [Hon|Hdist];
      [fold t in Hon | fold t c in Hdist].
    - rewrite Hon. replace (t - t) with 0 by lra. rewrite Rabs_R0.
      destruct (ltb 0 (1 / 1000)) eqn:E; [reflexivity|].
      apply ltb_false in E. lra.
    - destruct (ltb (Rabs (t - ringRotation (Nat.iter k animate s)))
                    (1 / 1000)) eqn:E; [reflexivity|].
      apply ltb_false in E. lra. }
  repeat split.
  - intros H. apply ltb_true in H. rewrite Hstep, H. reflexivity.
  - intros H. apply ltb_false in H. rewrite Hstep, H. reflexivity.
  - rewrite Hstep. destruct (ltb (Rabs (t - c)) (1 / 1000)).
    + replace (t - t) with 0 by lra. rewrite Rabs_R0. apply Rabs_pos.
    + replace (t - (c + (t - c) * (12 / 100))) with ((88 / 100) * (t - c))
        by lra.
      rewrite Rabs_mult, (Rabs_pos_eq (88 / 100)) by lra.
      pose proof (Rabs_pos (t - c)). lra.
  - apply animate_targetRotation.
  - exact Hreach.
  - destruct (easing_some_bound (t - c)) as [k Hk]. exists k. now apply Hreach.
Qed.

(** *** Clicks *)

Lemma shortestPath_congruent target clickedIndex :
  exists k : Z,
    shortestPath target clickedIndex
    = IZR clickedIndex * anglePerItem - target + IZR k * (2 * PI).
Proof.
  unfold shortestPath.
  rewrite !wrap_floor by exact two_PI_pos.
  set (goal := IZR clickedIndex * anglePerItem).
  set (q1 := js_floor (goal / (2 * PI))).
  set (q2 := js_floor (target / (2 * PI))).
  destruct (gtb _ PI); [|destruct (ltb _ (- PI))].
  - exists (q2 - q1 - 1)%Z. rewrite !minus_IZR. ring.
  - exists (q2 - q1 + 1)%Z. rewrite plus_IZR, minus_IZR. ring.
  - exists (q2 - q1)%Z. rewrite minus_IZR. ring.
Qed.

Lemma shortestPath_range target clickedIndex :
  - PI <= shortestPath target clickedIndex <= PI.
Proof.
  unfold shortestPath.
  pose proof (wrap_range target (2 * PI) two_PI_pos) as Hc.
  pose proof (wrap_range (IZR clickedIndex * anglePerItem) (2 * PI) two_PI_pos)
    as Ht.
  assert (Hd : - (2 * PI) < wrap (IZR clickedIndex * anglePerItem) (2 * PI)
                           - wrap target (2 * PI) < 2 * PI) by lra.
  set (d := wrap (IZR clickedIndex * anglePerItem) (2 * PI)
            - wrap target (2 * PI)) in *.
  clearbody d. unfold gtb.
  destruct (ltb PI d) eqn:E1.
  - apply ltb_true in E1. lra.
  - apply ltb_false in E1. destruct (ltb d (- PI)) eqn:E2.
    + apply ltb_true in E2. lra.
    + apply ltb_false in E2. lra.
Qed.

(** No rotation that brings the target onto the clicked item is shorter. *)
Lemma shortestPath_minimal target clickedIndex (k : Z) :
  Rabs (shortestPath target clickedIndex)
  <= Rabs (IZR clickedIndex * anglePerItem - target + IZR k * (2 * PI)).
Proof.
  destruct (shortestPath_congruent target clickedIndex) as [k0 Hk0].
  pose proof (shortestPath_range target clickedIndex) as Hrange.
  set (sp := shortestPath target clickedIndex) in *.
  replace (IZR clickedIndex * anglePerItem - target + IZR k * (2 * PI))
    with (sp + IZR (k - k0) * (2 * PI)) by (rewrite minus_IZR, Hk0; ring).
  pose proof PI_RGT_0 as Hpi.
  destruct (Z.eq_dec (k - k0) 0) as [->|Hn].
  - simpl. right. f_equal. lra.
  - assert (Hcase : IZR (k - k0) <= -1 \/ 1 <= IZR (k - k0)).
    { destruct (Z_lt_le_dec (k - k0) 0).
      - left. apply IZR_le. lia.
      - right. apply IZR_le. lia. }
    unfold Rabs. repeat destruct (Rcase_abs _); nra.
Qed.

(** A click on the item half a turn away rotates by [PI]. *)
Lemma clickDiff_opposite target clickedIndex (m : Z) :
  IZR clickedIndex * anglePerItem - target = PI + IZR m * (2 * PI) ->
  clickDiff target clickedIndex = PI.
Proof.
  intros Hopp. unfold clickDiff.
  destruct (shortestPath_congruent target clickedIndex) as [k Hk].
  pose proof (shortestPath_range target clickedIndex) as Hrange.
  set (sp := shortestPath target clickedIndex) in *.
  pose proof PI_RGT_0 as Hpi.
  assert (Hsp : sp = PI + IZR (m + k) * (2 * PI)).
  { rewrite plus_IZR, Hk, Hopp. ring. }
  assert (Hn : (m + k = -1 \/ m + k = 0)%Z).
  { assert (H1 : -2 < IZR (m + k)) by nra.
    assert (H2 : IZR (m + k) < 1) by nra.
    apply lt_IZR in H1, H2. lia. }
  assert (Habs : Rabs sp = PI).
  { destruct Hn as [Hn|Hn]; rewrite Hn in Hsp; simpl in Hsp.
    - replace sp with (- PI) by lra. rewrite Rabs_Ropp, Rabs_pos_eq; lra.
    - replace sp with PI by lra. rewrite Rabs_pos_eq; lra. }
  rewrite Habs. replace (PI - PI) with 0 by lra. rewrite Rabs_R0.
  destruct (ltb 0 (1 / 1000)) eqn:E; [reflexivity|].
  apply ltb_false in E. lra.
Qed.

Lemma handlePointerUp_click s start :
  isDragging s = true ->
  clickStartRef s = Some start ->
  isDialVisible s = true ->
  exists s',
    handlePointerUp s = Some s'
    /\ targetRotation s'
       = targetRotation s + clickDiff (targetRotation s) (cs_index start)
    /\ isDragging s' = false
    /\ clickStartRef s' = None
    /\ dragStartRef s' = None.
Proof.
  intros Hdrag Hclick Hvis. unfold handlePointerUp.
  rewrite Hdrag, Hclick, Hvis. simpl.
  eexists. split; [reflexivity|]. repeat split.
Qed.

(** C6: on the pointer-up of a click on item [cs_index start], the target
    moves by [clickDiff]; that is the shortest rotation onto the item's angle,
    within [[-PI, PI]], replaced by [+PI] whenever it is within [0.001] of a
    half turn; with six items a click on the item opposite the one the
    target stands on rotates by [+PI]. *)
Theorem C6_click_shortest_path (s : State) (start : ClickStart) :
  isDragging s = true ->
  clickStartRef s = Some start ->
  isDialVisible s = true ->
  let T := targetRotation s in
  let goal := IZR (cs_index start) * anglePerItem in
  let sp := shortestPath T (cs_index start) in
  let diff := clickDiff T (cs_index start) in
  (exists s', handlePointerUp s = Some s' /\ targetRotation s' = T + diff)
  /\ - PI <= sp <= PI
  /\ (exists k : Z, sp = goal - T + IZR k * (2 * PI))
  /\ (forall k : Z, Rabs sp <= Rabs (goal - T + IZR k * (2 * PI)))
  /\ (Rabs (Rabs sp - PI) < 1 / 1000 -> diff = PI)
  /\ (1 / 1000 <= Rabs (Rabs sp - PI) -> diff = sp)
  /\ (itemCount = 6%Z ->
      forall i m : Z,
        T = IZR i * anglePerItem ->
        cs_index start = (i + 3 + 6 * m)%Z ->
        diff = PI).
Proof.
  intros Hdrag Hclick Hvis T goal sp diff.
  split; [|split; [|split; [|split; [|split; [|split]]]]].
  - destruct (handlePointerUp_click s start Hdrag Hclick Hvis)
      as [s' [Hup [Htarget _]]].
    exists s'. split; assumption.
  - apply shortestPath_range.
  - apply shortestPath_congruent.
  - apply shortestPath_minimal.
  - intros H. apply ltb_true in H. unfold diff, clickDiff. fold sp.
    now rewrite H.
  - intros H. apply ltb_false in H. unfold diff, clickDiff. fold sp.
    now rewrite H.
  - intros Hsix i m HT Hidx. unfold diff.
    apply (clickDiff_opposite T (cs_index start) m).
    rewrite Hidx, HT. unfold anglePerItem. rewrite Hsix.
    change (0 <? 6)%Z with true. cbv iota.
    rewrite !plus_IZR, mult_IZR. field.
Qed.

(** *** Item angles and indices *)

Lemma itemCount_nonneg : (0 <= itemCount)%Z.
Proof. unfold itemCount. lia. Qed.

Lemma anglePerItem_pos : (0 < itemCount)%Z -> 0 < anglePerItem.
Proof.
  intros HN. unfold anglePerItem.
  destruct (Z.ltb_spec 0 itemCount) as [_|]; [|lia].
  apply Rdiv_lt_0_compat; [exact two_PI_pos|]. now apply IZR_lt.
Qed.

Lemma nearestItemAngle_some rotation :
  (0 < itemCount)%Z ->
  nearestItemAngle rotation
  = Some (IZR (js_round (rotation / anglePerItem)) * anglePerItem).
Proof.
  intros HN. pose proof (anglePerItem_pos HN) as Hpos.
  unfold nearestItemAngle, div_checked.
  destruct (Req_dec_T anglePerItem 0); [lra | reflexivity].
Qed.

Lemma normalizeIndex_some i :
  (0 < itemCount)%Z -> normalizeIndex i = Some (i mod itemCount)%Z.
Proof.
  intros HN. unfold normalizeIndex, zrem_checked.
  destruct (Z.eqb_spec itemCount 0) as [|_]; [lia|]. f_equal.
  pose proof (Z.rem_bound_abs i itemCount ltac:(lia)) as Hb.
  assert (Hr : (- itemCount < Z.rem i itemCount < itemCount)%Z) by lia.
  rewrite Z.rem_mod_nonneg by lia.
  assert (Hcong : ((Z.rem i itemCount + itemCount) mod itemCount
                   = i mod itemCount)%Z).
  { rewrite <- Z.add_mod_idemp_r, Z.mod_same, Z.add_0_r by lia.
    pose proof (Z.rem_mod_eq_0 i itemCount ltac:(lia)) as _.
    pose proof (Z.rem_eq i itemCount ltac:(lia)) as He.
    rewrite He.
    replace (i - itemCount * Z.quot i itemCount)%Z
      with (i + (- Z.quot i itemCount) * itemCount)%Z by ring.
    apply Z.mod_add. lia. }
  exact Hcong.
Qed.

(** Both index projections give a number, [0] without items and an index of
    [imageSets] with items. *)
Lemma indexAtBottom_total rotation :
  exists i,
    indexAtBottom rotation = Some i
    /\ (itemCount = 0%Z -> i = 0%Z)
    /\ ((0 < itemCount)%Z -> (0 <= i < itemCount)%Z).
Proof.
  unfold indexAtBottom.
  destruct (Z.eqb_spec itemCount 0) as [H0|Hne].
  - exists 0%Z. repeat split; lia.
  - pose proof itemCount_nonneg as Hnn.
    assert (HN : (0 < itemCount)%Z) by lia.
    pose proof (anglePerItem_pos HN) as Hpos.
    unfold div_checked.
    destruct (Req_dec_T anglePerItem 0); [lra|].
    fold (normalizeIndex
            (js_round (wrap rotation (2 * PI) / anglePerItem))).
    rewrite normalizeIndex_some by assumption.
    eexists. split; [reflexivity|]. split; [lia|].
    intros _. apply Z.mod_pos_bound. lia.
Qed.

(** *** Gestures *)

Lemma handlePointerUp_drag s :
  isDragging s = true ->
  (0 < itemCount)%Z ->
  clickStartRef s = None \/ isDialVisible s = false ->
  exists s',
    handlePointerUp s = Some s'
    /\ targetRotation s'
       = IZR (js_round (targetRotation s / anglePerItem)) * anglePerItem
    /\ isDragging s' = false
    /\ clickStartRef s' = None
    /\ dragStartRef s' = None.
Proof.
  intros Hdrag HN Hpath. unfold handlePointerUp. rewrite Hdrag. simpl.
  assert (Hbranch :
    match clickStartRef s, isDialVisible s with
    | Some start, true =>
        Some (set_clickStartRef None
                (set_targetRotation
                   (targetRotation s
                    + clickDiff (targetRotation s) (cs_index start)) s))
    | _, _ =>
        snappedRotation <- nearestItemAngle (targetRotation s) ;;
        Some (set_targetRotation snappedRotation s)
    end
    = Some (set_targetRotation
              (IZR (js_round (targetRotation s / anglePerItem))
               * anglePerItem) s)).
  { rewrite nearestItemAngle_some by assumption.
    destruct Hpath as [-> | ->]; [reflexivity|].
    destruct (clickStartRef s); reflexivity. }
  rewrite Hbranch. eexists. split; [reflexivity|]. repeat split.
Qed.

Lemma handlePointerMove_frame x y s :
  isDragging (handlePointerMove x y s) = isDragging s
  /\ isDialVisible (handlePointerMove x y s) = isDialVisible s
  /\ (dragStartRef s <> None -> dragStartRef (handlePointerMove x y s) <> None).
Proof.
  unfold handlePointerMove, isDialVisible.
  destruct (isDragging s) eqn:Hd; [|now repeat split].
  destruct (dragStartRef s) as [lastAngle|]; [|now repeat split].
  destruct (clickStartRef s) as [start|];
    [destruct (gtb (displacement start x y) 5)|];
    simpl; rewrite ?Hd; repeat split; discriminate.
Qed.

(** A move of a gesture in progress keeps the click record while the pointer
    is within 5 px of the start, and drops it beyond. *)
Lemma handlePointerMove_click x y s :
  isDragging s = true ->
  dragStartRef s <> None ->
  clickStartRef (handlePointerMove x y s)
  = match clickStartRef s with
    | Some start => if gtb (displacement start x y) 5 then None else Some start
    | None => None
    end.
Proof.
  intros Hd Hstart. unfold handlePointerMove. rewrite Hd.
  destruct (dragStartRef s) as [lastAngle|]; [|congruence].
  destruct (clickStartRef s) as [start|] eqn:Hc;
    [destruct (gtb (displacement start x y) 5)|]; simpl; congruence.
Qed.

Lemma feedMoves_frame moves : forall s,
  isDragging (feedMoves moves s) = isDragging s
  /\ isDialVisible (feedMoves moves s) = isDialVisible s
  /\ (dragStartRef s <> None -> dragStartRef (feedMoves moves s) <> None).
Proof.
  induction moves as [|[x y] rest IH]; intros s; [now repeat split|].
  change (feedMoves ((x, y) :: rest) s)
    with (feedMoves rest (handlePointerMove x y s)).
  destruct (IH (handlePointerMove x y s)) as [H1 [H2 H3]].
  destruct (handlePointerMove_frame x y s) as [F1 [F2 F3]].
  rewrite H1, H2, F1, F2. repeat split. auto.
Qed.

(** Once dropped, the click record stays dropped for the rest of the
    gesture. *)
Lemma feedMoves_dropped moves : forall s,
  clickStartRef s = None -> clickStartRef (feedMoves moves s) = None.
Proof.
  induction moves as [|[x y] rest IH]; intros s Hnone; [exact Hnone|].
  change (feedMoves ((x, y) :: rest) s)
    with (feedMoves rest (handlePointerMove x y s)).
  apply IH. unfold handlePointerMove.
  destruct (isDragging s); [|exact Hnone].
  destruct (dragStartRef s); [|exact Hnone].
  rewrite Hnone. exact Hnone.
Qed.

Lemma feedMoves_within moves : forall s start,
  isDragging s = true ->
  dragStartRef s <> None ->
  clickStartRef s = Some start ->
  Forall (fun m => displacement start (fst m) (snd m) <= 5) moves ->
  clickStartRef (feedMoves moves s) = Some start.
Proof.
  induction moves as [|[x y] rest IH]; intros s start Hd Hs Hc Hall;
    [exact Hc|].
  change (feedMoves ((x, y) :: rest) s)
    with (feedMoves rest (handlePointerMove x y s)).
  inversion Hall as [|m ms Hm Hrest]; subst. simpl in Hm.
  destruct (handlePointerMove_frame x y s) as [F1 [_ F3]].
  apply IH; [congruence | auto | | exact Hrest].
  rewrite handlePointerMove_click, Hc by assumption.
  unfold gtb. destruct (ltb 5 (displacement start x y)) eqn:E;
    [|reflexivity].
  apply ltb_true in E. lra.
Qed.

Lemma feedMoves_beyond moves : forall s start,
  isDragging s = true ->
  dragStartRef s <> None ->
  clickStartRef s = Some start ->
  Exists (fun m => 5 < displacement start (fst m) (snd m)) moves ->
  clickStartRef (feedMoves moves s) = None.
Proof.
  induction moves as [|[x y] rest IH]; intros s start Hd Hs Hc Hex;
    [inversion Hex|].
  change (feedMoves ((x, y) :: rest) s)
    with (feedMoves rest (handlePointerMove x y s)).
  destruct (handlePointerMove_frame x y s) as [F1 [_ F3]].
  pose proof (handlePointerMove_click x y s Hd Hs) as Hmove.
  rewrite Hc in Hmove. unfold gtb in Hmove.
  destruct (ltb 5 (displacement start x y)) eqn:E.
  - now apply feedMoves_dropped.
  - apply ltb_false in E.
    inversion Hex as [m ms Hm|m ms Hrest]; subst.
    + simpl in Hm. lra.
    + apply (IH _ start); [congruence | auto | exact Hmove | exact Hrest].
Qed.

Lemma handlePointerDown_accepted x y sel index s :
  audioStarted s = true ->
  fadePhase s = Idle ->
  sel = true \/ isDialVisible s = true ->
  exists s1,
    handlePointerDown x y sel (Some index) s = Some s1
    /\ isDragging s1 = true
    /\ dragStartRef s1 <> None
    /\ clickStartRef s1 = Some (mkClickStart x y index)
    /\ dragStartIndexRef s1 = selectedIndex s
    /\ targetRotation s1 = targetRotation s
    /\ fadePhase s1 = Idle.
Proof.
  intros Ha Hf Hvis. unfold handlePointerDown. rewrite Ha, Hf. simpl.
  assert (Hgate : negb sel && negb (isDialVisible s) = false).
  { destruct Hvis as [-> | ->]; [reflexivity|]. apply andb_false_r. }
  rewrite Hgate.
  destruct (indexAtBottom_total (ringRotation s)) as [i [Hi _]].
  unfold selectedIndex. rewrite Hi.
  eexists. split; [reflexivity|].
  destruct sel; simpl; repeat split; try discriminate; assumption.
Qed.

(** C7: in a gesture that starts with an accepted pointer-down on an item,
    a move whose displacement from the start exceeds 5 px drops the click
    record, no later move brings it back, and the pointer-up then snaps the
    target to the nearest item angle; while no move exceeds 5 px the click
    record is kept, and the pointer-up with the dial visible rotates to the
    clicked item. *)
Theorem C7_drag_classification
    (s : State) (x0 y0 : R) (sel : bool) (index : Z)
    (moves later : list (R * R)) :
  audioStarted s = true ->
  fadePhase s = Idle ->
  sel = true \/ isDialVisible s = true ->
  (0 < itemCount)%Z ->
  exists s1,
    handlePointerDown x0 y0 sel (Some index) s = Some s1
    /\ let start := mkClickStart x0 y0 index in
       let s2 := feedMoves moves s1 in
       let s3 := feedMoves later s2 in
       (Exists (fun m => 5 < displacement start (fst m) (snd m)) moves ->
        clickStartRef s2 = None
        /\ clickStartRef s3 = None
        /\ exists s',
             handlePointerUp s3 = Some s'
             /\ targetRotation s'
                = IZR (js_round (targetRotation s3 / anglePerItem))
                  * anglePerItem)
       /\ (Forall (fun m => displacement start (fst m) (snd m) <= 5) moves ->
           clickStartRef s2 = Some start
           /\ (isDialVisible s2 = true ->
               exists s',
                 handlePointerUp s2 = Some s'
                 /\ targetRotation s'
                    = targetRotation s2
                      + clickDiff (targetRotation s2) index)).
Proof.
  intros Ha Hf Hvis HN.
  destruct (handlePointerDown_accepted x0 y0 sel index s Ha Hf Hvis)
    as [s1 [Hdown [Hd [Hs [Hc _]]]]].
  exists s1. split; [exact Hdown|]. intros start s2 s3.
  destruct (feedMoves_frame moves s1) as [Hd2 [_ Hs2]].
  fold s2 in Hd2, Hs2.
  split.
  - intros Hex.
    assert (Hnone : clickStartRef s2 = None)
      by (apply (feedMoves_beyond moves s1 start); assumption).
    assert (Hnone3 : clickStartRef s3 = None)
      by (apply feedMoves_dropped; exact Hnone).
    split; [exact Hnone|]. split; [exact Hnone3|].
    destruct (feedMoves_frame later s2) as [Hd3 _]. fold s3 in Hd3.
    destruct (handlePointerUp_drag s3) as [s' [Hup [Ht _]]];
      [congruence | exact HN | now left |].
    exists s'. split; assumption.
  - intros Hall.
    assert (Hkept : clickStartRef s2 = Some start)
      by (apply (feedMoves_within moves s1 start); assumption).
    split; [exact Hkept|]. intros Hvis2.
    destruct (handlePointerUp_click s2 start) as [s' [Hup [Ht _]]];
      [congruence | exact Hkept | exact Hvis2 |].
    exists s'. split; assumption.
Qed.

(** C9: the pointer-up of a gesture in progress rotates to the clicked item
    when a click record is held and the dial is visible; when the dial is not
    visible it snaps the target to the nearest multiple of [anglePerItem],
    click record or not, also after moves that all stayed within 5 px; and
    so it does when no click record is held. *)
Theorem C9_click_needs_visible_dial (s : State) :
  isDragging s = true ->
  (0 < itemCount)%Z ->
  let snapped (s0 : State) :=
    IZR (js_round (targetRotation s0 / anglePerItem)) * anglePerItem in
  (forall start,
     clickStartRef s = Some start ->
     isDialVisible s = true ->
     exists s',
       handlePointerUp s = Some s'
       /\ targetRotation s'
          = targetRotation s + clickDiff (targetRotation s) (cs_index start))
  /\ (isDialVisible s = false ->
      exists s', handlePointerUp s = Some s' /\ targetRotation s' = snapped s)
  /\ (clickStartRef s = None ->
      exists s', handlePointerUp s = Some s' /\ targetRotation s' = snapped s)
  /\ (forall start moves,
        dragStartRef s <> None ->
        clickStartRef s = Some start ->
        Forall (fun m => displacement start (fst m) (snd m) <= 5) moves ->
        isDialVisible s = false ->
        let s2 := feedMoves moves s in
        clickStartRef s2 = Some start
        /\ exists s',
             handlePointerUp s2 = Some s' /\ targetRotation s' = snapped s2).
Proof.
  intros Hd HN snapped.
  split; [|split; [|split]].
  - intros start Hc Hvis.
    destruct (handlePointerUp_click s start Hd Hc Hvis) as [s' [Hup [Ht _]]].
    exists s'. split; assumption.
  - intros Hvis.
    destruct (handlePointerUp_drag s Hd HN) as [s' [Hup [Ht _]]];
      [now right|].
    exists s'. split; assumption.
  - intros Hc.
    destruct (handlePointerUp_drag s Hd HN) as [s' [Hup [Ht _]]];
      [now left|].
    exists s'. split; assumption.
  - intros start moves Hs Hc Hall Hvis s2.
    destruct (feedMoves_frame moves s) as [Hd2 [Hv2 _]]. fold s2 in Hd2, Hv2.
    split; [now apply feedMoves_within|].
    destruct (handlePointerUp_drag s2) as [s' [Hup [Ht _]]];
      [congruence | exact HN | right; congruence |].
    exists s'. split; assumption.
Qed.

(** *** Fade state machine *)

Lemma checkAndPlayTick_fadeView r s :
  fadeView (checkAndPlayTick r s) = fadeView s.
Proof. unfold checkAndPlayTick. split_cases; reflexivity. Qed.

(** Gestures, hovering, frames and the other effects leave the fade machine
    alone. *)
Lemma handle_fadeView e s s' :
  fadeEvent e = false -> handle e s = Some s' -> fadeView s' = fadeView s.
Proof.
  intros He Hh. destruct e; try discriminate He; simpl in Hh.
  - unfold handlePointerDown in Hh. revert Hh. split_cases; intros Hh;
      inversion Hh; subst; reflexivity.
  - inversion Hh; subst. unfold handlePointerMove. split_cases; reflexivity.
  - unfold handlePointerUp in Hh.
    destruct (isDragging s); simpl in Hh; [|now inversion Hh].
    destruct (clickStartRef s) as [start|], (isDialVisible s),
      (nearestItemAngle (targetRotation s)) as [snapped|];
      inversion Hh; subst; reflexivity.
  - inversion Hh; subst. unfold handleWheel. split_cases; reflexivity.
  - inversion Hh; subst. reflexivity.
  - inversion Hh; subst. unfold handlePointerLeave, hideRingAfterDelay.
    split_cases; reflexivity.
  - inversion Hh; subst. reflexivity.
  - inversion Hh; subst.
    unfold handleSelectedCircleLeave, hideRingAfterDelay.
    split_cases; reflexivity.
  - inversion Hh; subst. reflexivity.
  - inversion Hh; subst. reflexivity.
  - inversion Hh; subst. reflexivity.
  - inversion Hh; subst. unfold animate.
    now rewrite checkAndPlayTick_fadeView.
  - inversion Hh; subst. unfold effSnap. split_cases; reflexivity.
  - inversion Hh; subst. reflexivity.
Qed.

Lemma startTransition_noop target s :
  fadePhase s <> Idle \/ target = activeSet s ->
  startTransition target s = s.
Proof.
  intros H. unfold startTransition.
  destruct (FadePhase_eqb_spec (fadePhase s) Idle) as [Hi|Hni]; simpl.
  - destruct H as [H|H]; [contradiction|].
    subst. now rewrite String.eqb_refl.
  - reflexivity.
Qed.

Lemma startTransition_starts target s :
  fadePhase s = Idle ->
  target <> activeSet s ->
  fadeView (startTransition target s)
  = (Loading, Some target, activeSet s, preloadsInFlight s, true, false).
Proof.
  intros Hi Hne. unfold startTransition. rewrite Hi. simpl.
  destruct (String.eqb_spec target (activeSet s)); [contradiction|].
  unfold setFadePhase, setPendingSet. simpl. rewrite Hi. reflexivity.
Qed.

(** The transition effect either leaves the fade machine as it is or starts
    a transition to an item of [imageSets]; with a gesture's start index
    pending it starts one only when the rotation has settled on another
    item. *)
Lemma effTransition_cases s :
  fadeView (effTransition s) = fadeView s
  \/ (fadePhase s = Idle
      /\ isDragging s = false
      /\ exists i set,
           item_at i = Some set
           /\ name set <> activeSet s
           /\ fadeView (effTransition s)
              = (Loading, Some (name set), activeSet s, preloadsInFlight s,
                 true, false)
           /\ match dragStartIndexRef s with
              | Some startIndex =>
                  isRotationSettled s = true
                  /\ finalSelectedIndex s = Some i
                  /\ strict_eq (normalizeIndex startIndex) (normalizeIndex i)
                     = false
              | None => selectedIndex s = Some i
              end).
Proof.
  unfold effTransition.
  destruct (isDragging s) eqn:Hd; [now left|].
  assert (Hstart : forall set s0,
            fadeView s0 = fadeView s ->
            fadeView (startTransition (name set) s0) = fadeView s
            \/ (fadePhase s = Idle /\ name set <> activeSet s
                /\ fadeView (startTransition (name set) s0)
                   = (Loading, Some (name set), activeSet s,
                      preloadsInFlight s, true, false))).
  { intros set s0 Hv. unfold fadeView in Hv.
    inversion Hv as [[H1 H2 H3 H4 H5 H6]].
    destruct (FadePhase_eqb_spec (fadePhase s0) Idle) as [Hi|Hni].
    - destruct (String.eqb_spec (name set) (activeSet s0)) as [He|Hne].
      + left. rewrite startTransition_noop by (now right). exact Hv.
      + right. rewrite startTransition_starts by assumption.
        repeat split; congruence.
    - left. rewrite startTransition_noop by (now left). exact Hv. }
  destruct (dragStartIndexRef s) as [startIndex|] eqn:Href.
  - destruct (isRotationSettled s) eqn:Hset; simpl; [|now left].
    destruct (finalSelectedIndex s) as [f|] eqn:Hf.
    + destruct (strict_eq (normalizeIndex startIndex) (normalizeIndex f))
        eqn:Heq; [now left|].
      destruct (item_at f) as [set|] eqn:Hitem; [|now left].
      destruct (String.eqb (name set) (highlightSet s)); simpl; [now left|].
      destruct (Hstart set (set_dragStartIndexRef None s) eq_refl)
        as [Hsame|[Hi [Hne Hv]]]; [now left|].
      right. split; [exact Hi|]. split; [reflexivity|].
      exists f, set. repeat split; assumption.
    + destruct (strict_eq (normalizeIndex startIndex) None) eqn:Heq;
        [now left|]. now left.
  - destruct (selectedIndex s) as [i|] eqn:Hsel; [|now left].
    destruct (item_at i) as [set|] eqn:Hitem; [|now left].
    destruct (String.eqb (name set) (highlightSet s)); simpl; [now left|].
    destruct (Hstart set s eq_refl) as [Hsame|[Hi [Hne Hv]]]; [now left|].
    right. split; [exact Hi|]. split; [reflexivity|].
    exists i, set. repeat split; assumption.
Qed.




(** The settle test compares the lag of the ring with a full turn minus the
    lag: a ring that is a whole turn behind its target counts as settled. *)
Lemma isRotationSettled_full_turn_lag s :
  targetRotation s = ringRotation s + 2 * PI -> isRotationSettled s = true.
Proof.
  intros Hlag. unfold isRotationSettled. apply ltb_true.
  replace (targetRotation s - ringRotation s) with (2 * PI) by lra.
  pose proof two_PI_pos as Hpos.
  rewrite Rabs_pos_eq by lra.
  replace (2 * PI - 2 * PI) with 0 by lra.
  rewrite Rmin_right by lra.
  unfold rotationSettleThreshold. destruct (isMobile s); lra.
Qed.

Lemma fadeInv_view s s' : fadeView s' = fadeView s -> fadeInv s -> fadeInv s'.
Proof.
  unfold fadeView, fadeInv. intros Hv.
  injection Hv as H1 H2 H3 H4 H5 H6.
  rewrite H1, H2, H3, H4, H5, H6. auto.
Qed.

Lemma item_at_isItemName i set : item_at i = Some set -> isItemName (name set).
Proof.
  unfold item_at, isItemName. destruct (i <? 0)%Z; [discriminate|].
  intros H. apply nth_error_In in H. apply existsb_exists.
  exists set. split; [exact H | apply String.eqb_refl].
Qed.

Lemma resolveInitialSet_isItemName :
  (0 < itemCount)%Z -> isItemName resolveInitialSet.
Proof.
  unfold itemCount, resolveInitialSet, isItemName. intros HN.
  destruct imageSets as [|first rest] eqn:Hsets; [simpl in HN; lia|].
  assert (Hfirst : existsb (fun set => String.eqb (name set) (name first))
                     (first :: rest) = true).
  { simpl. now rewrite String.eqb_refl. }
  simpl nth_error.
  destruct initialSet as [init|]; [|exact Hfirst].
  destruct (truthy init); [|exact Hfirst].
  destruct (find _ (first :: rest)) as [m|] eqn:Hfind; [|exact Hfirst].
  apply find_some in Hfind. destruct Hfind as [Hin _].
  apply existsb_exists. exists m. split; [exact Hin | apply String.eqb_refl].
Qed.

Lemma fadeInv_initial mobile : fadeInv (initialState mobile).
Proof.
  unfold fadeInv. simpl. split; [apply resolveInitialSet_isItemName|].
  repeat split.
Qed.

Lemma effActiveExists_noop s : fadeInv s -> effActiveExists s = s.
Proof.
  intros [Hactive _]. unfold effActiveExists.
  destruct (Z.eqb_spec itemCount 0) as [|Hne]; [reflexivity|].
  pose proof itemCount_nonneg.
  unfold isItemName in Hactive. rewrite Hactive by lia. reflexivity.
Qed.

Lemma step_fade s s' :
  fadeInv s -> step s s' -> fadeInv s' /\ fadeMove s s'.
Proof.
  intros Hinv [e Hen Hh].
  destruct (fadeEvent e) eqn:He.
  2:{ pose proof (handle_fadeView e s s' He Hh) as Hv.
      split; [exact (fadeInv_view s s' Hv Hinv)|].
      unfold fadeView in Hv. apply fm_none; congruence. }
  destruct Hinv as [Hactive Hphase].
  destruct e; try discriminate He; simpl in Hh, Hen;
    injection Hh as <-.
  - (* the transition effect *)
    destruct (effTransition_cases s) as [Hv|[Hi [_ [i [set H]]]]].
    + split; [exact (fadeInv_view _ _ Hv (conj Hactive Hphase))|].
      unfold fadeView in Hv. apply fm_none; congruence.
    + destruct H as [Hitem [Hne [Hv _]]]. unfold fadeView in Hv.
      rewrite Hi in Hphase. destruct Hphase as [Hp [Hn [Hdue Harm]]].
      assert (E1 : fadePhase (effTransition s) = Loading) by congruence.
      assert (E2 : pendingSet (effTransition s) = Some (name set))
        by congruence.
      assert (E3 : activeSet (effTransition s) = activeSet s) by congruence.
      assert (E4 : preloadsInFlight (effTransition s) = 0%nat) by congruence.
      assert (E5 : loadingEffectDue (effTransition s) = true) by congruence.
      assert (E6 : phaseTimerArmed (effTransition s) = false) by congruence.
      split.
      * unfold fadeInv. rewrite E1, E2, E3, E4, E5, E6.
        split; [exact Hactive|]. split; [|split; [reflexivity|now left]].
        exists (name set). split; [reflexivity|].
        split; [exact (item_at_isItemName i set Hitem)|]. discriminate.
      * now apply (fm_start _ _ (name set)).
  - (* the fade effect *)
    unfold effFade, fadeInv. destruct (fadePhase s) eqn:Hp.
    + simpl. rewrite Hp. destruct Hphase as [H1 [H2 [H3 H4]]].
      split; [now repeat split|]. now apply fm_none.
    + simpl. rewrite Hp. destruct Hphase as [H1 [H2 H3]].
      split; [now repeat split|]. now apply fm_none.
    + simpl. rewrite Hp. split; [now split|]. now apply fm_none.
    + destruct Hphase as [[[p [Hpend [Hname [Htruthy Harm]]]]|Hnone] [H2 H3]].
      * rewrite Hpend, Htruthy. unfold setPendingSet, setActiveSet.
        destruct (String.eqb p (activeSet s)) eqn:Heq; simpl; rewrite Hp.
        -- split; [now repeat split; auto|].
           apply (fm_swap _ _ p); simpl; auto.
           now apply String.eqb_eq in Heq.
        -- split; [now repeat split; auto|].
           apply (fm_swap _ _ p); simpl; auto.
      * rewrite Hnone. simpl. rewrite Hp, Hnone.
        split; [now repeat split; auto|]. now apply fm_none.
    + simpl. rewrite Hp. split; [now split|]. now apply fm_none.
  - (* the fade timer *)
    unfold fadeTimerFire, setFadePhase, fadeInv.
    destruct (fadePhase s) eqn:Hp; simpl.
    + rewrite Hp. split; [now split|]. now apply fm_none.
    + rewrite Hp. split; [now split|]. now apply fm_none.
    + destruct Hphase as [[p [Hpend [Hname Htruthy]]] [H2 H3]].
      split.
      * split; [exact Hactive|]. split; [|now split].
        left. exists p. now repeat split.
      * apply fm_timer; simpl; auto.
    + destruct Hphase as [[[p [Hpend [Hname [Htruthy Harm]]]]|Hnone] [H2 H3]];
        [congruence|].
      split; [now repeat split|]. apply fm_timer; simpl; auto.
    + destruct Hphase as [H1 [H2 H3]].
      split; [now repeat split|]. apply fm_timer; simpl; auto.
  - (* the loading effect *)
    unfold effLoading, fadeInv.
    destruct (fadePhase s) eqn:Hp.
    + destruct Hphase as [H1 [H2 [H3 H4]]]. congruence.
    + destruct Hphase as [[p [Hpend [Hname Hone]]] [Harm [[Hdue Hn]|[Hdue _]]]];
        [|congruence].
      rewrite Hpend. destruct (truthy p) eqn:Htruthy; simpl; rewrite Hp, Hpend.
      * split; [|now apply fm_none].
        split; [exact Hactive|]. split; [|split; [exact Harm|]].
        -- exists p. now repeat split.
        -- right. split; [reflexivity|]. rewrite Hn. lia.
      * split; [|now apply fm_none].
        split; [exact Hactive|]. split; [|split; [exact Harm|]].
        -- exists p. repeat split; auto. rewrite Hn. discriminate.
        -- right. split; [reflexivity|]. rewrite Hn. lia.
    + destruct Hphase as [_ [_ H3]]. congruence.
    + destruct Hphase as [_ [_ H3]]. congruence.
    + destruct Hphase as [_ [_ H3]]. congruence.
  - (* the end of the preload *)
    apply Nat.ltb_lt in Hen.
    unfold preloadDone, setFadePhase, fadeInv. simpl.
    destruct (fadePhase s) eqn:Hp; simpl.
    + destruct Hphase as [_ [H2 _]]. lia.
    + destruct Hphase
        as [[p [Hpend [Hname Hone]]] [Harm [[Hdue Hn]|[Hdue Hn]]]];
        [lia|].
      assert (Hn1 : preloadsInFlight s = 1%nat) by lia.
      split.
      * split; [exact Hactive|]. rewrite Hn1. simpl.
        split; [|now split]. exists p. repeat split; auto.
      * apply fm_loaded; simpl; auto.
    + destruct Hphase as [_ [H2 _]]. lia.
    + destruct Hphase as [_ [H2 _]]. lia.
    + destruct Hphase as [_ [H2 _]]. lia.
  - (* the reset effect *)
    rewrite (effActiveExists_noop s (conj Hactive Hphase)).
    split; [exact (conj Hactive Hphase)|]. now apply fm_none.
Qed.

Lemma reachable_fadeInv s : reachable s -> fadeInv s.
Proof.
  induction 1 as [mobile|s s' _ IH Hstep].
  - apply fadeInv_initial.
  - exact (proj1 (step_fade s s' IH Hstep)).
Qed.

(** Between frames nothing moves the ring or the recorded click index, so
    the recorded index is always the one of the ring's rotation. *)
Lemma handle_ring e s s' :
  e <> Frame ->
  handle e s = Some s' ->
  ringRotation s' = ringRotation s
  /\ lastClickIndexRef s' = lastClickIndexRef s.
Proof.
  intros He Hh. destruct e; try congruence; simpl in Hh.
  - unfold handlePointerDown in Hh. revert Hh. split_cases; intros Hh;
      inversion Hh; subst; split; reflexivity.
  - inversion Hh; subst. unfold handlePointerMove.
    split_cases; split; reflexivity.
  - unfold handlePointerUp in Hh.
    destruct (isDragging s); simpl in Hh; [|now inversion Hh].
    destruct (clickStartRef s) as [start|], (isDialVisible s),
      (nearestItemAngle (targetRotation s)) as [snapped|];
      inversion Hh; subst; split; reflexivity.
  - inversion Hh; subst. unfold handleWheel. split_cases; split; reflexivity.
  - inversion Hh; subst. split; reflexivity.
  - inversion Hh; subst. unfold handlePointerLeave, hideRingAfterDelay.
    split_cases; split; reflexivity.
  - inversion Hh; subst. split; reflexivity.
  - inversion Hh; subst.
    unfold handleSelectedCircleLeave, hideRingAfterDelay.
    split_cases; split; reflexivity.
  - inversion Hh; subst. split; reflexivity.
  - inversion Hh; subst. split; reflexivity.
  - inversion Hh; subst. split; reflexivity.
  - inversion Hh; subst. unfold effSnap. split_cases; split; reflexivity.
  - inversion Hh; subst.
    unfold effTransition, startTransition, setFadePhase, setPendingSet.
    split_cases; split; reflexivity.
  - inversion Hh; subst. unfold effFade, setPendingSet, setActiveSet.
    split_cases; split; reflexivity.
  - inversion Hh; subst. unfold fadeTimerFire, setFadePhase.
    split_cases; split; reflexivity.
  - inversion Hh; subst. unfold effLoading. split_cases; split; reflexivity.
  - inversion Hh; subst. unfold preloadDone, setFadePhase.
    split_cases; split; reflexivity.
  - inversion Hh; subst. unfold effActiveExists, setFadePhase, setActiveSet.
    split_cases; split; reflexivity.
  - inversion Hh; subst. split; reflexivity.
Qed.

Lemma reachable_lastClickIndex s :
  reachable s -> lastClickIndexRef s = Some (clickIndexOf (ringRotation s)).
Proof.
  induction 1 as [mobile|s s' _ IH [e Hen Hh]]; [reflexivity|].
  destruct e;
    try (match type of Hh with
         | handle ?ev _ = _ =>
             destruct (handle_ring ev s s' ltac:(discriminate) Hh) as [Hr Hl]
         end; rewrite Hr, Hl; exact IH).
  simpl in Hh. injection Hh as <-.
  rewrite animate_ringRotation. unfold animate.
  now rewrite checkAndPlayTick_last.
Qed.

(** Only an accepted pointer-down begins a drag, and it needs an item. *)
Lemma handle_isDragging e s s' :
  enabled e s = true ->
  handle e s = Some s' ->
  isDragging s = false ->
  isDragging s' = true ->
  (0 < itemCount)%Z.
Proof.
  intros Hen Hh Hd Hd'. destruct e; simpl in Hh, Hen.
  - apply andb_prop in Hen. destruct Hen as [Hen _].
    apply andb_prop in Hen. destruct Hen as [H0 H1].
    apply Z.leb_le in H0. apply Z.ltb_lt in H1. lia.
  - exfalso. inversion Hh; subst. revert Hd'. unfold handlePointerMove.
    rewrite Hd. congruence.
  - exfalso. unfold handlePointerUp in Hh. rewrite Hd in Hh. simpl in Hh.
    congruence.
  - exfalso. inversion Hh; subst. revert Hd'. unfold handleWheel.
    split_cases; simpl; congruence.
  - exfalso. inversion Hh; subst. simpl in Hd'. congruence.
  - exfalso. inversion Hh; subst. revert Hd'.
    unfold handlePointerLeave, hideRingAfterDelay.
    split_cases; simpl; congruence.
  - exfalso. inversion Hh; subst. simpl in Hd'. congruence.
  - exfalso. inversion Hh; subst. revert Hd'.
    unfold handleSelectedCircleLeave, hideRingAfterDelay.
    split_cases; simpl; congruence.
  - exfalso. inversion Hh; subst. simpl in Hd'. congruence.
  - exfalso. inversion Hh; subst. simpl in Hd'. congruence.
  - exfalso. inversion Hh; subst. simpl in Hd'. congruence.
  - exfalso. inversion Hh; subst. revert Hd'.
    unfold animate, checkAndPlayTick. split_cases; simpl; congruence.
  - exfalso. inversion Hh; subst. revert Hd'. unfold effSnap.
    split_cases; simpl; congruence.
  - exfalso. inversion Hh; subst. revert Hd'.
    unfold effTransition, startTransition, setFadePhase, setPendingSet.
    split_cases; simpl; congruence.
  - exfalso. inversion Hh; subst. revert Hd'.
    unfold effFade, setPendingSet, setActiveSet.
    split_cases; simpl; congruence.
  - exfalso. inversion Hh; subst. revert Hd'.
    unfold fadeTimerFire, setFadePhase. split_cases; simpl; congruence.
  - exfalso. inversion Hh; subst. revert Hd'. unfold effLoading.
    split_cases; simpl; congruence.
  - exfalso. inversion Hh; subst. revert Hd'.
    unfold preloadDone, setFadePhase. split_cases; simpl; congruence.
  - exfalso. inversion Hh; subst. revert Hd'.
    unfold effActiveExists, setFadePhase, setActiveSet.
    split_cases; simpl; congruence.
  - exfalso. inversion Hh; subst. simpl in Hd'. congruence.
Qed.

(** Without items no drag ever begins, so the pointer-up and the snap
    effect never reach their division by [anglePerItem]. *)
Lemma reachable_no_items s :
  itemCount = 0%Z ->
  reachable s ->
  isDragging s = false /\ handlePointerUp s = Some s /\ effSnap s = s.
Proof.
  intros HN Hreach.
  assert (Hd : isDragging s = false).
  { induction Hreach as [mobile|s s' _ IH [e Hen Hh]]; [reflexivity|].
    destruct (isDragging s') eqn:Hd'; [|reflexivity].
    pose proof (handle_isDragging e s s' Hen Hh IH Hd'). lia. }
  split; [exact Hd|]. split.
  - unfold handlePointerUp. now rewrite Hd.
  - unfold effSnap. rewrite HN. now rewrite andb_false_r.
Qed.



(** *** The selected item and the layout *)

(** The index at the bottom in closed form: the normalisation of the
    rotation before the rounding makes no difference. *)
Lemma indexAtBottom_closed rotation :
  (0 < itemCount)%Z ->
  indexAtBottom rotation
  = Some (js_round (rotation / anglePerItem) mod itemCount)%Z.
Proof.
  intros HN. pose proof (anglePerItem_pos HN) as Hpos.
  unfold indexAtBottom.
  destruct (Z.eqb_spec itemCount 0) as [|_]; [lia|].
  unfold div_checked. destruct (Req_dec_T anglePerItem 0); [lra|].
  fold (normalizeIndex (js_round (wrap rotation (2 * PI) / anglePerItem))).
  rewrite normalizeIndex_some by assumption. f_equal.
  rewrite wrap_floor by exact two_PI_pos.
  set (m := js_floor (rotation / (2 * PI))).
  assert (Hturn : 2 * PI = IZR itemCount * anglePerItem).
  { unfold anglePerItem. destruct (Z.ltb_spec 0 itemCount); [|lia].
    field. apply not_0_IZR. lia. }
  replace ((rotation - 2 * PI * IZR m) / anglePerItem)
    with (rotation / anglePerItem + IZR (- (itemCount * m))).
  2:{ rewrite opp_IZR, mult_IZR. rewrite Hturn at 1. field. lra. }
  rewrite round_add_IZR.
  replace (js_round (rotation / anglePerItem) + - (itemCount * m))%Z
    with (js_round (rotation / anglePerItem) + (- m) * itemCount)%Z by ring.
  apply Z.mod_add. lia.
Qed.

Lemma full_turn_items :
  (0 < itemCount)%Z -> 2 * PI = IZR itemCount * anglePerItem.
Proof.
  intros HN. unfold anglePerItem. destruct (Z.ltb_spec 0 itemCount); [|lia].
  field. apply not_0_IZR. lia.
Qed.

(** On a rotation within half an item angle of an item, that item is at the
    bottom. *)
Lemma indexAtBottom_near n e :
  (0 < itemCount)%Z ->
  - (anglePerItem / 2) <= e < anglePerItem / 2 ->
  indexAtBottom (IZR n * anglePerItem + e) = Some (n mod itemCount)%Z.
Proof.
  intros HN He. pose proof (anglePerItem_pos HN) as Hpos.
  rewrite indexAtBottom_closed by assumption. do 2 f_equal.
  apply round_unique.
  replace ((IZR n * anglePerItem + e) / anglePerItem)
    with (IZR n + e / anglePerItem) by (field; lra).
  assert (- (1 / 2) <= e / anglePerItem < 1 / 2).
  { split; [apply div_lower | apply div_upper]; lra. }
  lra.
Qed.

Lemma cos_turns x (k : Z) : cos (x + IZR k * (2 * PI)) = cos x.
Proof.
  destruct (Z_le_gt_dec 0 k) as [Hk|Hk].
  - rewrite <- (cos_period x (Z.to_nat k)).
    rewrite INR_IZR_INZ, Z2Nat.id by lia. f_equal. ring.
  - rewrite <- (cos_period (x + IZR k * (2 * PI)) (Z.to_nat (- k))).
    rewrite INR_IZR_INZ, Z2Nat.id by lia. rewrite opp_IZR. f_equal. ring.
Qed.

Lemma sin_turns x (k : Z) : sin (x + IZR k * (2 * PI)) = sin x.
Proof.
  destruct (Z_le_gt_dec 0 k) as [Hk|Hk].
  - rewrite <- (sin_period x (Z.to_nat k)).
    rewrite INR_IZR_INZ, Z2Nat.id by lia. f_equal. ring.
  - rewrite <- (sin_period (x + IZR k * (2 * PI)) (Z.to_nat (- k))).
    rewrite INR_IZR_INZ, Z2Nat.id by lia. rewrite opp_IZR. f_equal. ring.
Qed.

(** The container's rotation turns the angle of an item by [- ringRotation]. *)
Lemma itemOnScreen_angle index s :
  itemOnScreen index s
  = (BUTTON_CIRCLE_RADIUS * cos (itemAngle index - ringRotation s),
     BUTTON_CIRCLE_RADIUS * sin (itemAngle index - ringRotation s)).
Proof.
  unfold itemOnScreen, cssRotate, itemX, itemY. cbn [fst snd].
  unfold Rminus at 2 3. rewrite cos_plus, sin_plus. f_equal; ring.
Qed.

(** X1: with items, the selected index is the item drawn nearest to the
    slot at the bottom of the ring: its angle on screen is within half an
    item angle of the bottom, no item at any number of turns is nearer, and
    when the ring stands on the item's angle the item is drawn on the slot. *)
Theorem selected_item_is_nearest_the_slot (s : State) :
  (0 < itemCount)%Z ->
  exists i delta,
    selectedIndex s = Some i
    /\ (0 <= i < itemCount)%Z
    /\ - (anglePerItem / 2) < delta <= anglePerItem / 2
    /\ itemOnScreen i s
       = (BUTTON_CIRCLE_RADIUS * cos (PI / 2 + delta),
          BUTTON_CIRCLE_RADIUS * sin (PI / 2 + delta))
    /\ (forall j k : Z,
          Rabs delta
          <= Rabs (IZR j * anglePerItem - ringRotation s + IZR k * (2 * PI)))
    /\ (delta = 0 -> itemOnScreen i s = slotPosition).
Proof.
  intros HN. pose proof (anglePerItem_pos HN) as Hpos.
  pose proof (full_turn_items HN) as Hturn.
  set (x := ringRotation s). set (t := x / anglePerItem).
  set (raw := js_round t).
  exists (raw mod itemCount)%Z, ((IZR raw - t) * anglePerItem).
  assert (Hx : x = t * anglePerItem) by (unfold t; field; lra).
  pose proof (round_bounds t) as Hb. fold raw in Hb.
  assert (Hscreen :
    itemOnScreen (raw mod itemCount) s
    = (BUTTON_CIRCLE_RADIUS * cos (PI / 2 + (IZR raw - t) * anglePerItem),
       BUTTON_CIRCLE_RADIUS * sin (PI / 2 + (IZR raw - t) * anglePerItem))).
  { rewrite itemOnScreen_angle. fold x. unfold itemAngle.
    pose proof (Z.div_mod raw itemCount ltac:(lia)) as Hdm.
    assert (Hi : IZR (raw mod itemCount)
                 = IZR raw - IZR itemCount * IZR (raw / itemCount)).
    { rewrite <- mult_IZR, <- minus_IZR. f_equal. lia. }
    replace (IZR (raw mod itemCount) * anglePerItem + PI / 2 - x)
      with (PI / 2 + (IZR raw - t) * anglePerItem
            + IZR (- (raw / itemCount)) * (2 * PI)).
    2:{ rewrite Hi, opp_IZR, Hturn. rewrite Hx. ring. }
    now rewrite cos_turns, sin_turns. }
  split; [|split; [|split; [|split; [|split]]]].
  - unfold selectedIndex. fold x. now rewrite indexAtBottom_closed.
  - apply Z.mod_pos_bound. lia.
  - split; nra.
  - exact Hscreen.
  - intros j k.
    replace (IZR j * anglePerItem - x + IZR k * (2 * PI))
      with ((IZR (j + k * itemCount) - t) * anglePerItem).
    2:{ rewrite plus_IZR, mult_IZR, Hturn. rewrite Hx. ring. }
    rewrite !Rabs_mult. apply Rmult_le_compat_r; [apply Rabs_pos|].
    apply round_nearest.
  - intros H0. rewrite Hscreen, H0, Rplus_0_r, cos_PI2, sin_PI2.
    unfold slotPosition. f_equal; ring.
Qed.

(** *** The component at rest *)



Lemma initial_round (n : Z) :
  (0 < itemCount)%Z -> js_round (IZR n * anglePerItem / anglePerItem) = n.
Proof.
  intros HN. pose proof (anglePerItem_pos HN).
  replace (IZR n * anglePerItem / anglePerItem) with (IZR n) by (field; lra).
  apply round_IZR.
Qed.


(** *** Where the target lands *)

Lemma anglePerItem_lower :
  (0 < itemCount <= 600)%Z -> 1 / 100 < anglePerItem.
Proof.
  intros [HN Hmax]. pose proof (full_turn_items HN) as Hturn.
  pose proof (anglePerItem_pos HN) as Hpos. pose proof PI2_3_2 as Hpi.
  apply IZR_le in Hmax. apply IZR_lt in HN. nra.
Qed.

(** The snap effect leaves a target alone that is on an item angle or
    within a thousandth of one. *)
Lemma effSnap_near n e s :
  (0 < itemCount <= 600)%Z ->
  targetRotation s = IZR n * anglePerItem + e ->
  Rabs e < 1 / 1000 ->
  effSnap s = s.
Proof.
  intros HN HT He. pose proof (anglePerItem_lower HN) as Ha.
  unfold effSnap. destruct (negb (isDragging s) && (0 <? itemCount)%Z);
    [|reflexivity].
  rewrite nearestItemAngle_some by lia.
  assert (Hround : js_round (targetRotation s / anglePerItem) = n).
  { apply round_unique. rewrite HT.
    replace ((IZR n * anglePerItem + e) / anglePerItem)
      with (IZR n + e / anglePerItem) by (field; lra).
    apply Rabs_def2 in He.
    assert (- (1 / 2) <= e / anglePerItem < 1 / 2).
    { split; [apply div_lower | apply div_upper]; lra. }
    lra. }
  rewrite Hround, HT. unfold gtb.
  destruct (ltb_false (SNAP_THRESHOLD * anglePerItem)
              (Rabs (IZR n * anglePerItem + e - IZR n * anglePerItem)))
    as [_ Hf].
  rewrite Hf; [reflexivity|].
  replace (IZR n * anglePerItem + e - IZR n * anglePerItem) with e by ring.
  unfold SNAP_THRESHOLD. lra.
Qed.

(** X3: with at most 600 items, the release of a click on an item puts the
    target within a thousandth of a radian of an angle of that item, the
    snap effect leaves it there, and the index on which the rotation will
    settle is the clicked one. *)
Theorem click_selects_the_clicked_item (s : State) (start : ClickStart) :
  (0 < itemCount <= 600)%Z ->
  isDragging s = true ->
  clickStartRef s = Some start ->
  isDialVisible s = true ->
  exists s' (n : Z) (e : R),
    handlePointerUp s = Some s'
    /\ targetRotation s' = IZR n * anglePerItem + e
    /\ (n mod itemCount = cs_index start mod itemCount)%Z
    /\ Rabs e < 1 / 1000
    /\ finalSelectedIndex s' = Some (cs_index start mod itemCount)%Z
    /\ effSnap s' = s'.
Proof.
  intros HN Hdrag Hclick Hvis.
  assert (HN0 : (0 < itemCount)%Z) by lia.
  pose proof (anglePerItem_lower HN) as Ha.
  pose proof (full_turn_items HN0) as Hturn.
  destruct (handlePointerUp_click s start Hdrag Hclick Hvis)
    as [s' [Hup [HT _]]].
  set (T := targetRotation s) in *. set (idx := cs_index start) in *.
  destruct (shortestPath_congruent T idx) as [k Hk].
  pose proof (shortestPath_range T idx) as Hrange.
  assert (Hland : exists n e,
            targetRotation s' = IZR n * anglePerItem + e
            /\ (n mod itemCount = idx mod itemCount)%Z
            /\ Rabs e < 1 / 1000).
  { rewrite HT. unfold clickDiff.
    set (sp := shortestPath T idx) in *.
    destruct (ltb (Rabs (Rabs sp - PI)) (1 / 1000)) eqn:Htie.
    - apply ltb_true in Htie. apply Rabs_def2 in Htie.
      destruct (Rle_dec 0 sp) as [Hsp|Hsp].
      + rewrite Rabs_pos_eq in Htie by assumption.
        exists (idx + k * itemCount)%Z, (PI - sp). split; [|split].
        * rewrite plus_IZR, mult_IZR. rewrite Hk. rewrite Hturn. ring.
        * apply Z.mod_add. lia.
        * apply Rabs_def1; lra.
      + rewrite Rabs_left in Htie by lra.
        exists (idx + (k + 1) * itemCount)%Z, (- PI - sp). split; [|split].
        * rewrite plus_IZR, mult_IZR, plus_IZR. rewrite Hk.
          replace ((IZR idx + (IZR k + 1) * IZR itemCount) * anglePerItem)
            with (IZR idx * anglePerItem + (IZR k + 1) * (2 * PI))
            by (rewrite Hturn; ring).
          ring.
        * apply Z.mod_add. lia.
        * apply Rabs_def1; lra.
    - exists (idx + k * itemCount)%Z, 0. split; [|split].
      + rewrite plus_IZR, mult_IZR. rewrite Hk. rewrite Hturn. ring.
      + apply Z.mod_add. lia.
      + rewrite Rabs_R0. lra. }
  destruct Hland as [n [e [Hn [Hmod He]]]].
  exists s', n, e. repeat split; try assumption.
  - unfold finalSelectedIndex. rewrite Hn, <- Hmod.
    apply indexAtBottom_near; [lia|]. apply Rabs_def2 in He. lra.
  - now apply (effSnap_near n e).
Qed.

(** X4: the snap effect is idempotent, it never changes the index on which
    the rotation will settle, it touches nothing but the target, and with
    items and no drag in progress it leaves the target within a tenth of an
    item angle of an item angle. *)
Theorem snap_effect_settles (s : State) :
  effSnap (effSnap s) = effSnap s
  /\ finalSelectedIndex (effSnap s) = finalSelectedIndex s
  /\ set_targetRotation (targetRotation (effSnap s)) s = effSnap s
  /\ (isDragging s = false ->
      (0 < itemCount)%Z ->
      exists n : Z,
        Rabs (targetRotation (effSnap s) - IZR n * anglePerItem)
        <= SNAP_THRESHOLD * anglePerItem).
Proof.
  assert (Hsame : set_targetRotation (targetRotation s) s = s)
    by now destruct s.
  unfold effSnap at 2 3 4 5 6 7.
  destruct (negb (isDragging s) && (0 <? itemCount)%Z) eqn:Hguard.
  2:{ repeat split; try assumption.
      - unfold effSnap. now rewrite Hguard.
      - intros Hd HN. rewrite Hd in Hguard.
        destruct (Z.ltb_spec 0 itemCount); [discriminate | lia]. }
  apply andb_prop in Hguard. destruct Hguard as [Hd HN].
  apply negb_true_iff in Hd. apply Z.ltb_lt in HN.
  pose proof (anglePerItem_pos HN) as Hpos.
  rewrite nearestItemAngle_some by assumption.
  set (n := js_round (targetRotation s / anglePerItem)).
  unfold gtb.
  destruct (ltb (SNAP_THRESHOLD * anglePerItem)
              (Rabs (targetRotation s - IZR n * anglePerItem))) eqn:Hfar.
  - (* the target is moved onto the item angle *)
    split; [|split; [|split]].
    + unfold effSnap. cbn [isDragging set_targetRotation targetRotation].
      rewrite Hd. destruct (Z.ltb_spec 0 itemCount); [|lia]. simpl.
      rewrite nearestItemAngle_some, initial_round by assumption.
      match goal with
      | |- context [Rabs ?z] => replace z with 0 by (unfold n; ring)
      end.
      rewrite Rabs_R0. unfold gtb.
      destruct (ltb_false (SNAP_THRESHOLD * anglePerItem) 0) as [_ Hf].
      rewrite Hf; [reflexivity|]. unfold SNAP_THRESHOLD. lra.
    + unfold finalSelectedIndex. cbn [set_targetRotation targetRotation].
      rewrite !indexAtBottom_closed by assumption.
      rewrite initial_round by assumption. reflexivity.
    + reflexivity.
    + intros _ _. exists n. cbn [set_targetRotation targetRotation].
      rewrite Rminus_diag, Rabs_R0. unfold SNAP_THRESHOLD. lra.
  - (* the target is near enough and stays *)
    split; [|split; [|split]].
    + unfold effSnap. rewrite Hd. destruct (Z.ltb_spec 0 itemCount); [|lia].
      simpl. rewrite nearestItemAngle_some by assumption. fold n.
      unfold gtb. now rewrite Hfar.
    + reflexivity.
    + exact Hsame.
    + intros _ _. exists n. now apply ltb_false in Hfar.
Qed.

(** X5: a wheel event on a started, idle component whose target stands on
    an item angle moves the target by [0.003 deltaY]; the snap effect that
    follows lets the target stand where it is within a tenth of an item
    angle of an item angle, and otherwise puts it on the nearest one: a
    move of more than a tenth and less than half an item angle is undone. *)
Theorem wheel_is_snapped_to_an_item (s : State) (n : Z) (deltaY : R) :
  audioStarted s = true ->
  fadePhase s = Idle ->
  isDragging s = false ->
  (0 < itemCount)%Z ->
  targetRotation s = IZR n * anglePerItem ->
  let d := deltaY * (3 / 1000) in
  let r := js_round (d / anglePerItem) in
  let rest := d - IZR r * anglePerItem in
  let s' := effSnap (handleWheel deltaY s) in
  targetRotation (handleWheel deltaY s) = targetRotation s + d
  /\ (Rabs rest <= SNAP_THRESHOLD * anglePerItem ->
      targetRotation s' = targetRotation s + d)
  /\ (SNAP_THRESHOLD * anglePerItem < Rabs rest ->
      targetRotation s' = IZR (n + r) * anglePerItem)
  /\ (SNAP_THRESHOLD * anglePerItem < Rabs d ->
      - (anglePerItem / 2) <= d < anglePerItem / 2 ->
      targetRotation s' = targetRotation s)
  /\ finalSelectedIndex s' = Some ((n + r) mod itemCount)%Z.
Proof.
  intros Hstart Hidle Hdrag HN HT d r rest s'.
  pose proof (anglePerItem_pos HN) as Hpos.
  assert (Hwheel : handleWheel deltaY s
                   = set_targetRotation (targetRotation s + d) s).
  { unfold handleWheel. now rewrite Hstart, Hidle. }
  assert (Hround : js_round ((targetRotation s + d) / anglePerItem)
                   = (n + r)%Z).
  { rewrite HT.
    replace ((IZR n * anglePerItem + d) / anglePerItem)
      with (d / anglePerItem + IZR n) by (field; lra).
    rewrite round_add_IZR. unfold r. lia. }
  assert (Hrest : targetRotation s + d - IZR (n + r) * anglePerItem = rest).
  { rewrite HT, plus_IZR. unfold rest. ring. }
  assert (Hsnap :
    targetRotation s'
    = if ltb (SNAP_THRESHOLD * anglePerItem) (Rabs rest)
      then IZR (n + r) * anglePerItem
      else targetRotation s + d).
  { unfold s', effSnap. rewrite Hwheel.
    cbn [isDragging set_targetRotation targetRotation]. rewrite Hdrag.
    destruct (Z.ltb_spec 0 itemCount); [|lia]. simpl.
    rewrite nearestItemAngle_some, Hround, Hrest by assumption. unfold gtb.
    now destruct (ltb (SNAP_THRESHOLD * anglePerItem) (Rabs rest)). }
  split; [|split; [|split; [|split]]].
  - now rewrite Hwheel.
  - intros Hnear. rewrite Hsnap.
    destruct (ltb_false (SNAP_THRESHOLD * anglePerItem) (Rabs rest))
      as [_ Hf].
    now rewrite Hf.
  - intros Hfar. rewrite Hsnap.
    destruct (ltb_true (SNAP_THRESHOLD * anglePerItem) (Rabs rest))
      as [_ Ht].
    now rewrite Ht.
  - intros Hfar Hhalf.
    assert (Hr0 : r = 0%Z).
    { apply round_unique. simpl.
      assert (- (1 / 2) <= d / anglePerItem < 1 / 2).
      { split; [apply div_lower | apply div_upper]; lra. }
      lra. }
    assert (Hrd : rest = d) by (unfold rest; rewrite Hr0; simpl; ring).
    rewrite Hsnap, Hrd.
    destruct (ltb_true (SNAP_THRESHOLD * anglePerItem) (Rabs d)) as [_ Ht].
    rewrite Ht, Hr0, Z.add_0_r by assumption. now rewrite HT.
  - unfold finalSelectedIndex. rewrite indexAtBottom_closed by assumption.
    do 2 f_equal. rewrite Hsnap.
    destruct (ltb (SNAP_THRESHOLD * anglePerItem) (Rabs rest)).
    + now apply initial_round.
    + exact Hround.
Qed.

(** *** Dragging *)

Lemma atan2_range y x : - PI < atan2 y x <= PI.
Proof.
  pose proof PI_RGT_0 as Hpi. unfold atan2.
  destruct (Rlt_dec 0 x) as [Hx|Hx].
  - pose proof (atan_bound (y / x)). lra.
  - destruct (Rlt_dec x 0) as [Hx'|Hx'].
    + pose proof (atan_bound (y / x)) as Hb.
      destruct (Rle_dec 0 y) as [Hy|Hy].
      * assert (Hq : y / x <= 0).
        { unfold Rdiv.
          assert (/ x < 0) by now apply Rinv_lt_0_compat. nra. }
        assert (atan (y / x) <= 0).
        { destruct Hq as [Hq|Hq].
          - pose proof (atan_increasing _ _ Hq). rewrite atan_0 in *. lra.
          - rewrite Hq, atan_0. lra. }
        lra.
      * assert (Hq : 0 < y / x).
        { unfold Rdiv. assert (/ x < 0) by now apply Rinv_lt_0_compat. nra. }
        pose proof (atan_increasing _ _ Hq). rewrite atan_0 in *. lra.
    + destruct (Rlt_dec 0 y); [lra|]. destruct (Rlt_dec y 0); lra.
Qed.

Lemma getPointerAngle_range x y : - PI <= getPointerAngle x y <= PI.
Proof.
  pose proof PI_RGT_0. unfold getPointerAngle.
  destruct ringCenter as [[centerX centerY]|]; [|lra].
  pose proof (atan2_range (y - centerY) (x - centerX)). lra.
Qed.

(** One move of a drag: the target goes against the pointer by the angle
    the pointer has turned, brought into [[-PI, PI]]. *)
Lemma handlePointerMove_drag x y s a0 :
  isDragging s = true ->
  dragStartRef s = Some a0 ->
  let cur := getPointerAngle x y in
  let s' := handlePointerMove x y s in
  isDragging s' = true
  /\ dragStartRef s' = Some cur
  /\ (exists k : Z,
        targetRotation s' = targetRotation s - (cur - a0) + IZR k * (2 * PI))
  /\ (- PI <= a0 <= PI -> Rabs (targetRotation s' - targetRotation s) <= PI)
  /\ (cur = a0 -> targetRotation s' = targetRotation s).
Proof.
  intros Hd Ha cur s'. pose proof PI_RGT_0 as Hpi.
  pose proof (getPointerAngle_range x y) as Hcur. fold cur in Hcur.
  assert (Hs' : isDragging s' = true /\ dragStartRef s' = Some cur
                /\ targetRotation s'
                   = targetRotation s
                     - (let delta := cur - a0 in
                        let delta :=
                          if gtb delta PI then delta - 2 * PI else delta in
                        if ltb delta (- PI) then delta + 2 * PI else delta)).
  { unfold s', handlePointerMove. rewrite Hd, Ha. fold cur.
    destruct (clickStartRef s) as [start|];
      [destruct (gtb (displacement start x y) 5)|];
      repeat split; assumption. }
  destruct Hs' as [H1 [H2 H3]].
  split; [exact H1|]. split; [exact H2|]. rewrite H3. cbv zeta.
  unfold gtb.
  destruct (ltb PI (cur - a0)) eqn:Hup.
  - apply ltb_true in Hup.
    destruct (ltb (cur - a0 - 2 * PI) (- PI)) eqn:Hlow.
    + apply ltb_true in Hlow. split; [|split].
      * exists 0%Z. simpl. lra.
      * intros Hr. lra.
      * intros He. lra.
    + apply ltb_false in Hlow. split; [|split].
      * exists 1%Z. simpl. lra.
      * intros Hr. apply Rabs_le. lra.
      * intros He. lra.
  - apply ltb_false in Hup.
    destruct (ltb (cur - a0) (- PI)) eqn:Hlow.
    + apply ltb_true in Hlow. split; [|split].
      * exists (-1)%Z. simpl. lra.
      * intros Hr. apply Rabs_le. lra.
      * intros He. lra.
    + apply ltb_false in Hlow. split; [|split].
      * exists 0%Z. simpl. lra.
      * intros Hr. apply Rabs_le. lra.
      * intros He. lra.
Qed.

Lemma lastAngleOf_range moves : forall a0,
  - PI <= a0 <= PI -> - PI <= lastAngleOf a0 moves <= PI.
Proof.
  induction moves as [|m rest IH]; intros a0 Ha; [exact Ha|].
  apply IH. apply getPointerAngle_range.
Qed.

(** X6: over the moves of a drag the target follows the pointer: it ends
    at the start minus the angle the pointer has turned about the centre of
    the ring, up to whole turns; the angle of the last move is the one
    remembered; a single move never changes the target by more than half a
    turn; and while the ring is not attached, all angles being [0], the
    target does not move. *)
Theorem drag_follows_the_pointer
    (s : State) (a0 : R) (moves : list (R * R)) :
  isDragging s = true ->
  dragStartRef s = Some a0 ->
  let s' := feedMoves moves s in
  (exists k : Z,
     targetRotation s'
     = targetRotation s - (lastAngleOf a0 moves - a0) + IZR k * (2 * PI))
  /\ dragStartRef s' = Some (lastAngleOf a0 moves)
  /\ isDragging s' = true
  /\ (- PI <= a0 <= PI ->
      forall x y,
        Rabs (targetRotation (handlePointerMove x y s') - targetRotation s')
        <= PI)
  /\ (ringCenter = None -> a0 = 0 -> targetRotation s' = targetRotation s).
Proof.
  revert s a0. induction moves as [|[x y] rest IH]; intros s a0 Hd Ha s'.
  - unfold s'. cbn [feedMoves fold_left lastAngleOf].
    split; [|split; [|split; [|split]]]; try assumption.
    + exists 0%Z. simpl. lra.
    + intros Hr x y.
      now destruct (handlePointerMove_drag x y s a0 Hd Ha)
        as [_ [_ [_ [Hb _]]]]; apply Hb.
    + reflexivity.
  - destruct (handlePointerMove_drag x y s a0 Hd Ha)
      as [Hd1 [Ha1 [[k1 Hk1] [_ Hsame]]]].
    specialize (IH (handlePointerMove x y s) (getPointerAngle x y) Hd1 Ha1).
    cbv zeta in IH. destruct IH as [[k Hk] [Hlast [Hdrag [Hbound Hnone]]]].
    assert (Hs' : s' = feedMoves rest (handlePointerMove x y s))
      by reflexivity.
    assert (Hl : lastAngleOf a0 ((x, y) :: rest)
                 = lastAngleOf (getPointerAngle x y) rest) by reflexivity.
    rewrite Hs', Hl. split; [|split; [|split; [|split]]]; try assumption.
    + exists (k + k1)%Z. rewrite Hk, Hk1, plus_IZR. ring.
    + intros _. apply Hbound. apply getPointerAngle_range.
    + intros Hc H0.
      assert (Hcur : getPointerAngle x y = 0)
        by (unfold getPointerAngle; now rewrite Hc).
      rewrite Hnone by assumption. apply Hsame. now rewrite Hcur, H0.
Qed.

(** *** The press *)

(** X7: an item that the render makes draggable accepts the press: the
    handler's own guards pass, the drag begins with the click record, the
    pointer angle and the selected index of the moment stored, and the dial
    is visible afterwards. *)
Theorem draggable_item_accepts_the_press
    (x y : R) (index : Z) (s : State) :
  enabled (PointerDown x y index) s = true ->
  exists s1,
    handle (PointerDown x y index) s = Some s1
    /\ (0 <= index < itemCount)%Z
    /\ fadePhase s = Idle
    /\ isDragging s1 = true
    /\ clickStartRef s1 = Some (mkClickStart x y index)
    /\ dragStartRef s1 = Some (getPointerAngle x y)
    /\ dragStartIndexRef s1 = selectedIndex s
    /\ targetRotation s1 = targetRotation s
    /\ isDialVisible s1 = true.
Proof.
  cbn [enabled handle]. intros Hen.
  apply andb_prop in Hen. destruct Hen as [Hen Hdrag].
  apply andb_prop in Hen. destruct Hen as [Hlo Hhi].
  apply Z.leb_le in Hlo. apply Z.ltb_lt in Hhi.
  unfold isDraggable in Hdrag.
  destruct (audioStarted s) eqn:Hstart; [|discriminate].
  destruct (FadePhase_eqb_spec (fadePhase s) Idle) as [Hidle|];
    [|discriminate].
  cbn [andb] in Hdrag.
  destruct (indexAtBottom_total (ringRotation s)) as [i [Hi _]].
  unfold handlePointerDown. rewrite Hstart, Hidle. cbn [negb orb FadePhase_eqb].
  unfold groupVisible in Hdrag. rewrite Hstart, Hidle in Hdrag.
  cbn [andb FadePhase_eqb] in Hdrag.
  destruct (isAtBottom index s) eqn:Hbottom; cbn [negb andb orb] in *.
  - unfold selectedIndex. rewrite Hi. eexists. split; [reflexivity|].
    repeat split; try lia; try assumption.
  - destruct (isDialVisible s) eqn:Hvis; [|cbn in Hdrag; discriminate].
    unfold selectedIndex. rewrite Hi. eexists. split; [reflexivity|].
    repeat split; try lia; try assumption.
Qed.

(** *** Ticks *)

Lemma handle_tickCalls e s s' :
  e <> Frame -> handle e s = Some s' -> tickCalls s' = tickCalls s.
Proof.
  intros He Hh. destruct e; try congruence; simpl in Hh.
  - unfold handlePointerDown in Hh. revert Hh. split_cases; intros Hh;
      inversion Hh; subst; reflexivity.
  - inversion Hh; subst. unfold handlePointerMove.
    split_cases; reflexivity.
  - unfold handlePointerUp in Hh.
    destruct (isDragging s); simpl in Hh; [|now inversion Hh].
    destruct (clickStartRef s) as [start|], (isDialVisible s),
      (nearestItemAngle (targetRotation s)) as [snapped|];
      inversion Hh; subst; reflexivity.
  - inversion Hh; subst. unfold handleWheel. split_cases; reflexivity.
  - inversion Hh; subst. reflexivity.
  - inversion Hh; subst. unfold handlePointerLeave, hideRingAfterDelay.
    split_cases; reflexivity.
  - inversion Hh; subst. reflexivity.
  - inversion Hh; subst.
    unfold handleSelectedCircleLeave, hideRingAfterDelay.
    split_cases; reflexivity.
  - inversion Hh; subst. reflexivity.
  - inversion Hh; subst. reflexivity.
  - inversion Hh; subst. reflexivity.
  - inversion Hh; subst. unfold effSnap. split_cases; reflexivity.
  - inversion Hh; subst.
    unfold effTransition, startTransition, setFadePhase, setPendingSet.
    split_cases; reflexivity.
  - inversion Hh; subst. unfold effFade, setPendingSet, setActiveSet.
    split_cases; reflexivity.
  - inversion Hh; subst. unfold fadeTimerFire, setFadePhase.
    split_cases; reflexivity.
  - inversion Hh; subst. unfold effLoading. split_cases; reflexivity.
  - inversion Hh; subst. unfold preloadDone, setFadePhase.
    split_cases; reflexivity.
  - inversion Hh; subst. unfold effActiveExists, setFadePhase, setActiveSet.
    split_cases; reflexivity.
  - inversion Hh; subst. reflexivity.
Qed.

(** X8: in every reachable state the recorded click index is that of the
    ring's rotation, it is never null, and a step requests a tick exactly
    when it carries the ring into another click sector, one tick whatever
    the number of sectors passed; only a frame does. *)
Theorem ticks_follow_the_ring (s s' : State) :
  reachable s ->
  step s s' ->
  lastClickIndexRef s = Some (clickIndexOf (ringRotation s))
  /\ lastClickIndexRef s' = Some (clickIndexOf (ringRotation s'))
  /\ tickCalls s'
     = (tickCalls s
        + if Z.eqb (clickIndexOf (ringRotation s'))
                   (clickIndexOf (ringRotation s))
          then 0 else 1)%nat
  /\ (ringRotation s' <> ringRotation s -> s' = animate s).
Proof.
  intros Hr Hstep.
  pose proof (reachable_lastClickIndex s Hr) as Hlast.
  pose proof (reachable_lastClickIndex s'
                (reachable_step _ _ _ s s' Hr Hstep)) as Hlast'.
  split; [exact Hlast|]. split; [exact Hlast'|].
  destruct Hstep as [e Hen Hh].
  assert (Hcase : e = Frame \/ e <> Frame)
    by (destruct e; (now left) || (right; discriminate)).
  destruct Hcase as [->|Hne].
  - simpl in Hh. injection Hh as <-. split; [|reflexivity].
    rewrite animate_ringRotation. unfold animate.
    set (r := if ltb _ _ then _ else _).
    rewrite (checkAndPlayTick_calls r (set_ringRotation r s)
               (clickIndexOf (ringRotation s))) by exact Hlast.
    reflexivity.
  - destruct (handle_ring e s s' Hne Hh) as [Hring _].
    rewrite (handle_tickCalls e s s' Hne Hh), Hring, Z.eqb_refl.
    split; [lia | congruence].
Qed.

(** *** The dial during a transition *)

Lemma Event_eq_EffActiveExists e :
  e = EffActiveExists \/ e <> EffActiveExists.
Proof. destruct e; (now left) || (right; discriminate). Qed.

Lemma Event_eq_EffTransition e : e = EffTransition \/ e <> EffTransition.
Proof. destruct e; (now left) || (right; discriminate). Qed.

(** The transition effect leaves the drag and the dial alone. *)
Lemma effTransition_dial s :
  isDragging (effTransition s) = isDragging s
  /\ isDialVisible (effTransition s) = isDialVisible s
  /\ audioStartTimeoutRef (effTransition s) = audioStartTimeoutRef s.
Proof.
  assert (H : isDragging (effTransition s) = isDragging s
              /\ isHovered (effTransition s) = isHovered s
              /\ isSelectedCircleHovered (effTransition s)
                 = isSelectedCircleHovered s
              /\ showRingAfterStart (effTransition s) = showRingAfterStart s
              /\ audioStartTimeoutRef (effTransition s)
                 = audioStartTimeoutRef s).
  { unfold effTransition, startTransition, setFadePhase, setPendingSet.
    split_cases; repeat split; simpl; congruence. }
  destruct H as [H1 [H2 [H3 [H4 H5]]]]. unfold isDialVisible.
  now rewrite H1, H2, H3, H4, H5.
Qed.

Lemma effTransition_dialInv s :
  fadeInv s -> dialInv s -> dialInv (effTransition s).
Proof.
  intros [_ Hf] [Hd1 Hd2].
  destruct (effTransition_dial s) as [Hdrag [Hvis Htimer]].
  unfold dialInv, dialQuiet. rewrite Hdrag, Hvis, Htimer.
  destruct (effTransition_cases s) as [Hv|[Hidle [Hnodrag [i [set H]]]]].
  - unfold fadeView in Hv. inversion Hv as [[H1 H2 H3 H4 H5 H6]].
    rewrite H1, H4. split; assumption.
  - destruct H as [_ [_ [Hv _]]]. unfold fadeView in Hv.
    assert (H1 : fadePhase (effTransition s) = Loading) by congruence.
    assert (H4 : preloadsInFlight (effTransition s) = preloadsInFlight s)
      by congruence.
    rewrite H1, H4.
    rewrite Hidle in Hf. destruct Hf as [_ [Hn _]]. rewrite Hn.
    split; [intros _; exact Hnodrag | discriminate].
Qed.

Ltac dial_done :=
  repeat match goal with
    | H : _ /\ _ |- _ => destruct H
    | H : Some _ = Some _ |- _ => inversion H; subst; clear H
    end;
  subst; try discriminate;
  unfold dialInv, dialQuiet, isDialVisible; cbn;
  repeat match goal with
    | |- _ /\ _ => split
    | |- True => exact I
    | |- ?a <> ?a -> _ => let H := fresh in intros H; now elim H
    | |- _ -> _ => intro
    end;
  try reflexivity; try assumption; try discriminate; try congruence;
  try tauto; try solve [intuition (discriminate || congruence)].

Lemma step_dialInv s s' : fadeInv s -> dialInv s -> step s s' -> dialInv s'.
Proof.
  intros Hf Hd [e Hen Hh].
  assert (Hexists : e = EffActiveExists -> s' = s).
  { intros ->. simpl in Hh. rewrite (effActiveExists_noop s Hf) in Hh.
    congruence. }
  destruct (Event_eq_EffActiveExists e) as [He|He];
    [now rewrite (Hexists He)|].
  clear Hexists.
  destruct (Event_eq_EffTransition e) as [Ht|Ht].
  { subst e. simpl in Hh. injection Hh as <-.
    now apply effTransition_dialInv. }
  destruct s as [act pend ph hl rr mob started ring tgt drag hov selhov
                   show dsr dsi csr lci timer ticks pta led pif hed].
  unfold dialInv, dialQuiet, fadeInv, isDialVisible in Hf, Hd.
  cbn [fadePhase isDragging isHovered isSelectedCircleHovered
       showRingAfterStart audioStartTimeoutRef preloadsInFlight pendingSet
       loadingEffectDue phaseTimerArmed activeSet] in Hf, Hd.
  destruct Hf as [_ Hf]. destruct Hd as [Hd1 Hd2].
  assert (Hdrag : ph = Idle \/ drag = false).
  { destruct ph; [now left|..]; right; apply Hd1; discriminate. }
  clear Hd1.
  destruct e; cbn [enabled handle] in Hen, Hh.
  - (* pointer down *)
    apply andb_prop in Hen. destruct Hen as [_ Hen].
    unfold isDraggable in Hen. cbn in Hen.
    destruct started; [|discriminate].
    destruct ph; try discriminate.
    unfold handlePointerDown in Hh. cbn in Hh.
    revert Hh. split_cases; intros Hh; dial_done.
  - unfold handlePointerMove in Hh. cbn in Hh.
    destruct Hdrag as [->| ->]; revert Hh; split_cases; intros Hh;
      dial_done.
  - unfold handlePointerUp in Hh.
    cbn [isDragging clickStartRef targetRotation] in Hh.
    destruct Hdrag as [->| ->]; [destruct drag|]; cbn [negb] in Hh;
      try (dial_done; fail).
    destruct csr as [start|]; [destruct (isDialVisible _)|];
      try (cbn in Hh; dial_done; fail);
      destruct (nearestItemAngle tgt) as [snapped|]; cbn in Hh; dial_done.
  - (* wheel *)
    unfold groupVisible in Hen. cbn in Hen.
    destruct started; [|discriminate]. destruct ph; try discriminate.
    unfold handleWheel in Hh. dial_done.
  - destruct Hdrag as [->| ->]; [|destruct ph]; dial_done.
  - unfold handlePointerLeave, hideRingAfterDelay in Hh. cbn in Hh.
    destruct Hdrag as [->| ->]; [destruct drag|destruct ph];
      destruct hov, selhov, show; cbn in Hd2; dial_done.
  - apply andb_prop in Hen. destruct Hen as [_ Hen].
    destruct ph; try discriminate. dial_done.
  - apply andb_prop in Hen. destruct Hen as [_ Hen].
    destruct ph; try discriminate.
    unfold handleSelectedCircleLeave, hideRingAfterDelay in Hh.
    destruct drag; dial_done.
  - apply andb_prop in Hen. destruct Hen as [_ Hen].
    destruct ph; try discriminate. dial_done.
  - (* the hide timer *)
    cbn in Hen. subst timer.
    destruct Hdrag as [->| ->]; [|destruct ph]; dial_done.
  - destruct Hdrag as [->| ->]; [|destruct ph]; dial_done.
  - (* a frame *)
    unfold animate, checkAndPlayTick, playTick in Hh. cbn in Hh.
    destruct Hdrag as [->| ->]; [|destruct ph]; revert Hh; split_cases;
      intros Hh; dial_done.
  - unfold effSnap in Hh. cbn in Hh.
    destruct Hdrag as [->| ->]; [|destruct ph]; revert Hh; split_cases;
      intros Hh; dial_done.
  - now elim Ht.
  - (* the fade effect *)
    unfold effFade, setPendingSet, setActiveSet in Hh. cbn in Hh.
    destruct Hdrag as [->| ->]; [|destruct ph]; revert Hh; split_cases;
      intros Hh; dial_done.
  - (* the fade timer *)
    unfold fadeTimerFire, setFadePhase in Hh.
    destruct Hdrag as [->| ->]; [|destruct ph]; dial_done.
  - (* the loading effect *)
    unfold effLoading in Hh. cbn in Hh.
    destruct Hdrag as [->| ->]; [|destruct ph]; revert Hh; split_cases;
      intros Hh; dial_done.
  - (* the end of the preload *)
    cbn in Hen. unfold preloadDone, setFadePhase in Hh.
    destruct ph; try (dial_done; fail).
    destruct Hdrag as [Hidle| ->]; [discriminate|].
    destruct Hf as [_ [_ Hcase]].
    assert (pif = 1%nat).
    { destruct Hcase as [[_ H0]|[_ H1]].
      - subst pif. discriminate.
      - destruct pif as [|[|pif]]; [discriminate|reflexivity|lia]. }
    specialize (Hd2 H). dial_done.
  - now elim He.
  - destruct Hdrag as [->| ->]; [|destruct ph]; dial_done.
Qed.

Lemma reachable_dialInv s : reachable s -> dialInv s.
Proof.
  induction 1 as [mobile|s s' Hr IH Hstep].
  - split; [intros H; now elim H | exact I].
  - exact (step_dialInv s s' (reachable_fadeInv s Hr) IH Hstep).
Qed.

Lemma step_to_idle s s' :
  fadeInv s ->
  step s s' ->
  fadePhase s <> Idle ->
  fadePhase s' = Idle ->
  fadePhase s = FadingOut /\ s' = fadeTimerFire s.
Proof.
  intros Hinv [e Hen Hh] Hnot Hidle.
  destruct (fadeEvent e) eqn:He.
  - destruct e; try discriminate He; simpl in Hh; inversion Hh; subst.
    + exfalso. destruct (effTransition_cases s) as [Hv|[Hi _]];
        [|congruence].
      unfold fadeView in Hv. inversion Hv. congruence.
    + exfalso. revert Hidle. unfold effFade, setPendingSet, setActiveSet.
      destruct (fadePhase s) eqn:Hp; try congruence; simpl; try congruence.
      split_cases; simpl; congruence.
    + revert Hidle. unfold fadeTimerFire, setFadePhase.
      destruct (fadePhase s) eqn:Hp; try congruence; simpl; try congruence.
      intros _. split; reflexivity.
    + exfalso. revert Hidle. unfold effLoading.
      destruct (fadePhase s) eqn:Hp; try congruence;
        split_cases; simpl; congruence.
    + exfalso. revert Hidle. unfold preloadDone, setFadePhase. simpl.
      destruct (fadePhase s) eqn:Hp; try congruence; simpl; congruence.
    + exfalso. rewrite (effActiveExists_noop s Hinv) in Hidle. congruence.
  - pose proof (handle_fadeView e s s' He Hh) as Hv.
    unfold fadeView in Hv. inversion Hv. congruence.
Qed.

(** X9: while a transition runs no drag is in progress; from the moment the
    preload of the pending set is in flight until the machine is idle again
    the dial is hidden and no hide timer is pending; and the step that
    returns to idle is the fade-out timer, which leaves the dial hidden. *)
Theorem dial_is_hidden_during_a_transition (s : State) :
  reachable s ->
  (fadePhase s <> Idle -> isDragging s = false)
  /\ (fadePhase s = Loading -> preloadsInFlight s = 1%nat ->
      isDialVisible s = false /\ audioStartTimeoutRef s = false)
  /\ (fadePhase s = FadingToBlack \/ fadePhase s = Holding
      \/ fadePhase s = FadingOut ->
      isDialVisible s = false /\ audioStartTimeoutRef s = false)
  /\ (forall s',
        step s s' ->
        fadePhase s <> Idle ->
        fadePhase s' = Idle ->
        s' = fadeTimerFire s
        /\ isDialVisible s' = false
        /\ audioStartTimeoutRef s' = false
        /\ isDragging s' = false).
Proof.
  intros Hr. pose proof (reachable_dialInv s Hr) as [Hdrag Hquiet].
  pose proof (reachable_fadeInv s Hr) as Hinv.
  split; [exact Hdrag|]. split; [|split].
  - intros Hp Hn. rewrite Hp in Hquiet. exact (Hquiet Hn).
  - intros [Hp|[Hp|Hp]]; rewrite Hp in Hquiet; exact Hquiet.
  - intros s' Hstep Hnot Hidle.
    destruct (step_to_idle s s' Hinv Hstep Hnot Hidle) as [Hout ->].
    rewrite Hout in Hquiet. destruct Hquiet as [Hvis Htimer].
    split; [reflexivity|].
    unfold fadeTimerFire, setFadePhase. rewrite Hout. cbn.
    repeat split; try assumption. apply Hdrag. congruence.
Qed.

(** *** The course of a transition *)

Lemma step_loadInv s s' : fadeInv s -> loadInv s -> step s s' -> loadInv s'.
Proof.
  intros Hinv Hload [e Hen Hh].
  destruct (fadeEvent e) eqn:He.
  2:{ pose proof (handle_fadeView e s s' He Hh) as Hv.
      unfold fadeView in Hv. inversion Hv as [[H1 H2 H3 H4 H5 H6]].
      unfold loadInv. rewrite H1, H2, H4, H5. exact Hload. }
  destruct Hinv as [Hactive Hphase].
  destruct e; try discriminate He; simpl in Hh, Hen; injection Hh as <-.
  - destruct (effTransition_cases s) as [Hv|[_ [_ [i [set H]]]]].
    + unfold fadeView in Hv. inversion Hv as [[H1 H2 H3 H4 H5 H6]].
      unfold loadInv. rewrite H1, H2, H4, H5. exact Hload.
    + destruct H as [_ [_ [Hv _]]]. unfold fadeView in Hv.
      inversion Hv as [[H1 H2 H3 H4 H5 H6]].
      unfold loadInv. rewrite H5. discriminate.
  - unfold loadInv, effFade, setPendingSet, setActiveSet.
    destruct (fadePhase s) eqn:Hp; try (split_cases; simpl; congruence).
    simpl. rewrite Hp. intros _. apply Hload. exact Hp.
  - unfold loadInv, fadeTimerFire, setFadePhase.
    destruct (fadePhase s) eqn:Hp; simpl; try congruence.
    rewrite Hp. intros _. apply Hload. exact Hp.
  - unfold loadInv, effLoading.
    destruct (fadePhase s) eqn:Hp; simpl; try congruence.
    destruct Hphase as [_ [_ [[_ Hn]|[Hdue _]]]]; [|congruence].
    destruct (pendingSet s) as [p|] eqn:Hpend; simpl; [|congruence].
    destruct (truthy p) eqn:Htruthy; simpl.
    + intros _ _ q _ _. now rewrite Hn.
    + rewrite Hpend. intros _ _ q Hq. congruence.
  - unfold loadInv, preloadDone, setFadePhase. simpl.
    destruct (fadePhase s) eqn:Hp; simpl; congruence.
  - now rewrite (effActiveExists_noop s (conj Hactive Hphase)).
Qed.

Lemma reachable_loadInv s : reachable s -> loadInv s.
Proof.
  induction 1 as [mobile|s s' Hr IH Hstep].
  - unfold loadInv. simpl. discriminate.
  - exact (step_loadInv s s' (reachable_fadeInv s Hr) IH Hstep).
Qed.

Lemma runEvents_isRun events : forall s run,
  runEvents events s = Some run -> isRun s run.
Proof.
  induction events as [|e rest IH]; intros s run; simpl.
  - intros H. injection H as <-. exact I.
  - destruct (enabled e s) eqn:Hen; [|discriminate].
    destruct (handle e s) as [s'|] eqn:Hh; [|discriminate].
    destruct (runEvents rest s') as [run'|] eqn:Hrun; [|discriminate].
    intros H. injection H as <-. split; [|now apply IH].
    now apply (step_event _ _ _ s s' e).
Qed.

(** How the events of a transition act on the view of the fade machine. *)
Ltac view_facts Hv :=
  unfold fadeView in Hv; injection Hv as E E0 E1 E2 E3 E4.

Lemma effLoading_view s p a n d t :
  fadeView s = (Loading, Some p, a, n, d, t) ->
  truthy p = true ->
  fadeView (effLoading s) = (Loading, Some p, a, S n, false, t).
Proof.
  intros Hv Ht. view_facts Hv. unfold effLoading, fadeView.
  rewrite E, E0, Ht. cbn. now rewrite E, E0, E1, E2, E4.
Qed.

Lemma preloadDone_view s pd a n d t :
  fadeView s = (Loading, pd, a, n, d, t) ->
  fadeView (preloadDone s) = (FadingToBlack, pd, a, Nat.pred n, d, false).
Proof.
  intros Hv. view_facts Hv. unfold preloadDone, setFadePhase, fadeView.
  cbn. rewrite E. cbn. now rewrite E0, E1, E2, E3.
Qed.

Lemma effFade_view_arm s ph pd a n d t :
  fadeView s = (ph, pd, a, n, d, t) ->
  ph = FadingToBlack \/ ph = FadingOut ->
  fadeView (effFade s) = (ph, pd, a, n, d, true).
Proof.
  intros Hv Hph. view_facts Hv. unfold effFade, fadeView.
  destruct Hph as [-> | ->]; rewrite E; cbn; now rewrite E, E0, E1, E2, E3.
Qed.

Lemma effFade_view_swap s p a n d t :
  fadeView s = (Holding, Some p, a, n, d, t) ->
  truthy p = true ->
  fadeView (effFade s) = (Holding, None, p, n, d, true).
Proof.
  intros Hv Ht. view_facts Hv.
  unfold effFade, setPendingSet, setActiveSet, fadeView.
  rewrite E, E0, Ht, E1.
  destruct (String.eqb_spec p a) as [->|Hne]; cbn;
    now rewrite ?E, ?E1, ?E2, ?E3.
Qed.

Lemma fadeTimerFire_view s ph ph' pd a n d t :
  fadeView s = (ph, pd, a, n, d, t) ->
  (ph = FadingToBlack /\ ph' = Holding)
  \/ (ph = Holding /\ ph' = FadingOut)
  \/ (ph = FadingOut /\ ph' = Idle) ->
  fadeView (fadeTimerFire s) = (ph', pd, a, n, d, false)
  /\ (ph' = Idle -> revealReady (fadeTimerFire s) = false).
Proof.
  intros Hv Hph. view_facts Hv.
  unfold fadeTimerFire, setFadePhase, fadeView.
  destruct Hph as [[-> ->]|[[-> ->]|[-> ->]]];
    repeat (progress (rewrite ?E; cbn)); rewrite ?E0, ?E1, ?E2, ?E3;
    (split; [reflexivity|]); try discriminate; reflexivity.
Qed.

Lemma runEvents_cons e rest s s' run :
  enabled e s = true ->
  handle e s = Some s' ->
  runEvents rest s' = Some run ->
  runEvents (e :: rest) s = Some (s' :: run).
Proof. intros H1 H2 H3. simpl. now rewrite H1, H2, H3. Qed.

(** From the end of the preload a transition runs through the three fade
    phases. *)
Lemma fade_phases_run s p a :
  fadeView s = (Loading, Some p, a, 1%nat, false, false) ->
  truthy p = true ->
  exists run,
    runEvents (tl transitionEvents) s = Some run
    /\ List.length run = 7%nat
    /\ fadeView (lastOf s run) = (Idle, None, p, 0%nat, false, false)
    /\ revealReady (lastOf s run) = false.
Proof.
  intros Hv Ht.
  pose proof (preloadDone_view s _ _ _ _ _ Hv) as Hv2.
  set (s2 := preloadDone s) in *.
  pose proof (effFade_view_arm s2 _ _ _ _ _ _ Hv2 (or_introl eq_refl))
    as Hv3.
  set (s3 := effFade s2) in *.
  destruct (fadeTimerFire_view s3 _ Holding _ _ _ _ _ Hv3
              (or_introl (conj eq_refl eq_refl))) as [Hv4 _].
  set (s4 := fadeTimerFire s3) in *.
  pose proof (effFade_view_swap s4 _ _ _ _ _ Hv4 Ht) as Hv5.
  set (s5 := effFade s4) in *.
  destruct (fadeTimerFire_view s5 _ FadingOut _ _ _ _ _ Hv5
              (or_intror (or_introl (conj eq_refl eq_refl)))) as [Hv6 _].
  set (s6 := fadeTimerFire s5) in *.
  pose proof (effFade_view_arm s6 _ _ _ _ _ _ Hv6 (or_intror eq_refl))
    as Hv7.
  set (s7 := effFade s6) in *.
  destruct (fadeTimerFire_view s7 _ Idle _ _ _ _ _ Hv7
              (or_intror (or_intror (conj eq_refl eq_refl)))) as [Hv8 Hrr].
  set (s8 := fadeTimerFire s7) in *.
  exists [s2; s3; s4; s5; s6; s7; s8].
  split; [|split; [reflexivity|split; [exact Hv8|exact (Hrr eq_refl)]]].
  unfold transitionEvents, tl.
  assert (Harmed : forall x ph pd b n d,
            fadeView x = (ph, pd, b, n, d, true) ->
            enabled FadeTimer x = true).
  { intros x ph pd b n d Hx. unfold fadeView in Hx. simpl. congruence. }
  apply runEvents_cons; [|reflexivity|].
  { unfold fadeView in Hv. simpl.
    assert (Hn : preloadsInFlight s = 1%nat) by congruence.
    now rewrite Hn. }
  apply runEvents_cons; [reflexivity|reflexivity|].
  apply runEvents_cons; [exact (Harmed _ _ _ _ _ _ Hv3)|reflexivity|].
  apply runEvents_cons; [reflexivity|reflexivity|].
  apply runEvents_cons; [exact (Harmed _ _ _ _ _ _ Hv5)|reflexivity|].
  apply runEvents_cons; [reflexivity|reflexivity|].
  apply runEvents_cons; [exact (Harmed _ _ _ _ _ _ Hv7)|reflexivity|].
  reflexivity.
Qed.

(** X10: a transition towards a set with a name runs to its end: from the
    loading phase the loading effect (if it has not run yet), the end of the
    preload, and three rounds of the fade effect and its timer are each
    enabled in turn and lead to an idle machine whose active set is the
    pending one, with no pending set left. *)
Theorem transition_runs_to_its_end (s : State) (p : string) :
  reachable s ->
  fadePhase s = Loading ->
  pendingSet s = Some p ->
  truthy p = true ->
  let events :=
    if loadingEffectDue s then transitionEvents else tl transitionEvents in
  exists run,
    runEvents events s = Some run
    /\ isRun s run
    /\ List.length run = List.length events
    /\ fadePhase (lastOf s run) = Idle
    /\ activeSet (lastOf s run) = p
    /\ pendingSet (lastOf s run) = None
    /\ revealReady (lastOf s run) = false.
Proof.
  intros Hr Hp Hpend Htruthy events.
  pose proof (reachable_fadeInv s Hr) as [_ Hinv].
  pose proof (reachable_loadInv s Hr) as Hload.
  unfold loadInv in Hload. specialize (Hload Hp).
  rewrite Hp in Hinv. destruct Hinv as [_ [Harm Hcase]].
  assert (Hexists : exists run, runEvents events s = Some run
            /\ List.length run = List.length events
            /\ fadeView (lastOf s run) = (Idle, None, p, 0%nat, false, false)
            /\ revealReady (lastOf s run) = false).
  { unfold events. clear events.
    destruct Hcase as [[Hdue Hn]|[Hdue _]]; rewrite Hdue.
    - assert (Hv : fadeView s
                   = (Loading, Some p, activeSet s, 0%nat, true, false))
        by (unfold fadeView; congruence).
      pose proof (effLoading_view s _ _ _ _ _ Hv Htruthy) as Hv1.
      destruct (fade_phases_run (effLoading s) p (activeSet s) Hv1 Htruthy)
        as [run [Hrun [Hlen [Hlast Hrr]]]].
      exists (effLoading s :: run). split; [|split; [|split]].
      + unfold transitionEvents in *. cbn [tl] in Hrun.
        apply runEvents_cons; [exact Hdue|reflexivity|exact Hrun].
      + cbn. now rewrite Hlen.
      + exact Hlast.
      + exact Hrr.
    - assert (Hv : fadeView s
                   = (Loading, Some p, activeSet s, 1%nat, false, false)).
      { unfold fadeView.
        rewrite (Hload Hdue p Hpend Htruthy). congruence. }
      destruct (fade_phases_run s p (activeSet s) Hv Htruthy)
        as [run [Hrun [Hlen [Hlast Hrr]]]].
      exists run. repeat split; assumption. }
  destruct Hexists as [run [Hrun [Hlen [Hlast Hrr]]]].
  unfold fadeView in Hlast.
  exists run. split; [exact Hrun|].
  split; [exact (runEvents_isRun events s run Hrun)|].
  split; [exact Hlen|]. repeat split; congruence.
Qed.

(** X11: a set whose name is the empty string can become the pending set
    but never loads: the loading effect takes the empty name for no pending
    set at all, so no preload starts and every run from there stays in the
    loading phase with the same pending and active sets. *)
Theorem nameless_set_never_loads (s : State) :
  reachable s ->
  fadePhase s = Loading ->
  pendingSet s = Some EmptyString ->
  forall run,
    isRun s run ->
    fadePhase (lastOf s run) = Loading
    /\ pendingSet (lastOf s run) = Some EmptyString
    /\ activeSet (lastOf s run) = activeSet s
    /\ preloadsInFlight (lastOf s run) = 0%nat.
Proof.
  intros Hr Hp Hpend run. pose proof (reachable_fadeInv s Hr) as Hinv.
  clear Hr. revert s Hinv Hp Hpend.
  induction run as [|s' rest IH]; intros s Hinv Hp Hpend Hrun.
  - cbn [lastOf]. repeat split; try assumption.
    destruct Hinv as [_ Hinv]. rewrite Hp in Hinv.
    destruct Hinv as [[q [Hq [_ Hone]]] [_ Hcase]].
    assert (q = EmptyString) by congruence. subst q.
    destruct Hcase as [[_ H0]|[_ H1]]; [exact H0|].
    destruct (preloadsInFlight s) as [|[|n]]; [reflexivity| |lia].
    specialize (Hone eq_refl). discriminate.
  - destruct Hrun as [Hstep Hrun]. cbn [lastOf].
    destruct (step_fade s s' Hinv Hstep) as [Hinv' Hmove].
    assert (Hsame : fadePhase s' = Loading
                    /\ pendingSet s' = Some EmptyString
                    /\ activeSet s' = activeSet s).
    { destruct Hmove as [H1 H2 H3|t H1|H1 H2 H3 H4|H1|q H1];
        try (destruct H1 as [[H1 _]|[[H1 _]|[H1 _]]]); try congruence.
      - repeat split; congruence.
      - exfalso. destruct Hinv' as [_ Hinv']. rewrite H2 in Hinv'.
        destruct Hinv' as [[q [Hq [_ Hq']]] _].
        assert (q = EmptyString) by congruence. subst q. discriminate. }
    destruct Hsame as [Hp' [Hpend' Hact']].
    destruct (IH s' Hinv' Hp' Hpend' Hrun) as [H1 [H2 [H3 H4]]].
    repeat split; congruence.
Qed.

(** *** The canvas *)

(** X12: with items, the canvas always shows the images of a set named by
    the active set: the first such set of [imageSets]; the fall-back to the
    first set of all is never taken. *)
Theorem canvas_shows_the_active_set (s : State) :
  reachable s ->
  (0 < itemCount)%Z ->
  exists set,
    find (fun set => String.eqb (name set) (activeSet s)) imageSets
    = Some set
    /\ In set imageSets
    /\ name set = activeSet s
    /\ activeImages s = images set.
Proof.
  intros Hr HN. pose proof (reachable_fadeInv s Hr) as [Hactive _].
  specialize (Hactive HN). unfold isItemName in Hactive.
  apply existsb_exists in Hactive. destruct Hactive as [x [Hin Hx]].
  destruct (find (fun set => String.eqb (name set) (activeSet s)) imageSets)
    as [set|] eqn:Hfind.
  - exists set. apply find_some in Hfind as Hs. destruct Hs as [Hin' Heq].
    split; [reflexivity|]. split; [exact Hin'|].
    split; [now apply String.eqb_eq|].
    unfold activeImages. destruct (Z.eqb_spec itemCount 0); [lia|].
    now rewrite Hfind.
  - exfalso. pose proof (find_none _ _ Hfind x Hin) as Hno. cbv beta in Hno.
    congruence.
Qed.

(** X13: the images shown change only while the canvas is black: a step
    that changes them is the swap of the holding phase, taken with the
    canvas at opacity [0] before and after and no transition of the opacity
    under way. *)
Theorem images_change_only_in_the_dark (s s' : State) :
  reachable s ->
  step s s' ->
  activeImages s' = activeImages s
  \/ (fadePhase s = Holding
      /\ fadePhase s' = Holding
      /\ pendingSet s = Some (activeSet s')
      /\ getCanvasOpacity s = 0
      /\ getCanvasOpacity s' = 0
      /\ getTransitionDuration s = 0%Z
      /\ getTransitionDuration s' = 0%Z).
Proof.
  intros Hr Hstep. pose proof (reachable_fadeInv s Hr) as Hinv.
  destruct (step_fade s s' Hinv Hstep) as [_ Hmove].
  assert (Himg : activeSet s' = activeSet s ->
                 activeImages s' = activeImages s).
  { intros Hact. unfold activeImages. now rewrite Hact. }
  destruct Hmove as [H1 H2 H3|t H1 H2 H3 H4 H5 H6|H1 H2 H3 H4|H1 H2 H3
                     |q H1 H2 H3 H4 H5];
    try (left; apply Himg; assumption).
  right. unfold getCanvasOpacity, getTransitionDuration.
  rewrite H1, H2. repeat split. congruence.
Qed.

(** *** When the rotation counts as settled *)

(** X14: the rotation counts as settled exactly when the ring is within
    the threshold of the target, or lags it by more than a full turn less
    the threshold; so it does whenever the lag exceeds a full turn.  The
    threshold is [0.01], and [0.02] on a mobile device. *)
Theorem rotation_counts_as_settled (s : State) :
  let lag := Rabs (targetRotation s - ringRotation s) in
  let threshold := rotationSettleThreshold s in
  (isRotationSettled s = true <-> lag < threshold \/ 2 * PI - threshold < lag)
  /\ threshold = (if isMobile s then 2 / 100 else 1 / 100)
  /\ (2 * PI <= lag -> isRotationSettled s = true).
Proof.
  intros lag threshold.
  assert (Hth : 0 < threshold)
    by (unfold threshold, rotationSettleThreshold; destruct (isMobile s); lra).
  assert (Hiff : isRotationSettled s = true
                 <-> lag < threshold \/ 2 * PI - threshold < lag).
  { unfold isRotationSettled. fold lag threshold. rewrite ltb_true.
    unfold Rmin. destruct (Rle_dec lag (2 * PI - lag)); split;
      intros H; try lra; destruct H; lra. }
  split; [exact Hiff|]. split; [reflexivity|].
  intros Hlag. apply Hiff. right. lra.
Qed.

(** *** A transition that can be reached *)

Lemma animate_frame s :
  isDragging (animate s) = isDragging s
  /\ dragStartIndexRef (animate s) = dragStartIndexRef s
  /\ highlightSet (animate s) = highlightSet s
  /\ fadeView (animate s) = fadeView s.
Proof.
  unfold animate, checkAndPlayTick, playTick.
  split_cases; repeat split.
Qed.

(** With up to 600 items, a hover on the slot, one turn of the wheel, one
    frame and the transition effect take the started component into the
    loading phase, towards the item next to the initial one, if that item
    has another name. *)
Lemma spunOneItem_loading mobile set1 :
  (0 < itemCount <= 600)%Z ->
  item_at ((initialIndex + 1) mod itemCount) = Some set1 ->
  name set1 <> resolveInitialSet ->
  reachable (spunOneItem mobile)
  /\ fadeView (spunOneItem mobile)
     = (Loading, Some (name set1), resolveInitialSet, 0%nat, true, false).
Proof.
  intros HN Hitem Hname.
  assert (HN0 : (0 < itemCount)%Z) by lia.
  pose proof (anglePerItem_lower HN) as Ha.
  unfold spunOneItem.
  set (s1 := set_audioStarted true (initialState mobile)).
  set (s2 := handleSelectedCircleEnter s1).
  set (s3 := handleWheel wheelOneItem s2).
  set (s4 := animate s3).
  assert (Hreach : reachable s4).
  { apply (reachable_step _ _ _ s3); [|now apply (step_event _ _ _ _ _ Frame)].
    apply (reachable_step _ _ _ s2);
      [|now apply (step_event _ _ _ _ _ (Wheel wheelOneItem))].
    apply (reachable_step _ _ _ s1);
      [|now apply (step_event _ _ _ _ _ SelectedCircleEnter)].
    apply (reachable_step _ _ _ (initialState mobile));
      [apply reachable_init|now apply (step_event _ _ _ _ _ AudioStarted)]. }
  split.
  { apply (reachable_step _ _ _ s4); [exact Hreach|].
    now apply (step_event _ _ _ _ _ EffTransition). }
  destruct (animate_frame s3) as [Hdrag [Hdsi [Hhl Hview]]].
  fold s4 in Hdrag, Hdsi, Hhl, Hview.
  assert (Hring : ringRotation s4 = IZR (initialIndex + 1) * anglePerItem + 0).
  { unfold s4. rewrite animate_ringRotation.
    assert (Hr3 : ringRotation s3 = IZR initialIndex * anglePerItem)
      by reflexivity.
    assert (Ht3 : targetRotation s3
                  = IZR initialIndex * anglePerItem
                    + wheelOneItem * (3 / 1000)) by reflexivity.
    rewrite Hr3, Ht3. unfold wheelOneItem, ROTATION_EASING.
    replace (IZR initialIndex * anglePerItem
             + anglePerItem / (12 / 100) / (3 / 1000) * (3 / 1000)
             - IZR initialIndex * anglePerItem)
      with (anglePerItem / (12 / 100)) by field.
    destruct (ltb_false (Rabs (anglePerItem / (12 / 100))) (1 / 1000))
      as [_ Hf].
    rewrite Hf.
    - rewrite plus_IZR. field.
    - rewrite Rabs_pos_eq by lra. lra. }
  assert (Hv4 : fadeView s4
                = (Idle, None, resolveInitialSet, 0%nat, false, false)).
  { rewrite Hview. reflexivity. }
  unfold fadeView in Hv4.
  assert (H1 : fadePhase s4 = Idle) by congruence.
  assert (H3 : activeSet s4 = resolveInitialSet) by congruence.
  assert (H4 : preloadsInFlight s4 = 0%nat) by congruence.
  unfold effTransition. rewrite Hdrag, Hdsi.
  assert (Hd3 : isDragging s3 = false) by reflexivity.
  assert (Hi3 : dragStartIndexRef s3 = None) by reflexivity.
  assert (Hh3 : highlightSet s3 = resolveInitialSet) by reflexivity.
  rewrite Hd3, Hi3. unfold selectedIndex. rewrite Hring.
  pose proof (anglePerItem_pos HN0) as Hpos.
  rewrite indexAtBottom_near by (assumption || lra).
  rewrite Hitem, Hhl, Hh3.
  destruct (String.eqb_spec (name set1) resolveInitialSet) as [|_];
    [contradiction|].
  cbn [negb].
  rewrite startTransition_starts by congruence.
  now rewrite H3, H4.
Qed.

Lemma holding_reachable s p a :
  reachable s ->
  fadeView s = (Loading, Some p, a, 0%nat, true, false) ->
  truthy p = true ->
  let h := fadeTimerFire (effFade (preloadDone (effLoading s))) in
  reachable h /\ fadeView h = (Holding, Some p, a, 0%nat, false, false).
Proof.
  intros Hr Hv Ht h.
  pose proof (effLoading_view s _ _ _ _ _ Hv Ht) as Hv1.
  set (s1 := effLoading s) in *.
  pose proof (preloadDone_view s1 _ _ _ _ _ Hv1) as Hv2.
  set (s2 := preloadDone s1) in *.
  pose proof (effFade_view_arm s2 _ _ _ _ _ _ Hv2 (or_introl eq_refl))
    as Hv3.
  set (s3 := effFade s2) in *.
  destruct (fadeTimerFire_view s3 _ Holding _ _ _ _ _ Hv3
              (or_introl (conj eq_refl eq_refl))) as [Hv4 _].
  split; [|exact Hv4].
  apply (reachable_step _ _ _ s3);
    [|apply (step_event _ _ _ _ _ FadeTimer); [|reflexivity];
      unfold fadeView in Hv3; simpl; congruence].
  apply (reachable_step _ _ _ s2);
    [|now apply (step_event _ _ _ _ _ EffFade)].
  apply (reachable_step _ _ _ s1);
    [|apply (step_event _ _ _ _ _ PreloadDone); [|reflexivity];
      unfold fadeView in Hv1; simpl;
      assert (Hn : preloadsInFlight s1 = 1%nat) by congruence;
      now rewrite Hn].
  apply (reachable_step _ _ _ s); [exact Hr|].
  apply (step_event _ _ _ _ _ EffLoading); [|reflexivity].
  unfold fadeView in Hv. simpl. congruence.
Qed.

End ComponentFacts.


(** C10: without items [anglePerItem] is [0], and [selectedIndex] and
    [finalSelectedIndex] are [0] for every rotation; for every item set both
    projections yield a number, no division by zero standing in the way, and
    with items that number is an index of [imageSets]; and without items no
    reachable state has a drag in progress, so the pointer-up and the snap
    effect do not divide by [anglePerItem] either. *)
Theorem C10_empty_item_set :
  anglePerItem [] = 0
  /\ (forall s : State,
        selectedIndex [] s = Some 0%Z /\ finalSelectedIndex [] s = Some 0%Z)
  /\ (forall (imageSets : list ImageSet) (rotation : R),
        exists i,
          indexAtBottom imageSets rotation = Some i
          /\ ((0 < itemCount imageSets)%Z ->
              (0 <= i < itemCount imageSets)%Z))
  /\ (forall (initialSet : option string) (ringCenter : option (R * R))
             (s : State),
        reachable [] initialSet ringCenter s ->
        isDragging s = false
        /\ handlePointerUp [] s = Some s
        /\ effSnap [] s = s).
Proof.
  split; [reflexivity|]. split; [|split].
  - intros s. split; reflexivity.
  - intros imageSets rotation.
    destruct (indexAtBottom_total imageSets rotation) as [i [Hi [_ Hrange]]].
    exists i. split; assumption.
  - intros initialSet ringCenter s Hreach.
    exact (reachable_no_items [] initialSet ringCenter s eq_refl Hreach).
Qed.

(** *** Playback rate *)





(** *** Audio initialisation *)

Lemma bind_returns {A B} (m : Audio.Exec A) (k : A -> Audio.Exec B) s s1 b :
  Audio.bind m k s = (s1, Some b) ->
  exists s0 a, m s = (s0, Some a) /\ k a s0 = (s1, Some b).
Proof.
  unfold Audio.bind. destruct (m s) as [s0 [a|]]; intros H.
  - exists s0, a. split; [reflexivity | exact H].
  - discriminate H.
Qed.

(** Whatever the browser answers, [initializeAudio] reports ready. *)
Lemma initializeAudio_ready env s :
  Audio.audioReady (Audio.run (Audio.initializeAudio env) s) = true.
Proof.
  unfold Audio.run, Audio.initializeAudio.
  unfold Audio.bind at 1. unfold Audio.read at 1.
  destruct (Audio.audioReady s) eqn:Hready; [exact Hready|].
  unfold Audio.try_catch.
  match goal with
  | |- context [match ?body s with _ => _ end] =>
      destruct (body s) as [s1 [u|]] eqn:Hbody
  end.
  - apply bind_returns in Hbody. destruct Hbody as [s2 [u2 [_ Hbody]]].
    apply bind_returns in Hbody. destruct Hbody as [s3 [u3 [_ Hbody]]].
    apply bind_returns in Hbody. destruct Hbody as [s4 [u4 [_ Hbody]]].
    unfold Audio.update in Hbody. injection Hbody as <- _. reflexivity.
  - reflexivity.
Qed.

(** A failure of the background music leaves the tick sound loaded. *)
Lemma music_failure_keeps_tick :
  let s := Audio.run (Audio.initializeAudio envMusicFails) Audio.mounted in
  Audio.audioReady s = true
  /\ Audio.tickBufferRef s = Some (Audio.mkAudioBuffer "/tick.mp3")
  /\ Audio.bgMusicBufferRef s = None.
Proof. repeat split. Qed.

(** C8: when the request for the tick sound fails, [initializeAudio] still
    reports ready, but the exception leaves the function before the
    background music is requested: the music buffer stays empty although the
    music itself would load, and a later call loads nothing, the engine being
    ready. *)
Theorem C8_tick_failure_blocks_music :
  let s := Audio.run (Audio.initializeAudio envTickFails) Audio.mounted in
  Audio.audioReady s = true
  /\ Audio.tickBufferRef s = None
  /\ Audio.bgMusicBufferRef s = None
  /\ Audio.fetch envTickFails "/bg.mp3" = Some (Audio.mkResponse "/bg.mp3")
  /\ Audio.bgMusicBufferRef
       (Audio.run (Audio.initializeAudio envAllGood) Audio.mounted)
     = Some (Audio.mkAudioBuffer "/bg.mp3")
  /\ Audio.run (Audio.initializeAudio envAllGood) s = s.
Proof. repeat split. Qed.

(** ** The properties on concrete inputs *)


(** *** Ticks *)






(** *** Playback rate *)




(** *** Gestures *)

Lemma demoSets_count : (0 < itemCount demoSets)%Z.
Proof. reflexivity. Qed.

(** C6, witness: a click on item 3 of six, the target standing on item 0. *)
Lemma C6_click_shortest_path_witness :
  exists s',
    handlePointerUp demoSets demoPressed = Some s'
    /\ targetRotation s'
       = targetRotation demoPressed
         + clickDiff demoSets (targetRotation demoPressed) 3.
Proof.
  exact (proj1 (C6_click_shortest_path demoSets demoPressed
                  (mkClickStart 0 0 3) eq_refl eq_refl eq_refl)).
Defined.

(** C7, witness: a press on the selected item and one move of 3 px. *)
Lemma C7_drag_classification_witness :
  exists s1,
    handlePointerDown demoSets None 0 0 true (Some 0%Z) demoStarted = Some s1.
Proof.
  destruct (C7_drag_classification demoSets None demoStarted 0 0 true 0
              [(3, 0)] [] eq_refl eq_refl (or_introl eq_refl)
              demoSets_count) as [s1 [Hdown _]].
  exists s1. exact Hdown.
Defined.

(** C9, witness: the release of the press with the dial hidden. *)
Lemma C9_click_needs_visible_dial_witness :
  exists s',
    handlePointerUp demoSets demoPressedHidden = Some s'
    /\ targetRotation s'
       = IZR (JsNum.js_round
                (targetRotation demoPressedHidden / anglePerItem demoSets))
         * anglePerItem demoSets.
Proof.
  exact (proj1 (proj2 (C9_click_needs_visible_dial demoSets None
                         demoPressedHidden eq_refl demoSets_count))
           eq_refl).
Defined.

(** *** Transitions *)



Lemma demoStarted_reachable : reachable demoSets None None demoStarted.
Proof.
  apply (reachable_step demoSets None None demoMounted).
  - apply reachable_init.
  - now apply (step_event demoSets None None _ _ AudioStarted).
Qed.


(** ** The audio engine between mount and unmount *)

Ltac engine_unfold :=
  unfold Audio.perform, Audio.run, Audio.initializeAudio, Audio.startAudio,
    Audio.toggleMute, Audio.updatePlaybackRate, Audio.playTick,
    Audio.createMusicVoice, Audio.try_catch, Audio.try_catch_value,
    Audio.bind, Audio.read, Audio.update, Audio.await, Audio.ret,
    Audio.is_some.

Ltac engine_cases :=
  repeat (cbn;
          match goal with
          | |- context [match ?x with _ => _ end] =>
              lazymatch x with
              | context [match _ with _ => _ end] => fail
              | _ => destruct x eqn:?
              end
          end).

Lemma initializeAudio_frame env s :
  let s' := Audio.run (Audio.initializeAudio env) s in
  Audio.bgMusicGainRef s' = Audio.bgMusicGainRef s
  /\ Audio.bgMusicRef s' = Audio.bgMusicRef s
  /\ Audio.isMutedRef s' = Audio.isMutedRef s
  /\ (Audio.audioContextRef s <> None ->
      Audio.audioContextRef s' = Audio.audioContextRef s)
  /\ (Audio.tickBufferRef s' = Audio.tickBufferRef s
      \/ Audio.audioContextRef s' <> None)
  /\ (Audio.bgMusicBufferRef s <> None ->
      Audio.bgMusicBufferRef s' = Audio.bgMusicBufferRef s)
  /\ (Audio.bgMusicBufferRef s' = Audio.bgMusicBufferRef s
      \/ Audio.audioContextRef s' <> None).
Proof.
  destruct s as [ctx tick music voice gain muted range ready started].
  engine_unfold. cbn.
  (destruct ready; cbn; [repeat split; auto|];
  destruct ctx as [c|]; cbn;
    [|destruct (Audio.newAudioContext env) as [c|]; cbn];
  destruct tick as [t|], music as [m|]; cbn;
  engine_cases; cbn;
  repeat split; auto; try congruence; try (right; discriminate)).
Qed.

Ltac engine_same Hgain Hvoice Htick Hmusic :=
  split; [exact Hgain|split; [exact Hvoice|split; [exact Htick|exact Hmusic]]].

Ltac engine_goal Hgain Hvoice :=
  repeat split; intros;
  repeat match goal with
    | H : Some _ = Some _ |- _ => injection H as H; try subst
    end;
  cbn; try reflexivity; try discriminate; try congruence;
  try (now apply Hgain); try (now apply (Hvoice _ eq_refl));
  try match goal with
    | H : _ = Some ?v |- _ =>
        let H1 := fresh in let H2 := fresh in
        let H3 := fresh in let H4 := fresh in
        destruct (Hvoice v H) as [H1 [H2 [H3 H4]]];
        first [assumption | congruence | now elim H3]
    end;
  auto.

Lemma startAudio_engineInv env isMobile s :
  Audio.engineInv isMobile s ->
  Audio.engineInv isMobile (Audio.run (Audio.startAudio env isMobile) s).
Proof.
  intros [Hgain [Hvoice [Htick Hmusic]]].
  destruct s as [ctx tick music voice gain muted range ready started].
  cbn in Hgain, Hvoice, Htick, Hmusic.
  unfold Audio.engineInv. engine_unfold. cbn.
  destruct started; cbn; [engine_same Hgain Hvoice Htick Hmusic|].
  (destruct ctx as [[]|], muted, music as [m|], voice as [v|], gain as [g|];
    cbn; try destruct (Audio.resume env); cbn;
    engine_goal Hgain Hvoice).
Qed.

Lemma toggleMute_engineInv isMobile s :
  Audio.engineInv isMobile s ->
  Audio.engineInv isMobile (Audio.run (Audio.toggleMute isMobile) s).
Proof.
  intros [Hgain [Hvoice [Htick Hmusic]]].
  destruct s as [ctx tick music voice gain muted range ready started].
  cbn in Hgain, Hvoice, Htick, Hmusic.
  unfold Audio.engineInv. engine_unfold. cbn.
  destruct muted, ctx as [c|], music as [m|], voice as [v|], gain as [g|];
    cbn; engine_goal Hgain Hvoice.
Qed.

Lemma updatePlaybackRate_engineInv isMobile z range s :
  Audio.engineInv isMobile s ->
  Audio.engineInv isMobile (Audio.run (Audio.updatePlaybackRate z range) s).
Proof.
  intros [Hgain [Hvoice [Htick Hmusic]]].
  destruct s as [ctx tick music voice gain muted zr ready started].
  cbn in Hgain, Hvoice, Htick, Hmusic.
  unfold Audio.engineInv. engine_unfold. cbn.
  destruct muted, voice as [v|]; cbn; engine_goal Hgain Hvoice.
Qed.

Lemma playTick_engineInv isMobile env s :
  Audio.engineInv isMobile s ->
  Audio.engineInv isMobile (fst (Audio.playTick env isMobile s)).
Proof.
  intros [Hgain [Hvoice [Htick Hmusic]]].
  destruct s as [ctx tick music voice gain muted zr ready started].
  cbn in Hgain, Hvoice, Htick, Hmusic.
  unfold Audio.engineInv. engine_unfold. cbn.
  destruct ctx as [[]|], tick as [t|], muted, gain as [g|];
    cbn; try destruct (Audio.resume env); cbn; engine_goal Hgain Hvoice.
Qed.

Lemma initializeAudio_engineInv isMobile env s :
  Audio.engineInv isMobile s ->
  Audio.engineInv isMobile (Audio.run (Audio.initializeAudio env) s).
Proof.
  intros [Hgain [Hvoice [Htick Hmusic]]].
  destruct (initializeAudio_frame env s)
    as [Eg [Ev [Em [Hctx [Ht [Hkeep Hm]]]]]].
  unfold Audio.engineInv. rewrite Eg, Ev, Em.
  split; [exact Hgain|]. split; [|split].
  - intros v Hv. destruct (Hvoice v Hv) as [H1 [H2 [H3 H4]]].
    rewrite Hkeep, Hctx by congruence. now repeat split.
  - intros Hne. destruct Ht as [Ht|Ht]; [|exact Ht].
    rewrite Ht in Hne. specialize (Htick Hne). now rewrite Hctx.
  - intros Hne. destruct Hm as [Hm|Hm]; [|exact Hm].
    rewrite Hm in Hne. specialize (Hmusic Hne). now rewrite Hctx.
Qed.

Lemma perform_engineInv isMobile op s :
  Audio.engineInv isMobile s ->
  Audio.engineInv isMobile (Audio.perform isMobile op s).
Proof.
  intros Hinv. destruct op as [env|env| |z zr|env]; cbn [Audio.perform].
  - now apply initializeAudio_engineInv.
  - now apply startAudio_engineInv.
  - now apply toggleMute_engineInv.
  - now apply updatePlaybackRate_engineInv.
  - now apply playTick_engineInv.
Qed.

Lemma arises_engineInv isMobile s :
  Audio.arises isMobile s -> Audio.engineInv isMobile s.
Proof.
  induction 1 as [|op s _ IH].
  - unfold Audio.engineInv. cbn. repeat split; intros; congruence.
  - now apply perform_engineInv.
Qed.

(** X15: in every state the engine reaches between mount and unmount, the
    gain of the music is zero when the engine is muted and the volume of
    the device otherwise; a music voice plays the loaded music buffer in a
    loop, through a gain node and in a context that exist; and a loaded
    buffer has the context that decoded it. *)
Theorem engine_gain_follows_mute (isMobile : bool) (s : Audio.AudioState) :
  Audio.arises isMobile s ->
  (forall g, Audio.bgMusicGainRef s = Some g ->
     g = if Audio.isMutedRef s then 0
         else if isMobile then 5 / 100 else 25 / 100)
  /\ (forall v, Audio.bgMusicRef s = Some v ->
        Audio.bgMusicBufferRef s = Some (Audio.voice_buffer v)
        /\ Audio.voice_loop v = true
        /\ Audio.bgMusicGainRef s <> None
        /\ Audio.audioContextRef s <> None)
  /\ (Audio.tickBufferRef s <> None -> Audio.audioContextRef s <> None)
  /\ (Audio.bgMusicBufferRef s <> None -> Audio.audioContextRef s <> None).
Proof.
  intros Hr. exact (arises_engineInv isMobile s Hr).
Qed.

(** X16: the mute button flips the mute flag and sets an existing gain to
    zero or back to the volume.  While a voice plays it keeps the voice, and
    a second press restores the state; unmuting with the music loaded and
    no voice yet starts the voice, in a loop at the middle rate. *)
Theorem mute_twice_restores (isMobile : bool) (s : Audio.AudioState) :
  Audio.arises isMobile s ->
  let once := Audio.run (Audio.toggleMute isMobile) s in
  let twice := Audio.run (Audio.toggleMute isMobile) once in
  Audio.isMutedRef once = negb (Audio.isMutedRef s)
  /\ (Audio.bgMusicGainRef s <> None ->
      Audio.bgMusicGainRef once
      = Some (if Audio.isMutedRef s then Audio.getBgMusicVolume isMobile
              else 0))
  /\ (Audio.bgMusicRef s <> None ->
      Audio.bgMusicRef once = Audio.bgMusicRef s /\ twice = s)
  /\ (forall b, Audio.bgMusicRef s = None ->
        Audio.isMutedRef s = true ->
        Audio.bgMusicBufferRef s = Some b ->
        Audio.audioContextRef s <> None ->
        Audio.bgMusicRef once
        = Some (Audio.mkVoice b true MIDDLE_PLAYBACK_RATE)
        /\ Audio.bgMusicGainRef once
           = Some (Audio.getBgMusicVolume isMobile)).
Proof.
  intros Hr once twice. pose proof (arises_engineInv isMobile s Hr) as Hinv.
  destruct Hinv as [Hgain [Hvoice [Htick Hmusic]]]. subst once twice.
  clear Hr.
  destruct s as [ctx tick music voice gain muted range ready started].
  cbn in Hgain, Hvoice, Htick, Hmusic. engine_unfold. cbn.
  destruct muted, ctx as [c|], music as [m|], voice as [v|], gain as [g|];
    cbn; repeat split; intros; try congruence; try discriminate;
    try (match goal with H : Some _ = Some _ |- _ => injection H as <- end);
    try reflexivity;
    try (rewrite (Hgain g eq_refl); reflexivity);
    try (destruct (Hvoice _ eq_refl) as [_ [_ [H3 H4]]]; congruence).
Qed.

(** X17: the initialisation marks the audio ready whatever failed.  The
    context is what the browser gave; the tick buffer is loaded when there
    is a context, the music buffer when the tick buffer was loaded as well;
    nothing plays yet, and a second initialisation changes nothing. *)
Theorem initializeAudio_loads (env : Audio.Env) :
  let s' := Audio.run (Audio.initializeAudio env) Audio.mounted in
  Audio.audioReady s' = true
  /\ Audio.audioContextRef s' = Audio.newAudioContext env
  /\ Audio.tickBufferRef s'
     = (if Audio.is_some (Audio.newAudioContext env)
        then Audio.loaded env "/tick.mp3" else None)
  /\ Audio.bgMusicBufferRef s'
     = (if Audio.is_some (Audio.newAudioContext env)
           && Audio.is_some (Audio.loaded env "/tick.mp3")
        then Audio.loaded env "/bg.mp3" else None)
  /\ Audio.bgMusicRef s' = None
  /\ Audio.audioStarted s' = false
  /\ (forall env2 s,
        Audio.run (Audio.initializeAudio env2)
          (Audio.run (Audio.initializeAudio env) s)
        = Audio.run (Audio.initializeAudio env) s).
Proof.
  intros s'. split; [apply initializeAudio_ready|].
  assert (Hagain : forall env2 s,
            Audio.audioReady s = true ->
            Audio.run (Audio.initializeAudio env2) s = s).
  { intros env2 s Hs. unfold Audio.run, Audio.initializeAudio, Audio.bind,
      Audio.read. cbn. now rewrite Hs. }
  assert (Hfields :
    Audio.audioContextRef s' = Audio.newAudioContext env
    /\ Audio.tickBufferRef s'
       = (if Audio.is_some (Audio.newAudioContext env)
          then Audio.loaded env "/tick.mp3" else None)
    /\ Audio.bgMusicBufferRef s'
       = (if Audio.is_some (Audio.newAudioContext env)
             && Audio.is_some (Audio.loaded env "/tick.mp3")
          then Audio.loaded env "/bg.mp3" else None)
    /\ Audio.bgMusicRef s' = None
    /\ Audio.audioStarted s' = false).
  { unfold s', Audio.loaded. engine_unfold. cbn.
    destruct (Audio.newAudioContext env) as [c|]; cbn; [|now repeat split].
    destruct (Audio.fetch env "/tick.mp3") as [r|]; cbn;
      [|now repeat split].
    destruct (Audio.arrayBuffer env r) as [d|]; cbn; [|now repeat split].
    destruct (Audio.decodeAudioData env d) as [b|]; cbn;
      [|now repeat split].
    destruct (Audio.fetch env "/bg.mp3") as [r2|]; cbn;
      [|now repeat split].
    destruct (Audio.arrayBuffer env r2) as [d2|]; cbn; [|now repeat split].
    destruct (Audio.decodeAudioData env d2) as [b2|]; cbn;
      now repeat split. }
  destruct Hfields as [H1 [H2 [H3 [H4 H5]]]].
  repeat split; try assumption.
  intros env2 s. apply Hagain, initializeAudio_ready.
Qed.

(** X18: starting the audio does nothing once it has started, and nothing
    when the suspended context cannot be resumed.  Otherwise it marks the
    audio started, keeps the mute flag, leaves a suspended context running,
    and starts the music voice exactly when the engine is unmuted and has a
    context and the music buffer but no voice yet. *)
Theorem startAudio_outcome
    (env : Audio.Env) (isMobile : bool) (s : Audio.AudioState) :
  let s' := Audio.run (Audio.startAudio env isMobile) s in
  (Audio.audioStarted s = true -> s' = s)
  /\ (Audio.audioStarted s = false ->
      Audio.audioContextRef s = Some Audio.Suspended ->
      Audio.resume env = None ->
      s' = s)
  /\ (Audio.audioStarted s = false ->
      Audio.audioContextRef s <> Some Audio.Suspended
      \/ Audio.resume env = Some tt ->
      Audio.audioStarted s' = true
      /\ Audio.isMutedRef s' = Audio.isMutedRef s
      /\ (Audio.audioContextRef s = Some Audio.Suspended ->
          Audio.audioContextRef s' = Some Audio.Running)
      /\ (forall b,
            Audio.isMutedRef s = false ->
            Audio.audioContextRef s <> None ->
            Audio.bgMusicBufferRef s = Some b ->
            Audio.bgMusicRef s = None ->
            Audio.bgMusicRef s'
            = Some (Audio.mkVoice b true MIDDLE_PLAYBACK_RATE)
            /\ Audio.bgMusicGainRef s'
               = Some (Audio.getBgMusicVolume isMobile))
      /\ (Audio.isMutedRef s = true \/ Audio.audioContextRef s = None
          \/ Audio.bgMusicBufferRef s = None \/ Audio.bgMusicRef s <> None ->
          Audio.bgMusicRef s' = Audio.bgMusicRef s)).
Proof.
  intros s'. subst s'.
  destruct s as [ctx tick music voice gain muted range ready started].
  engine_unfold. cbn.
  destruct started; cbn.
  { repeat split; intros; try reflexivity; discriminate. }
  destruct ctx as [[]|], muted, music as [m|], voice as [v|], gain as [g|];
    cbn; destruct (Audio.resume env) as [[]|]; cbn;
    repeat split; intros; try reflexivity; try discriminate;
    try congruence;
    try (match goal with H : _ \/ _ |- _ => destruct H end; congruence);
    try (match goal with
         | H : _ \/ _ \/ _ \/ _ |- _ =>
             destruct H as [H|[H|[H|H]]]; congruence
         end).
Qed.

(** X19: a tick sounds exactly when the engine is unmuted, the tick buffer
    is loaded and the context runs or can be resumed; playing it never
    touches the mute flag, the buffers or the music voice, and changes
    nothing at all unless the context was suspended. *)
Theorem playTick_sounds_only_when
    (env : Audio.Env) (isMobile : bool) (s : Audio.AudioState) :
  let s' := fst (Audio.playTick env isMobile s) in
  let sounded := snd (Audio.playTick env isMobile s) in
  (sounded = Some true \/ sounded = Some false)
  /\ (sounded = Some true ->
      Audio.isMutedRef s = false
      /\ Audio.tickBufferRef s <> None
      /\ Audio.audioContextRef s' = Some Audio.Running
      /\ (Audio.audioContextRef s = Some Audio.Running
          \/ Audio.audioContextRef s = Some Audio.Suspended
             /\ Audio.resume env = Some tt))
  /\ (Audio.isMutedRef s = false ->
      Audio.tickBufferRef s <> None ->
      Audio.audioContextRef s = Some Audio.Running
      \/ Audio.audioContextRef s = Some Audio.Suspended
         /\ Audio.resume env = Some tt ->
      sounded = Some true)
  /\ Audio.isMutedRef s' = Audio.isMutedRef s
  /\ Audio.tickBufferRef s' = Audio.tickBufferRef s
  /\ Audio.bgMusicBufferRef s' = Audio.bgMusicBufferRef s
  /\ Audio.bgMusicRef s' = Audio.bgMusicRef s
  /\ (Audio.audioContextRef s <> Some Audio.Suspended -> s' = s).
Proof.
  intros s' sounded. subst s' sounded.
  destruct s as [ctx tick music voice gain muted range ready started].
  engine_unfold. cbn.
  destruct ctx as [[]|], tick as [t|], muted, gain as [g|];
    cbn; destruct (Audio.resume env) as [[]|]; cbn;
    repeat split; intros; try reflexivity; try discriminate;
    try congruence; auto;
    try (match goal with
         | H : _ \/ _ /\ _ |- _ => destruct H as [H|[H ?]]; congruence
         end).
Qed.

Lemma perform_silent isMobile op s :
  Audio.bgMusicRef s = None -> Audio.audioContextRef s = None ->
  Audio.audioReady s = true \/ (forall e, op <> Audio.OpInitialize e) ->
  let s' := Audio.perform isMobile op s in
  Audio.bgMusicRef s' = None /\ Audio.audioContextRef s' = None
  /\ (Audio.audioReady s = true -> Audio.audioReady s' = true).
Proof.
  destruct s as [ctx tick music voice gain muted range ready started].
  cbn. intros -> -> Hop.
  destruct op as [env|env| |z zr|env]; engine_unfold; cbn.
  - destruct Hop as [->|Hop]; [cbn; auto|]. now elim (Hop env).
  - destruct started, muted, music; cbn; auto.
  - destruct muted, music, gain; cbn; auto.
  - destruct muted; cbn; auto.
  - destruct tick, muted; cbn; auto.
Qed.

(** X20: the cleanup of the unmount drops the music voice and the
    context; whatever is called afterwards, short of an initialisation that
    had not finished, starts no voice and makes no context, and no tick
    sounds. *)
Theorem nothing_sounds_after_unmount
    (env : Audio.Env) (isMobile : bool) (s : Audio.AudioState)
    (ops : list Audio.Op) :
  Audio.audioReady s = true
  \/ Forall (fun op => forall e, op <> Audio.OpInitialize e) ops ->
  let u := Audio.run Audio.unmount s in
  let t := fold_left (fun acc op => Audio.perform isMobile op acc) ops u in
  Audio.bgMusicRef u = None
  /\ Audio.audioContextRef u = None
  /\ Audio.bgMusicRef t = None
  /\ Audio.audioContextRef t = None
  /\ snd (Audio.playTick env isMobile t) = Some false
  /\ fst (Audio.playTick env isMobile t) = t.
Proof.
  intros Hops u t.
  assert (Hu : Audio.bgMusicRef u = None /\ Audio.audioContextRef u = None
               /\ Audio.audioReady u = Audio.audioReady s).
  { subst u. destruct s as [ctx tick music voice gain muted range ready st].
    unfold Audio.unmount. engine_unfold. cbn.
    destruct voice, ctx; cbn; auto. }
  destruct Hu as [Hv [Hc Hr]].
  assert (Ht : Audio.bgMusicRef t = None /\ Audio.audioContextRef t = None).
  { subst t. rewrite <- Hr in Hops. clear Hr. revert Hops Hv Hc.
    generalize u. clear u.
    induction ops as [|op ops IH]; intros u Hops Hv Hc; [now split|].
    cbn [fold_left].
    assert (Hop : Audio.audioReady u = true
                  \/ (forall e, op <> Audio.OpInitialize e)).
    { destruct Hops as [H|H]; [now left|right].
      now inversion H. }
    destruct (perform_silent isMobile op u Hv Hc Hop) as [Hv' [Hc' Hr']].
    apply IH; try assumption.
    destruct Hops as [H|H]; [left; now apply Hr'|right].
    now inversion H. }
  destruct Ht as [Htv Htc].
  split; [exact Hv|]. split; [exact Hc|]. split; [exact Htv|].
  split; [exact Htc|].
  clearbody t. clear - Htv Htc.
  destruct t as [ctx tick music voice gain muted range ready started].
  cbn in Htv, Htc. subst. engine_unfold. cbn.
  destruct tick, muted; cbn; auto.
Qed.

(** ** The device motion listener *)

Lemma degrees_range x y :
  - 180 <= atan2 x (- y) * (180 / PI) <= 180.
Proof.
  pose proof (atan2_range x (- y)) as Hr. pose proof PI_RGT_0 as Hpi.
  assert (H180 : 0 < 180 / PI) by (apply Rdiv_lt_0_compat; lra).
  assert (Hpi180 : PI * (180 / PI) = 180) by (field; lra).
  split; nra.
Qed.

Lemma handleMotion_inv api accel s :
  Motion.motionInv s -> Motion.motionInv (Motion.handleMotion api accel s).
Proof.
  intros Hinv. unfold Motion.handleMotion.
  destruct accel as [[[x|] [y|]]|]; try exact Hinv.
  unfold Motion.motionInv in *. cbn.
  pose proof (degrees_range x y) as Hd.
  destruct (Motion.smoothedDegrees s) as [p|].
  - destruct Hinv as [Hp _]. unfold Motion.smoothingFactor.
    repeat split; lra.
  - repeat split; lra.
Qed.

Lemma feedMotion_inv api readings : forall s,
  Motion.motionInv s -> Motion.motionInv (Motion.feedMotion api readings s).
Proof.
  induction readings as [|a rest IH]; intros s Hinv; [exact Hinv|].
  apply IH. now apply handleMotion_inv.
Qed.

Lemma feedMotion_some api readings : forall s,
  Motion.smoothedDegrees s <> None ->
  Motion.smoothedDegrees (Motion.feedMotion api readings s) <> None.
Proof.
  induction readings as [|a rest IH]; intros s Hs; [exact Hs|].
  apply IH. unfold Motion.handleMotion.
  destruct a as [[[x|] [y|]]|]; try exact Hs. discriminate.
Qed.

Lemma feedMotion_none api readings : forall s,
  Motion.smoothedDegrees (Motion.feedMotion api readings s) = None ->
  Forall (fun accel => forall x y : R, accel <> Some (Some x, Some y))
    readings.
Proof.
  induction readings as [|a rest IH]; intros s Hs; [constructor|].
  constructor.
  - intros x y Heq. subst a.
    apply (feedMotion_some api rest
             (Motion.handleMotion api (Some (Some x, Some y)) s));
      [discriminate | exact Hs].
  - exact (IH _ Hs).
Qed.

(** X21: whatever the readings since the listener was installed, the
    smoothed tilt stays within 180 degrees, the raw orientation is the tilt
    clamped to 90 degrees either way, and the orientation is the tilt
    clamped to 60 degrees and rounded, an integer between -60 and 60 within
    half a degree of the clamped tilt; all three are null until a reading
    has both its [x] and its [y]. *)
Theorem orientation_stays_in_range
    (api mobile : bool) (readings : list (option (option R * option R))) :
  let s := Motion.feedMotion api readings (Motion.mounted api mobile) in
  match Motion.smoothedDegrees s with
  | None =>
      Motion.rawOrientation s = None /\ Motion.orientation s = None
      /\ Forall (fun accel =>
                   forall x y, accel <> Some (Some x, Some y)) readings
  | Some smoothed =>
      - 180 <= smoothed <= 180
      /\ exists raw o,
           Motion.rawOrientation s = Some raw
           /\ Motion.orientation s = Some o
           /\ raw = Rmax (- 90) (Rmin 90 smoothed)
           /\ - 90 <= raw <= 90
           /\ (- 90 <= smoothed <= 90 -> raw = smoothed)
           /\ (- 60 <= o <= 60)%Z
           /\ Rabs (IZR o - Rmax (- 60) (Rmin 60 smoothed)) <= 1 / 2
  end.
Proof.
  intros s.
  assert (Hinv : Motion.motionInv s).
  { apply feedMotion_inv. unfold Motion.motionInv. cbn. now split. }
  unfold Motion.motionInv in Hinv.
  destruct (Motion.smoothedDegrees s) as [p|] eqn:Hs.
  - destruct Hinv as [Hp [Hraw Ho]]. split; [exact Hp|].
    eexists. eexists. split; [exact Hraw|]. split; [exact Ho|].
    set (c := Rmax (- 60) (Rmin 60 p)).
    assert (Hc : - 60 <= c <= 60).
    { unfold c, Rmax, Rmin.
      destruct (Rle_dec 60 p); destruct (Rle_dec (- 60) _); lra. }
    pose proof (JsNumFacts.round_bounds c) as Hb.
    split; [reflexivity|]. split; [|split; [|split]].
    + unfold Rmax, Rmin.
      destruct (Rle_dec 90 p); destruct (Rle_dec (- 90) _); lra.
    + intros Hsmall. unfold Rmax, Rmin.
      destruct (Rle_dec 90 p); destruct (Rle_dec (- 90) _); lra.
    + split.
      * apply le_IZR. apply Rnot_lt_le. intros Hlt.
        assert (IZR (JsNum.js_round c) <= - 61).
        { apply IZR_le. apply lt_IZR in Hlt. lia. }
        lra.
      * apply le_IZR. apply Rnot_lt_le. intros Hlt.
        assert (61 <= IZR (JsNum.js_round c)).
        { apply IZR_le. apply lt_IZR in Hlt. lia. }
        lra.
    + apply Rabs_le. lra.
  - destruct Hinv as [Hraw Ho]. split; [exact Hraw|]. split; [exact Ho|].
    exact (feedMotion_none api readings _ Hs).
Qed.

(** X22: the tilt is smoothed by a low-pass filter: the first reading is
    taken as it is, every later one moves the smoothed tilt a twentieth of
    the way to the reading, so under a constant reading the distance to it
    shrinks by the factor [0.95] with every event. *)
Theorem tilt_filter_converges
    (api : bool) (x y previous : R) (k : nat) (s : Motion.MotionState) :
  Motion.smoothedDegrees s = Some previous ->
  let degrees := atan2 x (- y) * (180 / PI) in
  let reading := Some (Some x, Some y) in
  Motion.smoothedDegrees (Motion.handleMotion api reading s)
  = Some (previous + (degrees - previous) * (5 / 100))
  /\ Motion.smoothedDegrees (Motion.feedMotion api (repeat reading k) s)
     = Some (degrees + (95 / 100) ^ k * (previous - degrees))
  /\ (forall s0,
        Motion.smoothedDegrees s0 = None ->
        Motion.smoothedDegrees (Motion.handleMotion api reading s0)
        = Some degrees).
Proof.
  intros Hs degrees reading.
  assert (Hstep : forall s0 p,
            Motion.smoothedDegrees s0 = Some p ->
            Motion.smoothedDegrees (Motion.handleMotion api reading s0)
            = Some (p + (degrees - p) * (5 / 100))).
  { intros s0 p H0. unfold reading, Motion.handleMotion. cbn. rewrite H0.
    unfold Motion.smoothingFactor. f_equal. fold degrees. lra. }
  assert (Hfirst : forall s0,
            Motion.smoothedDegrees s0 = None ->
            Motion.smoothedDegrees (Motion.handleMotion api reading s0)
            = Some degrees).
  { intros s0 H0. unfold reading, Motion.handleMotion. cbn.
    now rewrite H0. }
  clearbody degrees.
  split; [exact (Hstep s previous Hs)|]. split; [|exact Hfirst].
  revert s previous Hs. induction k as [|k IH]; intros s previous Hs.
  - cbn. rewrite Hs. f_equal. field.
  - cbn [repeat Motion.feedMotion fold_left].
    fold (Motion.feedMotion api (repeat reading k)
            (Motion.handleMotion api reading s)).
    rewrite (IH _ _ (Hstep s previous Hs)). f_equal.
    change ((95 / 100) ^ S k) with (95 / 100 * (95 / 100) ^ k). field.
Qed.

(** ** The loading overlay *)

Lemma Timer_eqb_refl k : Intro.Timer_eqb k k = true.
Proof. now destruct k. Qed.

Lemma countOf_without callback id l :
  (Intro.countOf callback (Intro.withoutTimer id l)
   <= Intro.countOf callback l)%nat.
Proof.
  unfold Intro.countOf, Intro.withoutTimer.
  induction l as [|[i k] l IH]; [reflexivity|]. cbn.
  destruct (Nat.eqb i id); cbn; destruct (Intro.Timer_eqb k callback); cbn;
    lia.
Qed.

Lemma countOf_without_found id l t :
  find (fun t => Nat.eqb (fst t) id) l = Some t ->
  (S (Intro.countOf (snd t) (Intro.withoutTimer id l))
   <= Intro.countOf (snd t) l)%nat.
Proof.
  intros Hfind. pose proof (countOf_without (snd t) id) as Hle.
  unfold Intro.countOf, Intro.withoutTimer in *.
  induction l as [|[i k] l IH]; [discriminate|]. cbn in *.
  destruct (Nat.eqb i id) eqn:Hi; cbn.
  - injection Hfind as <-. cbn. rewrite Timer_eqb_refl. cbn.
    specialize (Hle l). cbn in Hle. lia.
  - specialize (IH Hfind).
    destruct (Intro.Timer_eqb k (snd t)); cbn; lia.
Qed.

Lemma countOf_app callback l t :
  Intro.countOf callback (l ++ [t])
  = (Intro.countOf callback l
     + if Intro.Timer_eqb (snd t) callback then 1 else 0)%nat.
Proof.
  unfold Intro.countOf. rewrite filter_app, length_app. cbn.
  now destruct (Intro.Timer_eqb (snd t) callback).
Qed.

Ltac intro_simpl :=
  cbn -[Intro.countOf Intro.withoutTimer]; rewrite ?countOf_app;
  cbn -[Intro.countOf Intro.withoutTimer].

Ltac intro_parts :=
  refine (conj _ (conj _ (conj _ (conj _ (conj _ (conj _ (conj _ _)))))));
  try lia; try assumption; try (intros ?; lia).

Ltac intro_rest :=
  let H := fresh "H" in
  intros H;
  match goal with
  | Hstarted : Intro.audioStarted _ = true -> _,
    Hready : Intro.buttonReady _ = true -> _,
    Htrans : Intro.countOf Intro.StageTransition _ = 1%nat -> _,
    Hfade : Intro.countOf Intro.FadeDone _ <> 0%nat -> _ |- _ =>
      try (destruct (Hstarted H) as [? [? [? ?]]]);
      try (destruct (Hready H) as [? ?]);
      try (destruct Htrans as [? [? [? ?]]]; [lia|]);
      try (assert (Intro.introStage _ = 1%nat) by (apply Hfade; lia));
      repeat split; try assumption; try lia; try discriminate
  end.

Lemma handle_introInv e s :
  Intro.introInv s -> Intro.enabled e s = true ->
  Intro.introInv (Intro.handle e s).
Proof.
  intros Hinv Hen.
  destruct Hinv as
    [Hstage [Hdots [Hstarted [Hbd [Hst [Hready [Htrans Hfade]]]]]]].
  unfold Intro.introInv, Intro.pendingCount in *.
  destruct e as [id| |ok| | |]; cbn [Intro.handle Intro.enabled] in *.
  - (* a timeout fires *)
    unfold Intro.pendingTimer in *.
    destruct (find (fun t => Nat.eqb (fst t) id) (Intro.timers s))
      as [[i callback]|] eqn:Hfind; [|discriminate].
    cbn [snd].
    pose proof (fun k => countOf_without k id (Intro.timers s)) as Hle.
    pose proof (Hle Intro.ButtonDelay) as Hc1.
    pose proof (Hle Intro.StageTransition) as Hc2.
    pose proof (Hle Intro.FadeDone) as Hc4.
    pose proof (countOf_without_found id (Intro.timers s) _ Hfind) as Hc3.
    cbn [snd] in Hc3.
    destruct callback; intro_simpl; intro_parts; intro_rest.
  - (* Next *)
    apply andb_prop in Hen. destruct Hen as [Hen Hbtn].
    apply andb_prop in Hen. destruct Hen as [_ Hzero].
    apply Nat.eqb_eq in Hzero.
    destruct (Hready Hbtn) as [Hb0 Hs0].
    pose proof (fun k id => countOf_without k id (Intro.timers s)) as Hle.
    unfold Intro.handleNextStage. rewrite Hzero. cbn [Nat.eqb].
    destruct (Intro.introButtonTimeoutRef s) as [id|]; intro_simpl;
      try (pose proof (Hle Intro.ButtonDelay id);
           pose proof (Hle Intro.StageTransition id);
           pose proof (Hle Intro.FadeDone id));
      intro_parts; intro_rest.
  - (* Enter *)
    destruct ok; [|intro_parts].
    repeat (apply andb_prop in Hen; destruct Hen as [Hen ?]).
    unfold Intro.stillLoading in *.
    intro_simpl; intro_parts.
    intros _.
    destruct (Intro.isInitialLoading s), (Intro.minLoadingTimePassed s),
      (Intro.audioReady s); try discriminate.
    destruct (Intro.introStage s) as [|[|n]]; try discriminate;
      try lia; auto.
  - (* the canvas is ready *)
    intro_simpl; intro_parts; intro_rest.
  - (* the audio is ready *)
    intro_simpl; intro_parts; intro_rest.
  - (* the dots *)
    intro_simpl; intro_parts.
    unfold Intro.nextDotCount.
    destruct (Z.leb_spec 3 (Intro.dotCount s)); lia.
Qed.

Lemma mounted_introInv : Intro.introInv Intro.mounted.
Proof.
  unfold Intro.introInv. cbn. repeat split; try lia; try discriminate.
Qed.

Lemma arises_introInv s : Intro.arises s -> Intro.introInv s.
Proof.
  induction 1 as [|e s Hs IH Hen]; [apply mounted_introInv|].
  now apply handle_introInv.
Qed.

Lemma withoutTimer_absent id l :
  ~ In id (map fst l) -> Intro.withoutTimer id l = l.
Proof.
  unfold Intro.withoutTimer.
  induction l as [|[i k] l IH]; [reflexivity|]. cbn. intros Hn.
  destruct (Nat.eqb_spec i id) as [->|Hne]; [tauto|]. cbn.
  f_equal. apply IH. tauto.
Qed.

Lemma countOf_without_other k id l t :
  NoDup (map fst l) ->
  find (fun t => Nat.eqb (fst t) id) l = Some t ->
  snd t <> k ->
  Intro.countOf k (Intro.withoutTimer id l) = Intro.countOf k l.
Proof.
  intros Hnd Hfind Hk.
  induction l as [|[i c] l IH]; [discriminate|].
  cbn in Hnd. inversion Hnd as [|x xs Hnotin Hnd']; subst.
  cbn in Hfind. unfold Intro.countOf, Intro.withoutTimer in *. cbn.
  destruct (Nat.eqb_spec i id) as [->|Hne]; cbn.
  - injection Hfind as <-. cbn in Hk.
    pose proof (withoutTimer_absent id l Hnotin) as Habs.
    unfold Intro.withoutTimer in Habs. rewrite Habs.
    destruct (Intro.Timer_eqb c k) eqn:Hck; [|reflexivity].
    destruct c, k; try discriminate; now elim Hk.
  - specialize (IH Hnd' Hfind).
    destruct (Intro.Timer_eqb c k); cbn; rewrite IH; reflexivity.
Qed.

Lemma withoutTimer_ids id l :
  NoDup (map fst l) -> NoDup (map fst (Intro.withoutTimer id l)).
Proof.
  unfold Intro.withoutTimer.
  induction l as [|[i k] l IH]; [intros; constructor|]. cbn.
  intros Hnd. inversion Hnd as [|x xs Hnotin Hnd']; subst.
  destruct (Nat.eqb i id); cbn; [now apply IH|].
  constructor; [|now apply IH].
  intros Hin. apply Hnotin. apply in_map_iff in Hin.
  destruct Hin as [t [Ht Hin]]. apply filter_In in Hin.
  apply in_map_iff. exists t. tauto.
Qed.

Lemma withoutTimer_bound id n (l : list (nat * Intro.Timer)) :
  Forall (fun t => (fst t < n)%nat) l ->
  Forall (fun t => (fst t < n)%nat) (Intro.withoutTimer id l).
Proof.
  unfold Intro.withoutTimer. rewrite !Forall_forall. intros H t Hin.
  apply filter_In in Hin. now apply H.
Qed.

Lemma fresh_ids n (l : list (nat * Intro.Timer)) t :
  NoDup (map fst l) -> Forall (fun t => (fst t < n)%nat) l ->
  fst t = n ->
  NoDup (map fst (l ++ [t]))
  /\ Forall (fun t => (fst t < S n)%nat) (l ++ [t]).
Proof.
  intros Hnd Hall Ht. split.
  - rewrite map_app. cbn.
    apply NoDup_app; [assumption|repeat constructor; intros []|].
    intros x Hin [Hx|[]]. apply in_map_iff in Hin.
    destruct Hin as [u [Hu Hin]]. rewrite Forall_forall in Hall.
    specialize (Hall u Hin). cbn in Hall. lia.
  - apply Forall_app. split.
    + eapply Forall_impl; [|exact Hall]. cbn. intros; lia.
    + constructor; [cbn; lia|constructor].
Qed.

Lemma handle_timersInv e s :
  Intro.timersInv s -> Intro.timersInv (Intro.handle e s).
Proof.
  intros [Hnd Hall]. unfold Intro.timersInv.
  assert (Hcl : forall id,
    NoDup (map fst (Intro.withoutTimer id (Intro.timers s)))
    /\ Forall (fun t => (fst t < Intro.nextTimerId s)%nat)
         (Intro.withoutTimer id (Intro.timers s))).
  { intros id. split; [now apply withoutTimer_ids|].
    now apply withoutTimer_bound. }
  destruct e as [id| |ok| | |]; cbn [Intro.handle]; try (now split).
  - unfold Intro.pendingTimer.
    destruct (find _ (Intro.timers s)) as [[i callback]|]; [|now split].
    destruct (Hcl id) as [H1 H2].
    destruct callback; cbn -[Intro.withoutTimer]; try (now split).
    destruct (fresh_ids (Intro.nextTimerId s) _
                (Intro.nextTimerId s, Intro.ButtonDelay) H1 H2 eq_refl)
      as [H3 H4].
    apply (fresh_ids _ _ (S (Intro.nextTimerId s), Intro.FadeDone) H3 H4
             eq_refl).
  - unfold Intro.handleNextStage.
    destruct (Nat.eqb (Intro.introStage s) 1); [now split|].
    destruct (Intro.introButtonTimeoutRef s) as [id|];
      cbn -[Intro.withoutTimer].
    + destruct (Hcl id) as [H1 H2]. now apply fresh_ids.
    + now apply fresh_ids.
  - destruct ok; now split.
Qed.

Lemma arises_timersInv s : Intro.arises s -> Intro.timersInv s.
Proof.
  induction 1 as [|e s Hs IH Hen]; [|now apply handle_timersInv].
  split; cbn.
  - repeat constructor; cbn; intuition lia.
  - repeat constructor; cbn; lia.
Qed.

Lemma stillLoading_false s :
  Intro.stillLoading s = false <->
  Intro.isInitialLoading s = false /\ Intro.minLoadingTimePassed s = true
  /\ Intro.audioReady s = true.
Proof.
  unfold Intro.stillLoading.
  destruct (Intro.isInitialLoading s), (Intro.minLoadingTimePassed s),
    (Intro.audioReady s); cbn; intuition congruence.
Qed.

Lemma handle_stage_grows e s :
  Intro.introInv s ->
  (Intro.introStage s <= Intro.introStage (Intro.handle e s))%nat.
Proof.
  intros [Hstage _].
  destruct e as [id| |ok| | |]; cbn [Intro.handle]; try reflexivity.
  - unfold Intro.pendingTimer.
    destruct (find _ (Intro.timers s)) as [[i callback]|]; [|reflexivity].
    destruct callback; cbn; lia.
  - unfold Intro.handleNextStage.
    destruct (Nat.eqb (Intro.introStage s) 1); [reflexivity|].
    destruct (Intro.introButtonTimeoutRef s); cbn; lia.
  - destruct ok; reflexivity.
Qed.

Lemma handle_started_stays e s :
  Intro.audioStarted s = true ->
  Intro.audioStarted (Intro.handle e s) = true.
Proof.
  intros Hs.
  destruct e as [id| |ok| | |]; cbn [Intro.handle]; try assumption.
  - unfold Intro.pendingTimer.
    destruct (find _ (Intro.timers s)) as [[i callback]|]; [|assumption].
    destruct callback; cbn; assumption.
  - unfold Intro.handleNextStage.
    destruct (Nat.eqb (Intro.introStage s) 1); [assumption|].
    destruct (Intro.introButtonTimeoutRef s); cbn; assumption.
  - destruct ok; [reflexivity|assumption].
Qed.

(** X23: the experience is entered from the second page of the intro, after
    everything is loaded, and then the overlay is gone for good. *)
Theorem experience_is_entered_after_the_intro s :
  Intro.arises s ->
  (Intro.audioStarted s = true ->
     Intro.introStage s = 1%nat /\ Intro.isInitialLoading s = false
     /\ Intro.minLoadingTimePassed s = true /\ Intro.audioReady s = true)
  /\ (Intro.overlayOpacity s = 0 <-> Intro.audioStarted s = true)
  /\ (Intro.overlayShown s = false <-> Intro.audioStarted s = true)
  /\ (forall e, Intro.enabled e s = true ->
        (Intro.introStage s <= Intro.introStage (Intro.handle e s) <= 1)%nat
        /\ (Intro.audioStarted s = true ->
            Intro.audioStarted (Intro.handle e s) = true
            /\ Intro.overlayShown (Intro.handle e s) = false)).
Proof.
  intros Hs. pose proof (arises_introInv s Hs) as Hinv.
  destruct Hinv as [Hstage [_ [Hstarted _]]].
  assert (Hload : Intro.audioStarted s = true ->
                  Intro.stillLoading s = false).
  { intros H. apply stillLoading_false. now destruct (Hstarted H). }
  split; [exact Hstarted|]. split; [|split].
  - unfold Intro.overlayOpacity. split.
    + destruct (Intro.stillLoading s); [intros; lra|].
      destruct (Intro.audioStarted s); [reflexivity|intros; lra].
    + intros H. rewrite (Hload H), H. reflexivity.
  - unfold Intro.overlayShown. split.
    + intros H. apply orb_false_elim in H. destruct H as [_ H].
      now destruct (Intro.audioStarted s).
    + intros H. rewrite (Hload H), H. reflexivity.
  - intros e Hen.
    assert (Hs' : Intro.arises (Intro.handle e s))
      by now apply Intro.arises_step.
    pose proof (arises_introInv _ Hs') as [Hstage' [_ [Hstarted' _]]].
    split.
    + split; [|exact Hstage'].
      apply handle_stage_grows. now apply arises_introInv.
    + intros H. pose proof (handle_started_stays e s H) as H'.
      split; [exact H'|]. unfold Intro.overlayShown.
      rewrite H'. destruct (Hstarted' H') as [_ Hl].
      apply stillLoading_false in Hl. now rewrite Hl.
Qed.

(** X24: the Next button works once: its click hides the page and both
    buttons until the transition timeout fires, which shows the second
    page; there the Next button is gone. *)
Theorem next_works_once s :
  Intro.arises s ->
  (Intro.pendingCount Intro.ButtonDelay s <= 1)%nat
  /\ (Intro.pendingCount Intro.StageTransition s <= 1)%nat
  /\ (Intro.buttonReady s = true ->
      Intro.pendingCount Intro.ButtonDelay s = 0%nat
      /\ Intro.pendingCount Intro.StageTransition s = 0%nat)
  /\ (Intro.enabled Intro.NextClick s = true ->
      let s' := Intro.handle Intro.NextClick s in
      Intro.pendingCount Intro.StageTransition s' = 1%nat
      /\ Intro.pendingCount Intro.ButtonDelay s' = 0%nat
      /\ Intro.introStage s' = 0%nat)
  /\ (Intro.pendingCount Intro.StageTransition s = 1%nat ->
      Intro.introStage s = 0%nat
      /\ Intro.introFade s = Intro.FadeOut
      /\ Intro.animFade s = Intro.AnimOut
      /\ Intro.enabled Intro.NextClick s = false
      /\ (forall ok, Intro.enabled (Intro.EnterClick ok) s = false)
      /\ forall e, Intro.enabled e s = true ->
           let s' := Intro.handle e s in
           (Intro.pendingCount Intro.StageTransition s' = 1%nat)
           \/ (Intro.pendingCount Intro.StageTransition s' = 0%nat
               /\ Intro.introStage s' = 1%nat
               /\ Intro.introFade s' = Intro.FadeIn
               /\ Intro.animFade s' = Intro.AnimIn
               /\ Intro.buttonReady s' = false
               /\ Intro.pendingCount Intro.ButtonDelay s' = 1%nat))
  /\ (Intro.introStage s = 1%nat ->
      Intro.pendingCount Intro.StageTransition s = 0%nat
      /\ Intro.enabled Intro.NextClick s = false
      /\ forall e, Intro.introStage (Intro.handle e s) = 1%nat).
Proof.
  intros Hs. pose proof (arises_introInv s Hs) as Hinv.
  pose proof (arises_timersInv s Hs) as [Hnd Hall].
  pose proof Hinv as
    [Hstage [Hdots [Hstarted [Hbd [Hst [Hready [Htrans Hfade]]]]]]].
  split; [exact Hbd|]. split; [exact Hst|]. split; [exact Hready|].
  assert (Hbtn : Intro.pendingCount Intro.StageTransition s = 1%nat ->
                 Intro.buttonReady s = false).
  { intros H. destruct (Intro.buttonReady s) eqn:Hb; [|reflexivity].
    destruct (Hready eq_refl). lia. }
  split; [|split].
  - intros Hen. cbn [Intro.enabled] in Hen.
    apply andb_prop in Hen. destruct Hen as [Hen Hb].
    apply andb_prop in Hen. destruct Hen as [_ Hzero].
    apply Nat.eqb_eq in Hzero. destruct (Hready Hb) as [Hb0 Hs0].
    unfold Intro.pendingCount in *.
    pose proof (fun k id => countOf_without k id (Intro.timers s)) as Hle.
    cbn [Intro.handle]. unfold Intro.handleNextStage. rewrite Hzero.
    cbn [Nat.eqb].
    destruct (Intro.introButtonTimeoutRef s) as [id|]; intro_simpl;
      try (pose proof (Hle Intro.ButtonDelay id);
           pose proof (Hle Intro.StageTransition id));
      repeat split; try assumption; lia.
  - intros Hpend. destruct (Htrans Hpend) as [Hzero [Hb0 [Hf Ha]]].
    pose proof (Hbtn Hpend) as Hb.
    split; [exact Hzero|]. split; [exact Hf|]. split; [exact Ha|].
    split; [|split].
    + cbn. rewrite Hb. apply andb_false_r.
    + intros ok. cbn. rewrite Hb. apply andb_false_r.
    + intros e Hen.
      destruct e as [id| |ok| | |]; cbn [Intro.handle Intro.enabled] in *;
        try (left; exact Hpend).
      * unfold Intro.pendingTimer in *.
        destruct (find (fun t => Nat.eqb (fst t) id) (Intro.timers s))
          as [[i callback]|] eqn:Hfind; [|discriminate].
        unfold Intro.pendingCount in *.
        pose proof (countOf_without_found id (Intro.timers s) _ Hfind)
          as Hc3.
        pose proof (countOf_without Intro.ButtonDelay id (Intro.timers s))
          as Hc1.
        assert (Hother : forall k, callback <> k ->
          Intro.countOf k (Intro.withoutTimer id (Intro.timers s))
          = Intro.countOf k (Intro.timers s)).
        { intros k Hk.
          now apply (countOf_without_other k id _ _ Hnd Hfind). }
        cbn [snd] in Hc3.
        destruct callback; intro_simpl.
        -- left. rewrite Hother by discriminate. exact Hpend.
        -- right. repeat split; try assumption; lia.
        -- left. rewrite Hother by discriminate. exact Hpend.
        -- left. rewrite Hother by discriminate. exact Hpend.
      * rewrite Hb in Hen. rewrite andb_false_r in Hen. discriminate.
      * rewrite Hb in Hen. rewrite andb_false_r in Hen. discriminate.
  - intros Hone. unfold Intro.pendingCount in *.
    assert (Hnone : Intro.countOf Intro.StageTransition (Intro.timers s)
                    = 0%nat).
    { destruct (Intro.countOf Intro.StageTransition (Intro.timers s))
        as [|[|n]] eqn:Hc; [reflexivity| |lia].
      destruct Htrans as [Hz _]; [reflexivity|]. lia. }
    split; [exact Hnone|]. split.
    + cbn. rewrite Hone. cbn. now rewrite andb_false_r.
    + intros e.
      destruct e as [id| |ok| | |]; cbn [Intro.handle]; try assumption.
      * unfold Intro.pendingTimer.
        destruct (find _ (Intro.timers s)) as [[i callback]|];
          [|assumption].
        destruct callback; cbn; auto.
      * unfold Intro.handleNextStage. rewrite Hone. cbn. exact Hone.
      * destruct ok; assumption.
Qed.

Lemma ticks_dotCount k s :
  (1 <= Intro.dotCount s <= 3)%Z ->
  Intro.dotCount (Intro.ticks k s)
  = (1 + (Intro.dotCount s - 1 + Z.of_nat k) mod 3)%Z.
Proof.
  intros Hr. induction k as [|k IH].
  - cbn [Intro.ticks Z.of_nat]. rewrite Z.add_0_r.
    rewrite Z.mod_small; lia.
  - cbn [Intro.ticks Intro.handle Intro.dotCount]. rewrite IH.
    unfold Intro.nextDotCount.
    replace (Intro.dotCount s - 1 + Z.of_nat (S k))%Z
      with ((Intro.dotCount s - 1 + Z.of_nat k) + 1)%Z by lia.
    set (m := (Intro.dotCount s - 1 + Z.of_nat k)%Z).
    assert (Hm : (0 <= m)%Z) by (unfold m; lia).
    pose proof (Z.mod_pos_bound m 3 ltac:(lia)) as Hb.
    pose proof (Z.div_mod m 3 ltac:(lia)) as Hdm.
    destruct (Z.leb_spec 3 (1 + m mod 3)).
    + assert (Hm2 : (m mod 3 = 2)%Z) by lia.
      replace (m + 1)%Z with (0 + (m / 3 + 1) * 3)%Z by lia.
      rewrite Z.mod_add by lia. reflexivity.
    + replace (m + 1)%Z with ((m mod 3 + 1) + (m / 3) * 3)%Z by lia.
      rewrite Z.mod_add by lia.
      rewrite (Z.mod_small (m mod 3 + 1)) by lia. lia.
Qed.

(** X25: the loading dots count 1, 2, 3, 1, ...: the count stays between
    one and three, [k] ticks of the interval move it [k] places round the
    cycle, three ticks bring it back, and nothing else changes it. *)
Theorem loading_dots_cycle s k :
  Intro.arises s ->
  (1 <= Intro.dotCount s <= 3)%Z
  /\ Intro.dotCount (Intro.ticks k s)
     = (1 + (Intro.dotCount s - 1 + Z.of_nat k) mod 3)%Z
  /\ Intro.ticks 3 s = s
  /\ (forall e, Intro.dotCount (Intro.handle e s) <> Intro.dotCount s ->
        e = Intro.DotTick).
Proof.
  intros Hs. pose proof (arises_introInv s Hs) as [_ [Hdots _]].
  split; [exact Hdots|]. split; [now apply ticks_dotCount|]. split.
  - destruct s. cbn in *. unfold Intro.nextDotCount.
    f_equal.
    assert (H : (dotCount = 1 \/ dotCount = 2 \/ dotCount = 3)%Z) by lia.
    destruct H as [->|[->| ->]]; reflexivity.
  - intros e Hne.
    destruct e as [id| |ok| | |]; cbn [Intro.handle] in Hne;
      try reflexivity; exfalso; apply Hne; try reflexivity.
    + unfold Intro.pendingTimer.
      destruct (find _ (Intro.timers s)) as [[i callback]|]; [|reflexivity].
      destruct callback; reflexivity.
    + unfold Intro.handleNextStage.
      destruct (Nat.eqb (Intro.introStage s) 1); [reflexivity|].
      destruct (Intro.introButtonTimeoutRef s); reflexivity.
    + destruct ok; reflexivity.
Qed.

(** ** The labels of the items *)

Lemma toUpperCase_facts c :
  Label.isWordChar (Label.toUpperCase c) = Label.isWordChar c
  /\ Label.isLower (Label.toUpperCase c) = false
  /\ (Label.isSeparator c = false ->
      Label.isSeparator (Label.toUpperCase c) = false)
  /\ Label.toUpperCase (Label.toUpperCase c) = Label.toUpperCase c.
Proof.
  destruct c as [[] [] [] [] [] [] [] []]; vm_compute; repeat split;
    intros; congruence.
Qed.

Lemma separator_is_word_or_dash c :
  Label.isSeparator c = true -> Label.isLower c = false.
Proof.
  destruct c as [[] [] [] [] [] [] [] []]; vm_compute; congruence.
Qed.

Lemma replaceSeparators_clean b s c :
  In c (list_ascii_of_string (Label.replaceSeparators b s)) ->
  Label.isSeparator c = false.
Proof.
  revert b. induction s as [|a s IH]; intros b; cbn; [tauto|].
  destruct (Label.isSeparator a) eqn:Ha.
  - destruct b; cbn; [apply IH|].
    intros [<-|H]; [reflexivity|]. now apply (IH true).
  - cbn. intros [<-|H]; [assumption|]. now apply (IH false).
Qed.

Lemma capitalize_clean b s :
  (forall c, In c (list_ascii_of_string s) -> Label.isSeparator c = false) ->
  forall c, In c (list_ascii_of_string (Label.capitalize b s)) ->
            Label.isSeparator c = false.
Proof.
  revert b. induction s as [|a s IH]; intros b Hs c; cbn; [tauto|].
  intros [<-|H].
  - assert (Ha : Label.isSeparator a = false) by (apply Hs; now left).
    destruct (Label.isWordChar a && negb b); [|assumption].
    now apply toUpperCase_facts.
  - apply (IH (Label.isWordChar a)); [|assumption].
    intros x Hx. apply Hs. now right.
Qed.

Lemma replaceSeparators_id b s :
  (forall c, In c (list_ascii_of_string s) -> Label.isSeparator c = false) ->
  Label.replaceSeparators b s = s.
Proof.
  revert b. induction s as [|a s IH]; intros b Hs; cbn; [reflexivity|].
  rewrite (Hs a) by now left. f_equal. apply IH.
  intros x Hx. apply Hs. now right.
Qed.

Lemma capitalize_idem b s :
  Label.capitalize b (Label.capitalize b s) = Label.capitalize b s.
Proof.
  revert b. induction s as [|a s IH]; intros b; cbn; [reflexivity|].
  destruct (toUpperCase_facts a) as [Hw [_ [_ Hu]]].
  destruct (Label.isWordChar a && negb b) eqn:Hc.
  - rewrite Hw, Hc, Hu, IH. reflexivity.
  - rewrite Hc, IH. reflexivity.
Qed.

Lemma replaceSeparators_length b s :
  (String.length (Label.replaceSeparators b s) <= String.length s)%nat.
Proof.
  revert b. induction s as [|a s IH]; intros b; cbn; [lia|].
  pose proof (IH true). pose proof (IH false).
  destruct (Label.isSeparator a); [destruct b|]; cbn; lia.
Qed.

Lemma replaceSeparators_same_length b s :
  Label.singleSeparators b s = true ->
  String.length (Label.replaceSeparators b s) = String.length s.
Proof.
  revert b. induction s as [|a s IH]; intros b; cbn; [reflexivity|].
  destruct (Label.isSeparator a); cbn.
  - destruct b; cbn; [discriminate|]. intros H. now rewrite IH.
  - intros H. now rewrite IH.
Qed.

Lemma replaceSeparators_shorter b s :
  Label.singleSeparators b s = false ->
  (String.length (Label.replaceSeparators b s) < String.length s)%nat.
Proof.
  revert b. induction s as [|a s IH]; intros b; cbn; [discriminate|].
  destruct (Label.isSeparator a); cbn.
  - destruct b; cbn.
    + intros _. pose proof (replaceSeparators_length true s). lia.
    + intros H. specialize (IH true H). lia.
  - intros H. specialize (IH false H). lia.
Qed.

Lemma capitalize_length b s :
  String.length (Label.capitalize b s) = String.length s.
Proof.
  revert b. induction s as [|a s IH]; intros b; cbn; [reflexivity|].
  now rewrite IH.
Qed.

Lemma capitalize_get b s i c :
  String.get i (Label.capitalize b s) = Some c ->
  Label.isLower c = true ->
  match i with
  | O => b = true
  | S j => exists p, String.get j (Label.capitalize b s) = Some p
                     /\ Label.isWordChar p = true
  end.
Proof.
  revert b i. induction s as [|a s IH]; intros b i; [discriminate|].
  cbn [Label.capitalize].
  destruct i as [|j].
  - cbn. intros H Hl. injection H as <-.
    destruct b; [reflexivity|]. rewrite andb_true_r in Hl.
    destruct (Label.isWordChar a) eqn:Hw.
    + destruct (toUpperCase_facts a) as [_ [H _]]. congruence.
    + unfold Label.isWordChar in Hw. rewrite Hl in Hw. discriminate.
  - cbn [String.get]. intros H Hl.
    specialize (IH _ _ H Hl). destruct j as [|k].
    + exists (if Label.isWordChar a && negb b
              then Label.toUpperCase a else a).
      split; [reflexivity|].
      destruct (Label.isWordChar a && negb b); [|assumption].
      destruct (toUpperCase_facts a) as [-> _]. assumption.
    + exact IH.
Qed.

(** X26: a label has no hyphen and no underscore, is no longer than the
    name, starts every word with a character that is no small letter,
    and formatting it again changes nothing. *)
Theorem label_is_spaced_and_capitalised name :
  (forall c, In c (list_ascii_of_string (Label.formatLabel name)) ->
             c <> "-"%char /\ c <> "_"%char)
  /\ (String.length (Label.formatLabel name) <= String.length name)%nat
  /\ (String.length (Label.formatLabel name) = String.length name
      <-> Label.singleSeparators false name = true)
  /\ (forall i c, String.get i (Label.formatLabel name) = Some c ->
        Label.isLower c = true ->
        exists j p, i = S j
          /\ String.get j (Label.formatLabel name) = Some p
          /\ Label.isWordChar p = true)
  /\ Label.formatLabel (Label.formatLabel name) = Label.formatLabel name.
Proof.
  unfold Label.formatLabel.
  assert (Hclean : forall c,
    In c (list_ascii_of_string
            (Label.capitalize false (Label.replaceSeparators false name))) ->
    Label.isSeparator c = false).
  { apply capitalize_clean. intros c. apply replaceSeparators_clean. }
  split; [|split; [|split; [|split]]].
  - intros c Hin. specialize (Hclean c Hin).
    unfold Label.isSeparator in Hclean. apply orb_false_elim in Hclean.
    destruct Hclean as [H1 H2].
    split; intros ->; discriminate.
  - rewrite capitalize_length. apply replaceSeparators_length.
  - rewrite capitalize_length. split.
    + intros H.
      destruct (Label.singleSeparators false name) eqn:Hs; [reflexivity|].
      pose proof (replaceSeparators_shorter false name Hs). lia.
    + apply replaceSeparators_same_length.
  - intros i c Hget Hl.
    pose proof (capitalize_get _ _ _ _ Hget Hl) as H.
    destruct i as [|j]; [discriminate|].
    destruct H as [p [Hp Hw]]. now exists j, p.
  - rewrite (replaceSeparators_id false _ Hclean). apply capitalize_idem.
Qed.

(** ** Witnesses of the further properties *)

Lemma demoSets_bounds : (0 < itemCount demoSets <= 600)%Z.
Proof. cbn. lia. Qed.

Lemma demoStarted_selected : selectedIndex demoSets demoStarted = Some 0%Z.
Proof.
  unfold selectedIndex.
  change (ringRotation demoStarted) with (IZR 0 * anglePerItem demoSets).
  replace (IZR 0 * anglePerItem demoSets)
    with (IZR 0 * anglePerItem demoSets + 0) by ring.
  pose proof (anglePerItem_pos demoSets demoSets_count).
  rewrite indexAtBottom_near by (exact demoSets_count || lra).
  reflexivity.
Qed.

Lemma demoStarted_press_enabled :
  enabled demoSets (PointerDown 0 0 0) demoStarted = true.
Proof.
  cbn [enabled]. unfold isDraggable, isAtBottom.
  rewrite demoStarted_selected. reflexivity.
Qed.

Lemma demoLoading_facts :
  reachable demoSets None None demoLoading
  /\ fadeView demoLoading
     = (Loading, Some "animals"%string, "streets"%string, 0%nat, true, false).
Proof.
  apply (spunOneItem_loading demoSets None None false
           (mkImageSet "animals" ["/animals/0.jpg"%string])).
  - exact demoSets_bounds.
  - reflexivity.
  - discriminate.
Qed.

Lemma namelessLoading_facts :
  reachable namelessSets None None namelessLoading
  /\ fadeView namelessLoading
     = (Loading, Some EmptyString, "day"%string, 0%nat, true, false).
Proof.
  apply (spunOneItem_loading namelessSets None None false
           (mkImageSet EmptyString ["/night/0.jpg"%string])).
  - cbn. lia.
  - reflexivity.
  - discriminate.
Qed.

Lemma demoHolding_facts :
  reachable demoSets None None demoHolding
  /\ fadeView demoHolding
     = (Holding, Some "animals"%string, "streets"%string, 0%nat, false,
        false).
Proof.
  destruct demoLoading_facts as [Hr Hv].
  exact (holding_reachable demoSets None None demoLoading _ _ Hr Hv
           eq_refl).
Qed.

(** X1, witness: the six sets as mounted. *)
Lemma selected_item_is_nearest_the_slot_witness :
  exists i,
    selectedIndex demoSets demoMounted = Some i
    /\ (0 <= i < itemCount demoSets)%Z.
Proof.
  destruct (selected_item_is_nearest_the_slot demoSets demoMounted
              demoSets_count) as [i [delta [Hsel [Hrange _]]]].
  exists i. split; assumption.
Defined.


(** X3, witness: the click on item 3 of six. *)
Lemma click_selects_the_clicked_item_witness :
  exists s',
    handlePointerUp demoSets demoPressed = Some s'
    /\ finalSelectedIndex demoSets s' = Some 3%Z.
Proof.
  destruct (click_selects_the_clicked_item demoSets demoPressed
              (mkClickStart 0 0 3) demoSets_bounds eq_refl eq_refl eq_refl)
    as [s' [n [e [Hup [_ [_ [_ [Hfinal _]]]]]]]].
  exists s'. split; [exact Hup | exact Hfinal].
Defined.

(** X5, witness: a wheel event of 100 on the started six sets. *)
Lemma wheel_is_snapped_to_an_item_witness :
  targetRotation (handleWheel 100 demoStarted)
  = targetRotation demoStarted + 100 * (3 / 1000).
Proof.
  exact (proj1 (wheel_is_snapped_to_an_item demoSets demoStarted
                  (initialIndex demoSets None) 100
                  eq_refl eq_refl eq_refl demoSets_count eq_refl)).
Defined.

(** X6, witness: one move of the press on item 3, the ring not attached. *)
Lemma drag_follows_the_pointer_witness :
  dragStartRef (feedMoves None [(3, 0)] demoPressed)
  = Some (lastAngleOf None 0 [(3, 0)])
  /\ isDragging (feedMoves None [(3, 0)] demoPressed) = true.
Proof.
  destruct (drag_follows_the_pointer None demoPressed 0 [(3, 0)]
              eq_refl eq_refl) as [_ [Hlast [Hdrag _]]].
  split; assumption.
Defined.

(** X7, witness: a press on the selected item of the started six sets. *)
Lemma draggable_item_accepts_the_press_witness :
  exists s1,
    handlePointerDown demoSets None 0 0
      (isAtBottom demoSets 0 demoStarted) (Some 0%Z) demoStarted
    = Some s1
    /\ isDragging s1 = true.
Proof.
  destruct (draggable_item_accepts_the_press demoSets None None 0 0 0
              demoStarted demoStarted_press_enabled)
    as [s1 [Hdown [_ [_ [Hdrag _]]]]].
  exists s1. split; assumption.
Defined.

(** X8, witness: a frame on the started six sets. *)
Lemma ticks_follow_the_ring_witness :
  lastClickIndexRef demoStarted
  = Some (clickIndexOf (ringRotation demoStarted))
  /\ lastClickIndexRef (animate demoStarted)
     = Some (clickIndexOf (ringRotation (animate demoStarted))).
Proof.
  destruct (ticks_follow_the_ring demoSets None None demoStarted
              (animate demoStarted) demoStarted_reachable
              (step_event demoSets None None demoStarted _ Frame
                 eq_refl eq_refl)) as [H1 [H2 _]].
  split; assumption.
Defined.

(** X9, witness: the six sets at the start of the holding phase. *)
Lemma dial_is_hidden_during_a_transition_witness :
  reachable demoSets None None demoHolding
  /\ fadePhase demoHolding = Holding
  /\ isDialVisible demoHolding = false
  /\ audioStartTimeoutRef demoHolding = false.
Proof.
  destruct demoHolding_facts as [Hr Hv].
  assert (Hp : fadePhase demoHolding = Holding)
    by (unfold fadeView in Hv; congruence).
  split; [exact Hr|]. split; [exact Hp|].
  exact (proj1 (proj2 (proj2
           (dial_is_hidden_during_a_transition demoSets None None
              demoHolding Hr)))
           (or_intror (or_introl Hp))).
Defined.

(** X10, witness: the transition of the six sets towards the second set. *)
Lemma transition_runs_to_its_end_witness :
  exists run,
    isRun demoSets None None demoLoading run
    /\ fadePhase (lastOf demoLoading run) = Idle
    /\ activeSet (lastOf demoLoading run) = "animals"%string.
Proof.
  destruct demoLoading_facts as [Hr Hv]. unfold fadeView in Hv.
  destruct (transition_runs_to_its_end demoSets None None demoLoading
              "animals" Hr ltac:(congruence) ltac:(congruence) eq_refl)
    as [run [_ [Hrun [_ [Hidle [Hact _]]]]]].
  exists run. repeat split; assumption.
Defined.

(** X11, witness: the loading effect on the set without a name. *)
Lemma nameless_set_never_loads_witness :
  reachable namelessSets None None namelessLoading
  /\ fadePhase (lastOf namelessLoading [effLoading namelessLoading])
     = Loading
  /\ preloadsInFlight (lastOf namelessLoading [effLoading namelessLoading])
     = 0%nat.
Proof.
  destruct namelessLoading_facts as [Hr Hv]. unfold fadeView in Hv.
  split; [exact Hr|].
  assert (Hstep : step namelessSets None None namelessLoading
                    (effLoading namelessLoading)).
  { apply (step_event _ _ _ _ _ EffLoading); [|reflexivity].
    simpl. congruence. }
  destruct (nameless_set_never_loads namelessSets None None namelessLoading
              Hr ltac:(congruence) ltac:(congruence)
              [effLoading namelessLoading] (conj Hstep I))
    as [H1 [_ [_ H4]]].
  split; [exact H1 | exact H4].
Defined.

(** X12, witness: the started six sets. *)
Lemma canvas_shows_the_active_set_witness :
  exists set,
    In set demoSets
    /\ name set = activeSet demoStarted
    /\ activeImages demoSets demoStarted = images set.
Proof.
  destruct (canvas_shows_the_active_set demoSets None None demoStarted
              demoStarted_reachable demoSets_count)
    as [set [_ [Hin [Hname Himg]]]].
  exists set. repeat split; assumption.
Defined.

(** X13, witness: the swap of the six sets in the holding phase. *)
Lemma images_change_only_in_the_dark_witness :
  activeImages demoSets (effFade demoHolding)
  = activeImages demoSets demoHolding
  \/ (fadePhase demoHolding = Holding
      /\ getCanvasOpacity demoHolding = 0
      /\ getCanvasOpacity (effFade demoHolding) = 0).
Proof.
  destruct demoHolding_facts as [Hr _].
  destruct (images_change_only_in_the_dark demoSets None None demoHolding
              (effFade demoHolding) Hr
              (step_event demoSets None None demoHolding _ EffFade
                 eq_refl eq_refl))
    as [Hsame|[H1 [_ [_ [H4 [H5 _]]]]]].
  - left. exact Hsame.
  - right. repeat split; assumption.
Defined.

Lemma audioPlaying_arises : Audio.arises false audioPlaying.
Proof.
  exact (Audio.arises_perform false (Audio.OpStart envAllGood) _
           (Audio.arises_perform false (Audio.OpInitialize envAllGood) _
              (Audio.arises_mounted false))).
Qed.

Lemma engine_gain_follows_mute_witness :
  Audio.arises false audioPlaying
  /\ forall g, Audio.bgMusicGainRef audioPlaying = Some g ->
       g = if Audio.isMutedRef audioPlaying then 0
           else if false then 5 / 100 else 25 / 100.
Proof.
  split; [exact audioPlaying_arises|].
  exact (proj1 (engine_gain_follows_mute false audioPlaying
                  audioPlaying_arises)).
Defined.

Lemma mute_twice_restores_witness :
  Audio.arises false audioPlaying
  /\ Audio.isMutedRef (Audio.run (Audio.toggleMute false) audioPlaying)
     = negb (Audio.isMutedRef audioPlaying).
Proof.
  split; [exact audioPlaying_arises|].
  exact (proj1 (mute_twice_restores false audioPlaying
                  audioPlaying_arises)).
Defined.

Lemma opsAfterUnmount_no_initialize :
  Forall (fun op => forall e, op <> Audio.OpInitialize e) opsAfterUnmount.
Proof. repeat constructor; intros e; discriminate. Qed.

Lemma nothing_sounds_after_unmount_witness :
  Forall (fun op => forall e, op <> Audio.OpInitialize e) opsAfterUnmount
  /\ Audio.bgMusicRef (Audio.run Audio.unmount audioPlaying) = None.
Proof.
  split; [exact opsAfterUnmount_no_initialize|].
  exact (proj1 (nothing_sounds_after_unmount envAllGood false audioPlaying
                  opsAfterUnmount
                  (or_intror opsAfterUnmount_no_initialize))).
Defined.

Lemma tilt_filter_converges_witness :
  Motion.smoothedDegrees motionLevel = Some 0
  /\ Motion.smoothedDegrees
       (Motion.handleMotion false (Some (Some 1, Some 0)) motionLevel)
     = Some (0 + (atan2 1 (- 0) * (180 / PI) - 0) * (5 / 100)).
Proof.
  split; [reflexivity|].
  exact (proj1 (tilt_filter_converges false 1 0 0 0 motionLevel eq_refl)).
Defined.

Lemma introLeaving_arises : Intro.arises introLeaving.
Proof.
  unfold introLeaving.
  do 2 (apply Intro.arises_step; [|reflexivity]).
  apply Intro.arises_mounted.
Qed.

Lemma introEntered_arises : Intro.arises introEntered.
Proof.
  unfold introEntered.
  do 6 (apply Intro.arises_step; [|reflexivity]).
  exact introLeaving_arises.
Qed.

Lemma experience_is_entered_after_the_intro_witness :
  Intro.arises introEntered
  /\ (Intro.audioStarted introEntered = true ->
      Intro.introStage introEntered = 1%nat
      /\ Intro.isInitialLoading introEntered = false
      /\ Intro.minLoadingTimePassed introEntered = true
      /\ Intro.audioReady introEntered = true).
Proof.
  split; [exact introEntered_arises|].
  exact (proj1 (experience_is_entered_after_the_intro introEntered
                  introEntered_arises)).
Defined.

Lemma next_works_once_witness :
  Intro.arises introLeaving
  /\ (Intro.pendingCount Intro.ButtonDelay introLeaving <= 1)%nat.
Proof.
  split; [exact introLeaving_arises|].
  exact (proj1 (next_works_once introLeaving introLeaving_arises)).
Defined.

Lemma loading_dots_cycle_witness :
  Intro.arises introLeaving
  /\ (1 <= Intro.dotCount introLeaving <= 3)%Z.
Proof.
  split; [exact introLeaving_arises|].
  exact (proj1 (loading_dots_cycle introLeaving 4 introLeaving_arises)).
Defined.
